(** * Expression semantic analysis of lib/Sema/TypeCheckExpr.cpp

    A shallow embedding of the sequence folder ([getInfixData], [makeBinOp],
    [foldSequence]), the reference classifier
    ([doesVarDeclMemberProduceLValue], [doesSubscriptDeclProduceLValue]),
    the rvalue type of a declaration ([getTypeOfRValue]), the capture
    analysis ([FindCapturedVars], [computeCaptures]), the cached lookups
    ([getDefaultType], [getKnownPointerDecl]) and the propagation of sugar
    ([substituteInputSugarTypeForResult]), followed by the properties
    established about them. *)

From Stdlib Require Import String List NArith Bool Lia PeanoNat.
Import ListNotations.

Set Warnings "-register-all".

(** ** Source locations, diagnostics and the outcome of a run *)

(** A [SourceLoc] is valid or not; [SourceLoc()] is the invalid one. *)
Definition SourceLoc := option N.

Definition SourceLoc_isValid (L : SourceLoc) : bool :=
  match L with Some _ => true | None => false end.

Definition SourceLoc_eqb (a b : SourceLoc) : bool :=
  match a, b with
  | Some x, Some y => N.eqb x y
  | None, None => true
  | _, _ => false
  end.

Definition Identifier := string.

(** The diagnostics this file emits (namespace [diag]). *)
Module diag.
Inductive Kind :=
| unknown_binop
| non_assoc_adjacent
| incompatible_assoc
| optional_intrinsics_not_found.
End diag.

Definition Diagnostic : Type := SourceLoc * diag.Kind.

(** How a run can go wrong: a failed [assert] (or an out-of-range index of an
    [ArrayRef], which is an assertion of that class), or the use of a null
    pointer. *)
Inductive Failure := AssertionFailed | NullPointer.

(** A run returns a value together with the diagnostics it emitted, goes
    wrong, or exhausts the recursion budget of the model. *)
Inductive Outcome (A : Type) : Type :=
| Ok (a : A) (diags : list Diagnostic)
| Fail (f : Failure)
| OutOfFuel.
Arguments Ok {A} a diags.
Arguments Fail {A} f.
Arguments OutOfFuel {A}.

Definition ret {A} (a : A) : Outcome A := Ok a [].

Definition bind {A B} (m : Outcome A) (k : A -> Outcome B) : Outcome B :=
  match m with
  | Ok a ds =>
      match k a with
      | Ok b ds' => Ok b (ds ++ ds')
      | Fail f => Fail f
      | OutOfFuel => OutOfFuel
      end
  | Fail f => Fail f
  | OutOfFuel => OutOfFuel
  end.

Notation "x <- m ;; k" := (bind m (fun x => k))
  (at level 61, m at next level, right associativity).
Notation "' pat <- m ;; k" :=
  (bind m (fun x => match x with pat => k end))
  (at level 61, pat pattern, m at next level, right associativity).
Notation "m ;;; k" := (bind m (fun _ => k))
  (at level 61, right associativity).

(** [TC.diagnose(loc, kind)]. *)
Definition diagnose (loc : SourceLoc) (k : diag.Kind) : Outcome unit :=
  Ok tt [(loc, k)].

(** [assert(b)]. *)
Definition assertM (b : bool) : Outcome unit :=
  if b then ret tt else Fail AssertionFailed.

(** Dereferencing a pointer that may be null. *)
Definition deref {A} (p : option A) : Outcome A :=
  match p with Some a => ret a | None => Fail NullPointer end.

(** ** Infix attributes *)

Module Associativity.
Inductive t := None | Left | Right.
Definition eqb (a b : t) : bool :=
  match a, b with
  | None, None | Left, Left | Right, Right => true
  | _, _ => false
  end.
End Associativity.

(** Modelled from the spec: [InfixData] (swift/AST/Attr.h is not part of the
    sources) is the pair of an unsigned small precedence and an
    associativity, compared structurally. *)
Record InfixData := mkInfixData {
  getPrecedence : N;
  getAssociativity : Associativity.t
}.

Definition InfixData_eqb (L R : InfixData) : bool :=
  N.eqb (getPrecedence L) (getPrecedence R)
  && Associativity.eqb (getAssociativity L) (getAssociativity R).

Definition isLeftAssociative (D : InfixData) : bool :=
  Associativity.eqb (getAssociativity D) Associativity.Left.
Definition isRightAssociative (D : InfixData) : bool :=
  Associativity.eqb (getAssociativity D) Associativity.Right.
Definition isNonAssociative (D : InfixData) : bool :=
  Associativity.eqb (getAssociativity D) Associativity.None.

(** ** Expressions *)

(** The expression kinds the folder inspects or builds.  A pointer to an
    expression is an [option Expr]; the parts of a pseudo-operator that the
    fold fills in are null until then.  [OpaqueExpr] stands for every other
    kind of expression.  The subclasses of [ExplicitCastExpr] are not told
    apart, as the folder does not. *)
Inductive Expr : Type :=
| DeclRefExpr (Name : Identifier) (Loc : SourceLoc) (Implicit : bool)
| OverloadedDeclRefExpr (Names : list Identifier) (Loc : SourceLoc)
    (Implicit : bool)
| IfExpr (Cond : option Expr) (QuestionLoc : SourceLoc) (Then : Expr)
    (Else : option Expr)
| AssignExpr (Dest : option Expr) (EqualLoc : SourceLoc) (Src : option Expr)
| ExplicitCastExpr (Sub : option Expr) (AsLoc : SourceLoc)
    (ForceLoc : SourceLoc) (CastTy : Identifier)
| ForceValueExpr (Sub : Expr) (ExclaimLoc : SourceLoc)
| TupleExpr (Elts : list Expr) (Implicit : bool)
| BinaryExpr (Fn : Expr) (Arg : Expr) (Implicit : bool)
| OpaqueExpr (Id : N) (Loc : SourceLoc) (Implicit : bool).

Definition isPresent {A} (p : option A) : bool :=
  match p with Some _ => true | None => false end.

(** [Expr::getLoc()]. *)
Fixpoint getLoc (E : Expr) : SourceLoc :=
  match E with
  | DeclRefExpr _ L _ => L
  | OverloadedDeclRefExpr _ L _ => L
  | IfExpr _ L _ _ => L
  | AssignExpr _ L _ => L
  | ExplicitCastExpr _ L _ _ => L
  | ForceValueExpr _ L => L
  | TupleExpr _ _ => None
  | BinaryExpr Fn _ _ => getLoc Fn
  | OpaqueExpr _ L _ => L
  end.

(** [Expr::isImplicit()]; the pseudo-operators of a sequence and the
    force-unwrap built for a forced cast are explicit. *)
Definition isImplicit (E : Expr) : bool :=
  match E with
  | DeclRefExpr _ _ Im => Im
  | OverloadedDeclRefExpr _ _ Im => Im
  | TupleExpr _ Im => Im
  | BinaryExpr _ _ Im => Im
  | OpaqueExpr _ _ Im => Im
  | IfExpr _ _ _ _ | AssignExpr _ _ _ | ExplicitCastExpr _ _ _ _
  | ForceValueExpr _ _ => false
  end.

(** Modelled from the spec: [isFolded()] of the three pseudo-operators
    (swift/AST/Expr.h is not part of the sources): a pseudo-operator is
    folded once the parts the fold attaches to it are there. *)
Definition isFolded (E : Expr) : bool :=
  match E with
  | IfExpr Cond _ _ Else => isPresent Cond && isPresent Else
  | AssignExpr Dest _ Src => isPresent Dest && isPresent Src
  | ExplicitCastExpr Sub _ _ _ => isPresent Sub
  | _ => false
  end.

(** [isa<ExplicitCastExpr>(E)]. *)
Definition isa_ExplicitCastExpr (E : Expr) : bool :=
  match E with ExplicitCastExpr _ _ _ _ => true | _ => false end.

(** Identity of two expression nodes ([RHS == as] on pointers): the nodes of
    one sequence are told apart by their contents and locations. *)
Fixpoint Expr_eqb (a b : Expr) {struct a} : bool :=
  match a, b with
  | DeclRefExpr n l i, DeclRefExpr n' l' i' =>
      String.eqb n n' && SourceLoc_eqb l l' && Bool.eqb i i'
  | OverloadedDeclRefExpr ns l i, OverloadedDeclRefExpr ns' l' i' =>
      (if list_eq_dec string_dec ns ns' then true else false)
      && SourceLoc_eqb l l' && Bool.eqb i i'
  | IfExpr c l t e, IfExpr c' l' t' e' =>
      match c, c' with
      | Some x, Some y => Expr_eqb x y
      | None, None => true
      | _, _ => false
      end
      && SourceLoc_eqb l l' && Expr_eqb t t'
      && match e, e' with
         | Some x, Some y => Expr_eqb x y
         | None, None => true
         | _, _ => false
         end
  | AssignExpr d l s, AssignExpr d' l' s' =>
      match d, d' with
      | Some x, Some y => Expr_eqb x y
      | None, None => true
      | _, _ => false
      end
      && SourceLoc_eqb l l'
      && match s, s' with
         | Some x, Some y => Expr_eqb x y
         | None, None => true
         | _, _ => false
         end
  | ExplicitCastExpr s l f t, ExplicitCastExpr s' l' f' t' =>
      match s, s' with
      | Some x, Some y => Expr_eqb x y
      | None, None => true
      | _, _ => false
      end
      && SourceLoc_eqb l l' && SourceLoc_eqb f f' && String.eqb t t'
  | ForceValueExpr s l, ForceValueExpr s' l' =>
      Expr_eqb s s' && SourceLoc_eqb l l'
  | TupleExpr es i, TupleExpr es' i' =>
      (fix all2 (xs ys : list Expr) {struct xs} : bool :=
         match xs, ys with
         | [], [] => true
         | x :: xs', y :: ys' => Expr_eqb x y && all2 xs' ys'
         | _, _ => false
         end) es es'
      && Bool.eqb i i'
  | BinaryExpr f x i, BinaryExpr f' x' i' =>
      Expr_eqb f f' && Expr_eqb x x' && Bool.eqb i i'
  | OpaqueExpr n l i, OpaqueExpr n' l' i' =>
      N.eqb n n' && SourceLoc_eqb l l' && Bool.eqb i i'
  | _, _ => false
  end.

(** ** The sequence folder *)

(** The source file of the declaration context, as far as the folder uses
    it: the lookup of a declared infix operator by name. *)
Record SourceFile := mkSourceFile {
  lookupInfixOperator : Identifier -> SourceLoc -> option InfixData
}.

(** [E[i]] of an [ArrayRef<Expr*>]. *)
Definition at_ {A} (Sq : list A) (i : nat) : Outcome A :=
  match nth_error Sq i with
  | Some a => ret a
  | None => Fail AssertionFailed
  end.

(** [S.slice(n)]. *)
Definition slice {A} (Sq : list A) (n : nat) : list A := skipn n Sq.

(** [(S.size() & 1) == 0]. *)
Definition sizeIsEven {A} (Sq : list A) : bool :=
  Nat.eqb (Nat.land (length Sq) 1) 0.

Definition isEmpty {A} (Sq : list A) : bool :=
  match Sq with [] => true | _ => false end.

(** The recovery of [getInfixData] for something that is no operator:
    [(unsigned char)~0U] is 255. *)
Definition unknownBinOp (E : Expr) : Outcome InfixData :=
  diagnose (getLoc E) diag.unknown_binop ;;;
  ret (mkInfixData 255 Associativity.Left).

(** [getInfixData]: the infix attributes of an expression in operator
    position. *)
Definition getInfixData (SF : SourceFile) (E : Expr) : Outcome InfixData :=
  match E with
  | IfExpr _ _ _ _ =>
      assertM (negb (isFolded E)) ;;;
      ret (mkInfixData 100 Associativity.Right)
  | AssignExpr _ _ _ =>
      assertM (negb (isFolded E)) ;;;
      ret (mkInfixData 90 Associativity.Right)
  | ExplicitCastExpr _ _ _ _ =>
      assertM (negb (isFolded E)) ;;;
      ret (mkInfixData 95 Associativity.None)
  | DeclRefExpr name _ _ =>
      match lookupInfixOperator SF name (getLoc E) with
      | Some op => ret op
      | None => unknownBinOp E
      end
  | OverloadedDeclRefExpr names _ _ =>
      name <- at_ names 0 ;;
      match lookupInfixOperator SF name (getLoc E) with
      | Some op => ret op
      | None => unknownBinOp E
      end
  | _ => unknownBinOp E
  end.

(** [makeBinOp]: the node that folds [Op] over [LHS] and [RHS]. *)
Definition makeBinOp (Op LHS RHS : option Expr) : Outcome (option Expr) :=
  match LHS, RHS with
  | Some L, Some R =>
      op <- deref Op ;;
      match op with
      | IfExpr _ QL Then _ =>
          assertM (negb (isFolded op)) ;;;
          ret (Some (IfExpr (Some L) QL Then (Some R)))
      | AssignExpr _ EL _ =>
          assertM (negb (isFolded op)) ;;;
          ret (Some (AssignExpr (Some L) EL (Some R)))
      | ExplicitCastExpr _ AL forceLoc Ty =>
          assertM (negb (isFolded op)) ;;;
          assertM (Expr_eqb R op) ;;;
          if SourceLoc_isValid forceLoc
          then ret (Some (ForceValueExpr
                            (ExplicitCastExpr (Some L) AL None Ty) forceLoc))
          else ret (Some (ExplicitCastExpr (Some L) AL forceLoc Ty))
      | _ =>
          let Arg := TupleExpr [L; R] (isImplicit L && isImplicit R) in
          ret (Some (BinaryExpr op Arg (isImplicit op)))
      end
  | _, _ => ret None
  end.

(** The local struct [Op] of [foldSequence]: an operator with its infix
    attributes, or the null operator [{nullptr, {}}]. *)
Definition Op : Type := option (Expr * InfixData).

Definition Op_op (o : Op) : option Expr :=
  match o with Some (e, _) => Some e | None => None end.

(** The lambda [getNextOperator] of [foldSequence]. *)
Definition getNextOperator (SF : SourceFile) (Sq : list (option Expr))
  (MinPrecedence : N) : Outcome Op :=
  p <- at_ Sq 0 ;;
  op <- deref p ;;
  opInfo <- getInfixData SF op ;;
  if N.ltb (getPrecedence opInfo) MinPrecedence then ret None
  else ret (Some (op, opInfo)).

(** Modelled from the spec: the attributes [{}] of the null operator are
    a default-constructed [InfixData] (swift/AST/Attr.h is not part of the
    sources), which is invalid: the assertion that their precedence is at
    or above the floor fails. *)
Definition precedenceAtLeast (Op1 : Op) (MinPrecedence : N) : bool :=
  match Op1 with
  | Some (_, infixData) => N.leb MinPrecedence (getPrecedence infixData)
  | None => false
  end.

(** [foldSequence] with its [while] loop as [foldLoop]; the slice [S], which
    the source passes by reference and shrinks, is returned next to the
    result.  A turn of the loop with the null operator fails the assertion
    on its precedence; after the loop the null operator is passed to
    [makeBinOp]. *)
Fixpoint foldSequence (fuel : nat) (SF : SourceFile) (LHS : option Expr)
  (Sq : list (option Expr)) (MinPrecedence : N) {struct fuel}
  : Outcome (option Expr * list (option Expr)) :=
  match fuel with
  | O => OutOfFuel
  | S fuel' =>
      assertM (negb (isEmpty Sq)) ;;;
      assertM (sizeIsEven Sq) ;;;
      Op1 <- getNextOperator SF Sq MinPrecedence ;;
      match Op1 with
      | None => ret (LHS, Sq)
      | Some _ =>
          RHS <- at_ Sq 1 ;;
          foldLoop fuel' SF LHS Op1 RHS (slice Sq 2) MinPrecedence
      end
  end

with foldLoop (fuel : nat) (SF : SourceFile) (LHS : option Expr) (Op1 : Op)
  (RHS : option Expr) (Sq : list (option Expr)) (MinPrecedence : N)
  {struct fuel} : Outcome (option Expr * list (option Expr)) :=
  match fuel with
  | O => OutOfFuel
  | S fuel' =>
      if isEmpty Sq then
        r <- makeBinOp (Op_op Op1) LHS RHS ;;
        ret (r, Sq)
      else
        assertM (sizeIsEven Sq) ;;;
        assertM (precedenceAtLeast Op1 MinPrecedence) ;;;
        '(op1, info1) <- deref Op1 ;;
        if isa_ExplicitCastExpr op1 then
          LHS' <- makeBinOp (Some op1) LHS RHS ;;
          Op1' <- getNextOperator SF Sq MinPrecedence ;;
          RHS' <- at_ Sq 1 ;;
          foldLoop fuel' SF LHS' Op1' RHS' (slice Sq 2) MinPrecedence
        else
          p2 <- at_ Sq 0 ;;
          Op2 <- deref p2 ;;
          Op2Info <- getInfixData SF Op2 ;;
          if N.ltb (getPrecedence Op2Info) MinPrecedence then
            r <- makeBinOp (Some op1) LHS RHS ;;
            ret (r, Sq)
          else if N.ltb (getPrecedence Op2Info) (getPrecedence info1)
                  || (InfixData_eqb info1 Op2Info && isLeftAssociative info1)
          then
            LHS' <- makeBinOp (Some op1) LHS RHS ;;
            Op1' <- getNextOperator SF Sq MinPrecedence ;;
            assertM (isPresent Op1') ;;;
            RHS' <- at_ Sq 1 ;;
            foldLoop fuel' SF LHS' Op1' RHS' (slice Sq 2) MinPrecedence
          else if N.ltb (getPrecedence info1) (getPrecedence Op2Info) then
            '(RHS', Sq') <- foldSequence fuel' SF RHS Sq
                              (getPrecedence info1 + 1) ;;
            foldLoop fuel' SF LHS Op1 RHS' Sq' MinPrecedence
          else if InfixData_eqb info1 Op2Info && isRightAssociative info1
          then
            '(RHS', Sq') <- foldSequence fuel' SF RHS Sq
                              (getPrecedence info1) ;;
            LHS' <- makeBinOp (Some op1) LHS RHS' ;;
            if isEmpty Sq' then ret (LHS', Sq')
            else foldSequence fuel' SF LHS' Sq' MinPrecedence
          else
            assertM (N.eqb (getPrecedence info1) (getPrecedence Op2Info)) ;;;
            assertM (negb (Associativity.eqb (getAssociativity info1)
                                             (getAssociativity Op2Info))
                     || isNonAssociative info1) ;;;
            (if isNonAssociative info1 then
               diagnose (getLoc op1) diag.non_assoc_adjacent
             else if isNonAssociative Op2Info then
               diagnose (getLoc Op2) diag.non_assoc_adjacent
             else
               diagnose (getLoc op1) diag.incompatible_assoc) ;;;
            LHS' <- makeBinOp (Some op1) LHS RHS ;;
            foldSequence fuel' SF LHS' Sq MinPrecedence
  end.

(** [TypeChecker::foldSequence]: the fold of a whole [SequenceExpr].  The
    recursion budget is the number of elements: each call and each turn of
    the loop consumes two of them. *)
Module TypeChecker.
Definition foldSequence (SF : SourceFile) (Elts : list (option Expr))
  : Outcome (option Expr) :=
  assertM (Nat.ltb 1 (length Elts)) ;;;
  assertM (Nat.eqb (Nat.land (length Elts) 1) 1) ;;;
  LHS <- at_ Elts 0 ;;
  let Elts' := slice Elts 1 in
  '(Result, Rest) <- foldSequence (length Elts) SF LHS Elts' 0 ;;
  assertM (isEmpty Rest) ;;;
  ret Result.
End TypeChecker.

(** ** Declaration contexts *)

(** Modelled from the spec: a declaration context (swift/AST/DeclContext.h
    is not part of the sources) is a module-scope context or a context
    nested in a parent one; function and closure contexts are local, type
    and file contexts are not.  [Id] tells sibling contexts apart. *)
Inductive DeclContext : Type :=
| ModuleDC (Id : N)
| ChildDC (Id : N) (Local : bool) (Parent : DeclContext).


Definition isLocalContext (DC : DeclContext) : bool :=
  match DC with
  | ModuleDC _ => false
  | ChildDC _ L _ => L
  end.

Fixpoint DeclContext_eqb (a b : DeclContext) : bool :=
  match a, b with
  | ModuleDC i, ModuleDC j => N.eqb i j
  | ChildDC i l p, ChildDC j m q =>
      N.eqb i j && Bool.eqb l m && DeclContext_eqb p q
  | _, _ => false
  end.

(** [C] or one of its parents is [Other]. *)
Fixpoint inContextChain (C Other : DeclContext) : bool :=
  DeclContext_eqb C Other
  || match C with
     | ModuleDC _ => false
     | ChildDC _ _ P => inContextChain P Other
     end.

(** Modelled from the spec: [DeclContext::isChildContextOf] (not part of the
    sources) holds when [Other] is an ancestor scope of [This], that is a
    parent of it at some distance and not [This] itself. *)
Definition isChildContextOf (This Other : DeclContext) : bool :=
  negb (DeclContext_eqb This Other) && inContextChain This Other.

(** ** Types, and the rvalue type of a declaration *)

(** The types [getTypeOfRValue] tells apart.  [NameAliasType] is sugar for
    its underlying type; the other constructors are canonical when their
    components are. *)
Inductive Ty : Type :=
| NominalType (Name : Identifier)
| NameAliasType (Name : Identifier) (Underlying : Ty)
| InOutType (Object : Ty)
| LValueType (Object : Ty)
| WeakStorageType (Referent : Ty)
| UnownedStorageType (Referent : Ty)
| OptionalType (Base : Ty)
| FunctionType (Input Result : Ty)
| ErrorType.

(** [Type::getCanonicalType()]. *)
Fixpoint getCanonicalType (T : Ty) : Ty :=
  match T with
  | NominalType n => NominalType n
  | NameAliasType _ U => getCanonicalType U
  | InOutType Obj => InOutType (getCanonicalType Obj)
  | LValueType Obj => LValueType (getCanonicalType Obj)
  | WeakStorageType R => WeakStorageType (getCanonicalType R)
  | UnownedStorageType R => UnownedStorageType (getCanonicalType R)
  | OptionalType B => OptionalType (getCanonicalType B)
  | FunctionType In Res =>
      FunctionType (getCanonicalType In) (getCanonicalType Res)
  | ErrorType => ErrorType
  end.

(** [Type::getDesugaredType()]: the sugar at the top is stripped. *)
Fixpoint getDesugaredType (T : Ty) : Ty :=
  match T with
  | NameAliasType _ U => getDesugaredType U
  | _ => T
  end.

(** [T->is<LValueType>()]. *)
Definition is_LValueType (T : Ty) : bool :=
  match getDesugaredType T with LValueType _ => true | _ => false end.

(** [T->castTo<ReferenceStorageType>()->getReferentType()]; the cast asserts
    that the desugared type is a reference storage type. *)
Definition castTo_ReferenceStorageType_getReferentType (T : Ty) : Outcome Ty :=
  match getDesugaredType T with
  | WeakStorageType R | UnownedStorageType R => ret R
  | _ => Fail AssertionFailed
  end.

(** [T->getReferenceStorageReferent()]. *)
Definition getReferenceStorageReferent (T : Ty) : Ty :=
  match getDesugaredType T with
  | WeakStorageType R | UnownedStorageType R => R
  | _ => T
  end.

Module ValueDecl.
(** A value declaration as [getTypeOfRValue] reads it. *)
Record t := mk {
  getType : Ty;
  getInterfaceType : Ty;
  getLoc : SourceLoc
}.
End ValueDecl.

(** What [getTypeOfRValue] asks of the type checker and of the AST context,
    neither of which is part of the sources: [getOptionalType], which forms
    the optional of a type or returns null (with diagnostics of its own),
    and [Context.hasOptionalIntrinsics]. *)
Record Environment := mkEnvironment {
  getOptionalType : SourceLoc -> Ty -> Outcome (option Ty);
  hasOptionalIntrinsics : bool
}.

(** [TypeChecker::requireOptionalIntrinsics]. *)
Definition requireOptionalIntrinsics (Env : Environment) (loc : SourceLoc)
  : Outcome bool :=
  if hasOptionalIntrinsics Env then ret false
  else diagnose loc diag.optional_intrinsics_not_found ;;; ret true.

(** [TypeChecker::getTypeOfRValue]; [validateDecl] has no part in the
    result. *)
Definition getTypeOfRValue (Env : Environment) (value : ValueDecl.t)
  (wantInterfaceType : bool) : Outcome Ty :=
  let type := if wantInterfaceType then ValueDecl.getInterfaceType value
              else ValueDecl.getType value in
  let canType := getCanonicalType type in
  match canType with
  | InOutType Obj => ret Obj
  | LValueType Obj => ret Obj
  | WeakStorageType _ =>
      refTy <- castTo_ReferenceStorageType_getReferentType type ;;
      optTy <- getOptionalType Env (ValueDecl.getLoc value) refTy ;;
      match optTy with
      | None => ret refTy
      | Some optTy' =>
          requireOptionalIntrinsics Env (ValueDecl.getLoc value) ;;;
          ret optTy'
      end
  | UnownedStorageType _ => ret (getReferenceStorageReferent type)
  | _ => ret type
  end.

(** ** The reference classifier *)

Record FuncDecl := mkFuncDecl { isMutating : bool }.

Module VarDecl.
Record t := mk {
  isSettable : DeclContext -> bool;
  isStatic : bool;
  getSetter : option FuncDecl
}.
End VarDecl.

Module SubscriptDecl.
Record t := mk {
  isSettable : bool;
  getGetter : option FuncDecl;
  getSetter : option FuncDecl
}.
End SubscriptDecl.

Section ReferenceClassifier.
(** [Type::hasReferenceSemantics()], a query of the type algebra. *)
Variable hasReferenceSemantics : Ty -> bool.

(** [doesVarDeclMemberProduceLValue]; a null [baseType] is [None]. *)
Definition doesVarDeclMemberProduceLValue (VD : VarDecl.t)
  (baseType : option Ty) (UseDC : DeclContext) : bool :=
  if negb (VarDecl.isSettable VD UseDC) then false
  else
    match baseType with
    | None => true
    | Some base =>
        if VarDecl.isStatic VD then true
        else if hasReferenceSemantics base || is_LValueType base then true
        else
          match VarDecl.getSetter VD with
          | Some setter => negb (isMutating setter)
          | None => false
          end
    end.

(** [doesSubscriptDeclProduceLValue]. *)
Definition doesSubscriptDeclProduceLValue (SD : SubscriptDecl.t)
  (baseType : option Ty) : Outcome bool :=
  assertM (isPresent baseType) ;;;
  if negb (SubscriptDecl.isSettable SD) then ret false
  else
    base <- deref baseType ;;
    if hasReferenceSemantics base || is_LValueType base then ret true
    else
      getter <- deref (SubscriptDecl.getGetter SD) ;;
      if isMutating getter then ret false
      else
        setter <- deref (SubscriptDecl.getSetter SD) ;;
        ret (negb (isMutating setter)).
End ReferenceClassifier.

(** ** Capture analysis *)

Module Captures.

(** A declaration as the capture walk reads it; [Id] is its identity. *)
Record ValueDecl := mkValueDecl {
  Id : N;
  isVarDecl : bool;
  getDeclContext : DeclContext
}.

Definition ValueDecl_eqb (a b : ValueDecl) : bool :=
  N.eqb (Id a) (Id b) && Bool.eqb (isVarDecl a) (isVarDecl b)
  && DeclContext_eqb (getDeclContext a) (getDeclContext b).

(** [llvm::SetVector::insert]: appended unless already there. *)
Definition insert (D : ValueDecl) (captures : list ValueDecl)
  : list ValueDecl :=
  if existsb (ValueDecl_eqb D) captures then captures
  else captures ++ [D].

(** Modelled from the spec: the body [ASTWalker] goes through
    (swift/AST/ASTWalker.h is not part of the sources): name references,
    nested closures with their context, their stored capture list and
    their body, and any other node with its children, visited in
    pre-order. *)
Inductive Node : Type :=
| DeclRefExpr (D : ValueDecl)
| AbstractClosureExpr (DC : DeclContext) (getCaptures : list ValueDecl)
    (Body : Node)
| OtherNode (Children : list Node).

(** [FindCapturedVars::walkToDeclRefExpr]. *)
Definition walkToDeclRefExpr (CurExprAsDC : DeclContext) (D : ValueDecl)
  (captures : list ValueDecl) : list ValueDecl :=
  if negb (isChildContextOf CurExprAsDC (getDeclContext D)) then captures
  else if negb (isVarDecl D) && negb (isLocalContext (getDeclContext D))
  then captures
  else insert D captures.

(** The loop of [walkToExprPre] over the captures of a child closure. *)
Definition propagate (CurExprAsDC : DeclContext)
  (SubCaptures captures : list ValueDecl) : list ValueDecl :=
  fold_left
    (fun acc D =>
       if negb (DeclContext_eqb (getDeclContext D) CurExprAsDC)
       then insert D acc else acc)
    SubCaptures captures.

(** [E->walk(finder)] with [FindCapturedVars::walkToExprPre]: the set
    [captures] is threaded through the walk. *)
Fixpoint walk (CurExprAsDC : DeclContext) (E : Node)
  (captures : list ValueDecl) {struct E} : list ValueDecl :=
  match E with
  | DeclRefExpr D => walkToDeclRefExpr CurExprAsDC D captures
  | AbstractClosureExpr _ SubCaptures _ =>
      propagate CurExprAsDC SubCaptures captures
  | OtherNode Children =>
      fold_left (fun acc C => walk CurExprAsDC C acc) Children captures
  end.

(** [TypeChecker::computeCaptures]: the capture list stored for the
    function or closure with context [DC] and body [Body]. *)
Definition computeCaptures (DC : DeclContext) (Body : Node)
  : list ValueDecl :=
  walk DC Body [].

Definition captures_eqb (a b : list ValueDecl) : bool :=
  Nat.eqb (List.length a) (List.length b)
  && forallb (fun p => ValueDecl_eqb (fst p) (snd p)) (combine a b).

(** The scheduling precondition of [computeCaptures] on a body: every
    closure nested in it carries the capture list computed from its own
    body, which satisfies the same. *)
Fixpoint nestedCapturesComputed (E : Node) {struct E} : bool :=
  match E with
  | DeclRefExpr _ => true
  | AbstractClosureExpr DC SubCaptures Body =>
      captures_eqb SubCaptures (walk DC Body [])
      && nestedCapturesComputed Body
  | OtherNode Children => forallb nestedCapturesComputed Children
  end.

End Captures.

(** ** Sequences and the shapes of folded trees *)

(** The slice of a sequence after its first operand: operators with the
    operands that follow them. *)
Fixpoint interleave (pairs : list (Expr * Expr)) : list (option Expr) :=
  match pairs with
  | [] => []
  | (op, e) :: rest => Some op :: Some e :: interleave rest
  end.

(** The node that folding the unfolded operator [op] over [L] and [R]
    yields (see [makeBinOp_foldedNode]). *)
Definition foldedNode (op L R : Expr) : Expr :=
  match op with
  | IfExpr _ QL Then _ => IfExpr (Some L) QL Then (Some R)
  | AssignExpr _ EL _ => AssignExpr (Some L) EL (Some R)
  | ExplicitCastExpr _ AL forceLoc Ty =>
      if SourceLoc_isValid forceLoc
      then ForceValueExpr (ExplicitCastExpr (Some L) AL None Ty) forceLoc
      else ExplicitCastExpr (Some L) AL forceLoc Ty
  | _ => BinaryExpr op (TupleExpr [L; R] (isImplicit L && isImplicit R))
           (isImplicit op)
  end.

(** A right-leaning chain: the first operator is the root, and the right
    child of each operator node is the chain of everything to its right. *)
Fixpoint rightChain (L : Expr) (pairs : list (Expr * Expr)) : Expr :=
  match pairs with
  | [] => L
  | (op, e) :: rest => foldedNode op L (rightChain e rest)
  end.

(** A left-leaning chain: the last operator is the root, and the left child
    of each operator node is the chain of everything to its left. *)
Fixpoint leftChain (L : Expr) (pairs : list (Expr * Expr)) : Expr :=
  match pairs with
  | [] => L
  | (op, e) :: rest => leftChain (foldedNode op L e) rest
  end.

(** The last operand of the sequence [L :: interleave pairs]. *)
Fixpoint lastOperand (L : Expr) (pairs : list (Expr * Expr)) : Expr :=
  match pairs with
  | [] => L
  | (_, e) :: rest => lastOperand e rest
  end.

(** The number of operator nodes on the right spine of a tree. *)
Fixpoint rightDepth (E : Expr) : nat :=
  match E with
  | IfExpr _ _ _ (Some R) => S (rightDepth R)
  | AssignExpr _ _ (Some R) => S (rightDepth R)
  | BinaryExpr _ (TupleExpr [_; R] _) _ => S (rightDepth R)
  | _ => 0
  end.

(** In a sequence the operand that follows a cast is the cast itself. *)
Definition castOperandOk (op e : Expr) : bool :=
  if isa_ExplicitCastExpr op then Expr_eqb e op else true.

(** Every operator of [pairs] is [Right]-associative of precedence [p],
    resolved without a diagnostic. *)
Fixpoint allRightAssociative (SF : SourceFile) (p : N)
  (pairs : list (Expr * Expr)) : Prop :=
  match pairs with
  | [] => True
  | (op, _) :: rest =>
      getInfixData SF op = Ok (mkInfixData p Associativity.Right) []
      /\ allRightAssociative SF p rest
  end.

(** The operators of [pairs] resolve without a diagnostic, to precedences
    that decrease strictly from left to right, below [bound] if there is
    one. *)
Fixpoint strictlyDecreasing (SF : SourceFile) (bound : option N)
  (pairs : list (Expr * Expr)) : Prop :=
  match pairs with
  | [] => True
  | (op, e) :: rest =>
      exists info,
        getInfixData SF op = Ok info []
        /\ match bound with
           | Some b => (getPrecedence info < b)%N
           | None => True
           end
        /\ castOperandOk op e = true
        /\ strictlyDecreasing SF (Some (getPrecedence info)) rest
  end.

(** A sequence of operators, none a cast or null and each with infix
    attributes, and of operands, none null. *)
Fixpoint castFreeSequence (SF : SourceFile) (Sq : list (option Expr))
  : bool :=
  match Sq with
  | [] => true
  | Some op :: Some _ :: rest =>
      negb (isa_ExplicitCastExpr op)
      && match getInfixData SF op with Ok _ _ => true | _ => false end
      && castFreeSequence SF rest
  | _ => false
  end.

(** A fold that returns a tree (no null pointer) and a rest of the slice
    which satisfy [P]. *)
Definition foldsTo (m : Outcome (option Expr * list (option Expr)))
  (P : Expr -> list (option Expr) -> Prop) : Prop :=
  exists r Sq' ds, m = Ok (Some r, Sq') ds /\ P r Sq'.

(** What the fold of a slice [Sq] without casts leaves: a slice without
    casts that is no longer, and empty when the floor is 0. *)
Definition restOf (SF : SourceFile) (Sq : list (option Expr))
  (MinPrecedence : N) (Sq' : list (option Expr)) : Prop :=
  castFreeSequence SF Sq' = true
  /\ List.length Sq' <= List.length Sq
  /\ (MinPrecedence = 0%N -> Sq' = []).

(** A run that does not exhaust the recursion budget, and whose value, if
    it returns one, satisfies [P]. *)
Definition safe {A} (m : Outcome A) (P : A -> Prop) : Prop :=
  match m with
  | Ok a _ => P a
  | Fail _ => True
  | OutOfFuel => False
  end.

(** What a fold from the slice [Sq] with floor [MinPrecedence] leaves of
    it: no more than [Sq], and two elements less at least if the first
    operator of [Sq] is at or above the floor. *)
Definition consumes (SF : SourceFile) (Sq : list (option Expr))
  (MinPrecedence : N) (res : option Expr * list (option Expr)) : Prop :=
  List.length (snd res) <= List.length Sq
  /\ forall op info ds tl,
       Sq = Some op :: tl ->
       getInfixData SF op = Ok info ds ->
       (MinPrecedence <= getPrecedence info)%N ->
       List.length (snd res) + 2 <= List.length Sq.

(** The diagnostic of the fold loop for two operators of one precedence
    whose associativities do not let them be grouped. *)
Definition conflictDiagnostic (op1 : Expr) (info1 : InfixData) (op2 : Expr)
  (info2 : InfixData) : Diagnostic :=
  if isNonAssociative info1 then (getLoc op1, diag.non_assoc_adjacent)
  else if isNonAssociative info2 then (getLoc op2, diag.non_assoc_adjacent)
  else (getLoc op1, diag.incompatible_assoc).

(** [E] is a reference to a declaration or to a set of overloaded ones. *)
Definition isDeclRef (E : Expr) : bool :=
  match E with
  | DeclRefExpr _ _ _ | OverloadedDeclRefExpr _ _ _ => true
  | _ => false
  end.

(** How the fold fails once the cast path of the loop has fetched the null
    operator and sliced the next pair off, leaving [rest]: an empty [rest]
    ends the loop and the null operator is passed to [makeBinOp]; otherwise
    the next turn fails an assertion of the loop. *)
Definition nullOperatorFailure (rest : list (option Expr)) : Failure :=
  if isEmpty rest then NullPointer else AssertionFailed.

(** ** Sample inputs *)

Module Sample.
Open Scope string_scope.
Open Scope N_scope.

(** A source file that declares [*] (150, left), [+] (140, left), [<]
    (130, none), [**] (160, right) and [~] (50, none). *)
Definition SF : SourceFile :=
  mkSourceFile (fun name _ =>
    if String.eqb name "*" then Some (mkInfixData 150 Associativity.Left)
    else if String.eqb name "+" then
      Some (mkInfixData 140 Associativity.Left)
    else if String.eqb name "<" then
      Some (mkInfixData 130 Associativity.None)
    else if String.eqb name "**" then
      Some (mkInfixData 160 Associativity.Right)
    else if String.eqb name "~" then
      Some (mkInfixData 50 Associativity.None)
    else None).

(** The operand at location [n]. *)
Definition operand (n : N) : Expr := OpaqueExpr n (Some n) false.
(** The operator named [s] at location [n]. *)
Definition operator (s : string) (n : N) : Expr :=
  DeclRefExpr s (Some n) false.
(** [=] at location [n]. *)
Definition assign (n : N) : Expr := AssignExpr None (Some n) None.
(** [as T] at location [n]. *)
Definition cast (n : N) : Expr :=
  ExplicitCastExpr None (Some n) None "T".
(** [as! T] at location [n], the [!] at the next one. *)
Definition forcedCast (n : N) : Expr :=
  ExplicitCastExpr None (Some n) (Some (n + 1)) "T".
(** [? e :] at location [n]. *)
Definition ternary (n : N) (e : Expr) : Expr := IfExpr None (Some n) e None.

(** [a * b + c] after its first operand. *)
Definition times_plus : list (Expr * Expr) :=
  [(operator "*" 2, operand 3); (operator "+" 4, operand 5)].

(** [a ** b ** c] after its first operand. *)
Definition power_power : list (Expr * Expr) :=
  [(operator "**" 2, operand 3); (operator "**" 4, operand 5)].



(** [a = b as T = c]. *)
Definition assign_cast_assign : list (option Expr) :=
  [Some (operand 1); Some (assign 2); Some (operand 3); Some (cast 4);
   Some (cast 4); Some (assign 6); Some (operand 7)].

(** [a ~ b as T ~ c]. *)
Definition tilde_cast_tilde : list (option Expr) :=
  [Some (operand 1); Some (operator "~" 2); Some (operand 3);
   Some (cast 4); Some (cast 4); Some (operator "~" 6); Some (operand 7)].

(** A struct type, a class type, and the type algebra that knows them. *)
Definition structTy : Ty := NominalType "S".
Definition classTy : Ty := NominalType "C".
Definition hasReferenceSemantics (T : Ty) : bool :=
  match getDesugaredType T with
  | NominalType n => String.eqb n "C"
  | _ => false
  end.

(** A static stored property whose setter is mutating. *)
Definition staticVar : VarDecl.t :=
  VarDecl.mk (fun _ => true) true (Some (mkFuncDecl true)).
(** A computed property with a non-mutating setter. *)
Definition computedVar : VarDecl.t :=
  VarDecl.mk (fun _ => true) false (Some (mkFuncDecl false)).
(** A subscript whose accessors are both non-mutating. *)
Definition nonmutatingSubscript : SubscriptDecl.t :=
  SubscriptDecl.mk true (Some (mkFuncDecl false)) (Some (mkFuncDecl false)).

(** A [weak var] of class type, declared at location 9. *)
Definition weakDecl : ValueDecl.t :=
  ValueDecl.mk (WeakStorageType classTy) (WeakStorageType classTy) (Some 9).
(** An environment with the optional type but without its intrinsics. *)
Definition noIntrinsics : Environment :=
  mkEnvironment (fun _ T => ret (Some (OptionalType T))) false.
(** An environment without the optional type. *)
Definition noOptional : Environment :=
  mkEnvironment (fun _ _ => ret None) false.
End Sample.

(** The distance of a context from its module-scope context. *)
Fixpoint contextDepth (DC : DeclContext) : nat :=
  match DC with
  | ModuleDC _ => 0
  | ChildDC _ _ P => S (contextDepth P)
  end.



(** Every closure nested in the body [E] of the closure with context [Cur]
    has a context inside that of the closure it is written in, at any
    distance. *)
Fixpoint closuresNestedIn (Cur : DeclContext) (E : Captures.Node)
  {struct E} : bool :=
  match E with
  | Captures.DeclRefExpr _ => true
  | Captures.AbstractClosureExpr DC _ Body =>
      inContextChain DC Cur && closuresNestedIn DC Body
  | Captures.OtherNode Children => forallb (closuresNestedIn Cur) Children
  end.


(** The declarations that [E] refers to, in itself and in the bodies of the
    closures nested in it at any depth. *)
Fixpoint allReferences (E : Captures.Node) : list Captures.ValueDecl :=
  match E with
  | Captures.DeclRefExpr D => [D]
  | Captures.AbstractClosureExpr _ _ Body => allReferences Body
  | Captures.OtherNode Children => flat_map allReferences Children
  end.

(** What a capture of the closure with context [Cur] is when the contexts
    [Within] are those of the closures nested in it: a declaration of
    another scope than [Cur], which encloses [Cur] or one of [Within], and
    a variable unless that scope is local. *)
Definition capturedFromAround (Cur : DeclContext) (Within : list DeclContext)
  (D : Captures.ValueDecl) : Prop :=
  Captures.getDeclContext D <> Cur
  /\ (Captures.isVarDecl D = true
      \/ isLocalContext (Captures.getDeclContext D) = true)
  /\ (isChildContextOf Cur (Captures.getDeclContext D) = true
      \/ exists DC, In DC Within
                    /\ isChildContextOf DC (Captures.getDeclContext D) = true).

(** Sample input of the capture analysis: a function [f] at module scope
    with a local variable [x]; in it a closure with a parameter [y]; in that
    a closure with a local [z] that refers to [x], [y], [z] and the global
    function [g]. *)
Module SampleCaptures.
Open Scope N_scope.
Definition moduleDC : DeclContext := ModuleDC 0.
Definition fDC : DeclContext := ChildDC 1 true moduleDC.
Definition outerDC : DeclContext := ChildDC 2 true fDC.
Definition innerDC : DeclContext := ChildDC 3 true outerDC.
Definition x := Captures.mkValueDecl 10 true fDC.
Definition y := Captures.mkValueDecl 11 true outerDC.
Definition z := Captures.mkValueDecl 12 true innerDC.
Definition g := Captures.mkValueDecl 13 false moduleDC.
Definition innerBody : Captures.Node :=
  Captures.OtherNode
    [Captures.DeclRefExpr g; Captures.DeclRefExpr x;
     Captures.DeclRefExpr y; Captures.DeclRefExpr z].
Definition outerBody : Captures.Node :=
  Captures.OtherNode
    [Captures.DeclRefExpr y;
     Captures.AbstractClosureExpr innerDC
       (Captures.computeCaptures innerDC innerBody) innerBody].
End SampleCaptures.

(** A closure with a local function in it: the function has a local
    variable [v] and a closure that refers to [v]. *)
Module SampleLocalFunction.
Open Scope N_scope.
Definition closureDC : DeclContext := ChildDC 2 true SampleCaptures.fDC.
Definition localFunctionDC : DeclContext := ChildDC 4 true closureDC.
Definition innerDC : DeclContext := ChildDC 5 true localFunctionDC.
Definition v := Captures.mkValueDecl 14 true localFunctionDC.
Definition innerBody : Captures.Node :=
  Captures.OtherNode [Captures.DeclRefExpr v].
End SampleLocalFunction.

(** ** Further shapes and predicates of the sequence folder *)

(** The operands and operators of a tree built by the fold, from left to
    right: a folded ternary, a folded assignment and a binary operation
    over a pair are taken apart, the pseudo-operators given back the null
    parts they had in the sequence. *)
Fixpoint inorder (E : Expr) : list Expr :=
  match E with
  | IfExpr (Some L) QL Then (Some R) =>
      inorder L ++ IfExpr None QL Then None :: inorder R
  | AssignExpr (Some L) EL (Some R) =>
      inorder L ++ AssignExpr None EL None :: inorder R
  | BinaryExpr op (TupleExpr [L; R] _) _ => inorder L ++ op :: inorder R
  | _ => [E]
  end.

(** An operand that is none of the nodes the fold builds. *)
Definition isOperandLeaf (E : Expr) : bool :=
  match E with
  | IfExpr (Some _) _ _ (Some _) => false
  | AssignExpr (Some _) _ (Some _) => false
  | BinaryExpr _ (TupleExpr [_; _] _) _ => false
  | _ => true
  end.

(** An operator as the parser leaves it in a sequence, other than a cast:
    the parts of a ternary or an assignment that the fold fills in are
    null. *)
Definition freshOperator (op : Expr) : bool :=
  match op with
  | IfExpr Cond _ _ Else => negb (isPresent Cond) && negb (isPresent Else)
  | AssignExpr Dest _ Src => negb (isPresent Dest) && negb (isPresent Src)
  | ExplicitCastExpr _ _ _ _ => false
  | _ => true
  end.

(** A slice of fresh operators with infix attributes, none a cast, and of
    operands that are leaves. *)
Fixpoint plainSequence (SF : SourceFile) (Sq : list (option Expr)) : bool :=
  match Sq with
  | [] => true
  | Some op :: Some e :: rest =>
      freshOperator op
      && match getInfixData SF op with Ok _ _ => true | _ => false end
      && isOperandLeaf e
      && plainSequence SF rest
  | _ => false
  end.

(** The non-null elements of a slice. *)
Fixpoint elements (Sq : list (option Expr)) : list Expr :=
  match Sq with
  | [] => []
  | Some e :: rest => e :: elements rest
  | None :: rest => elements rest
  end.

(** The slice is empty or starts with an operator of a precedence below the
    floor. *)
Definition belowFloor (SF : SourceFile) (MinPrecedence : N)
  (Sq : list (option Expr)) : Prop :=
  match Sq with
  | [] => True
  | Some op :: _ =>
      exists info ds,
        getInfixData SF op = Ok info ds
        /\ (getPrecedence info < MinPrecedence)%N
  | None :: _ => False
  end.

(** A run whose value, if it returns one, satisfies [P]. *)
Definition partial {A} (m : Outcome A) (P : A -> Prop) : Prop :=
  match m with
  | Ok a _ => P a
  | _ => True
  end.

(** The diagnostics of looking at the operator [op]. *)
Definition diagsOf (SF : SourceFile) (op : Expr) : list Diagnostic :=
  match getInfixData SF op with
  | Ok _ ds => ds
  | _ => []
  end.

(** The current operator [op1] is folded before the next one is looked at
    further: it is a cast, or binds tighter, or both are the same
    left-associative attributes. *)
Definition groupsLeft (op1 : Expr) (info1 info2 : InfixData) : Prop :=
  isa_ExplicitCastExpr op1 = true
  \/ (getPrecedence info2 < getPrecedence info1)%N
  \/ (info1 = info2 /\ getAssociativity info1 = Associativity.Left).

(** Every operator of [pairs] has infix attributes and is folded before its
    successor, starting after the operator [op1]. *)
Fixpoint leftGrouping (SF : SourceFile) (op1 : Expr) (info1 : InfixData)
  (pairs : list (Expr * Expr)) : Prop :=
  match pairs with
  | [] => True
  | (op2, e2) :: rest =>
      exists info2 ds2,
        getInfixData SF op2 = Ok info2 ds2
        /\ castOperandOk op2 e2 = true
        /\ groupsLeft op1 info1 info2
        /\ leftGrouping SF op2 info2 rest
  end.

(** The diagnostics of the operators of [pairs] in a fold that groups to
    the left: an operator fetched after a folded cast is looked at once,
    any other one twice. *)
Fixpoint leftDiagnostics (SF : SourceFile) (afterCast : bool)
  (pairs : list (Expr * Expr)) : list Diagnostic :=
  match pairs with
  | [] => []
  | (op, _) :: rest =>
      (if afterCast then diagsOf SF op else diagsOf SF op ++ diagsOf SF op)
      ++ leftDiagnostics SF (isa_ExplicitCastExpr op) rest
  end.

(** The next operator binds tighter than the current one, or both are the
    same right-associative attributes. *)
Definition groupsRight (info1 info2 : InfixData) : Prop :=
  (getPrecedence info1 < getPrecedence info2)%N
  \/ (info1 = info2 /\ getAssociativity info1 = Associativity.Right).

(** Every operator of [pairs] has infix attributes, is no cast, and groups
    to the right with its successor, starting after attributes [info1]. *)
Fixpoint rightGrouping (SF : SourceFile) (info1 : InfixData)
  (pairs : list (Expr * Expr)) : Prop :=
  match pairs with
  | [] => True
  | (op2, _) :: rest =>
      exists info2 ds2,
        getInfixData SF op2 = Ok info2 ds2
        /\ isa_ExplicitCastExpr op2 = false
        /\ groupsRight info1 info2
        /\ rightGrouping SF info2 rest
  end.

(** The diagnostics of looking at every operator of [pairs] twice. *)
Fixpoint twiceDiagnostics (SF : SourceFile) (pairs : list (Expr * Expr))
  : list Diagnostic :=
  match pairs with
  | [] => []
  | (op, _) :: rest =>
      (diagsOf SF op ++ diagsOf SF op) ++ twiceDiagnostics SF rest
  end.

(** [E] is of none of the kinds [getInfixData] takes for an operator. *)
Definition isOperatorKind (E : Expr) : bool :=
  match E with
  | IfExpr _ _ _ _ | AssignExpr _ _ _ | ExplicitCastExpr _ _ _ _
  | DeclRefExpr _ _ _ | OverloadedDeclRefExpr _ _ _ => true
  | _ => false
  end.

(** What a fold from the left-hand side [L] (and, inside the loop, the
    current operator and right-hand side) returns: a tree and a rest of
    the slice that together hold the elements given, in the order given;
    the rest starts below the floor. *)
Definition keepsOrder (SF : SourceFile) (MinPrecedence : N)
  (given : list Expr) (res : option Expr * list (option Expr)) : Prop :=
  exists r,
    fst res = Some r
    /\ plainSequence SF (snd res) = true
    /\ belowFloor SF MinPrecedence (snd res)
    /\ inorder r ++ elements (snd res) = given.

(** ** What a body refers to *)

(** The declarations that the name references of [E] refer to, in the
    order of the walk, those inside nested closures left out. *)
Fixpoint directReferences (E : Captures.Node) : list Captures.ValueDecl :=
  match E with
  | Captures.DeclRefExpr D => [D]
  | Captures.AbstractClosureExpr _ _ _ => []
  | Captures.OtherNode Children => flat_map directReferences Children
  end.

(** The stored captures of the closures nested in [E], those of closures
    nested deeper left out. *)
Fixpoint nestedCaptures (E : Captures.Node) : list Captures.ValueDecl :=
  match E with
  | Captures.DeclRefExpr _ => []
  | Captures.AbstractClosureExpr _ SubCaptures _ => SubCaptures
  | Captures.OtherNode Children => flat_map nestedCaptures Children
  end.

(** The two tests of [walkToDeclRefExpr] on a declaration. *)
Definition capturable (Cur : DeclContext) (D : Captures.ValueDecl) : bool :=
  isChildContextOf Cur (Captures.getDeclContext D)
  && (Captures.isVarDecl D || isLocalContext (Captures.getDeclContext D)).

(** Further sample inputs. *)
Module MoreSamples.
Open Scope string_scope.
Open Scope N_scope.

(** [a + b + c] after its first operand. *)
Definition plus_plus : list (Expr * Expr) :=
  [(Sample.operator "+" 2, Sample.operand 3);
   (Sample.operator "+" 4, Sample.operand 5)].

(** [a + b * c ** d] after its first operand. *)
Definition plus_times_power : list (Expr * Expr) :=
  [(Sample.operator "+" 2, Sample.operand 3);
   (Sample.operator "*" 4, Sample.operand 5);
   (Sample.operator "**" 6, Sample.operand 7)].

(** [a b c d e], where [b] and [d] are no operators, after its first
    operand. *)
Definition no_operators : list (Expr * Expr) :=
  [(Sample.operand 2, Sample.operand 3);
   (Sample.operand 4, Sample.operand 5)].

(** [a + b < c * d = e] after its first operand. *)
Definition mixed : list (option Expr) :=
  [Some (Sample.operator "+" 2); Some (Sample.operand 3);
   Some (Sample.operator "<" 4); Some (Sample.operand 5);
   Some (Sample.operator "*" 6); Some (Sample.operand 7);
   Some (Sample.assign 8); Some (Sample.operand 9)].
End MoreSamples.

(** ** Default literal types *)

Module KnownProtocolKind.
Inductive t :=
| CharacterLiteralConvertible
| StringLiteralConvertible
| StringInterpolationConvertible
| IntegerLiteralConvertible
| FloatLiteralConvertible
| ArrayLiteralConvertible
| DictionaryLiteralConvertible.
End KnownProtocolKind.

(** A pointer to a protocol declaration: null, or the identity of the
    declaration. *)
Definition ProtocolDeclPtr := option N.

Definition ProtocolDeclPtr_eqb (a b : ProtocolDeclPtr) : bool :=
  match a, b with
  | Some x, Some y => N.eqb x y
  | None, None => true
  | _, _ => false
  end.

(** The cached fields of the type checker that [getDefaultType] fills in;
    a null [Type] is [None]. *)
Record LiteralTypes := mkLiteralTypes {
  CharacterLiteralType : option Ty;
  StringLiteralType : option Ty;
  IntLiteralType : option Ty;
  FloatLiteralType : option Ty;
  ArrayLiteralType : option Ty;
  DictionaryLiteralType : option Ty
}.

(** The field that [Type *type] of [getDefaultType] points to. *)
Inductive LiteralSlot :=
| CharacterSlot | StringSlot | IntSlot | FloatSlot | ArraySlot
| DictionarySlot.

Definition readSlot (st : LiteralTypes) (slot : LiteralSlot) : option Ty :=
  match slot with
  | CharacterSlot => CharacterLiteralType st
  | StringSlot => StringLiteralType st
  | IntSlot => IntLiteralType st
  | FloatSlot => FloatLiteralType st
  | ArraySlot => ArrayLiteralType st
  | DictionarySlot => DictionaryLiteralType st
  end.

Definition writeSlot (st : LiteralTypes) (slot : LiteralSlot)
  (T : option Ty) : LiteralTypes :=
  match slot with
  | CharacterSlot =>
      mkLiteralTypes T (StringLiteralType st) (IntLiteralType st)
        (FloatLiteralType st) (ArrayLiteralType st)
        (DictionaryLiteralType st)
  | StringSlot =>
      mkLiteralTypes (CharacterLiteralType st) T (IntLiteralType st)
        (FloatLiteralType st) (ArrayLiteralType st)
        (DictionaryLiteralType st)
  | IntSlot =>
      mkLiteralTypes (CharacterLiteralType st) (StringLiteralType st) T
        (FloatLiteralType st) (ArrayLiteralType st)
        (DictionaryLiteralType st)
  | FloatSlot =>
      mkLiteralTypes (CharacterLiteralType st) (StringLiteralType st)
        (IntLiteralType st) T (ArrayLiteralType st)
        (DictionaryLiteralType st)
  | ArraySlot =>
      mkLiteralTypes (CharacterLiteralType st) (StringLiteralType st)
        (IntLiteralType st) (FloatLiteralType st) T
        (DictionaryLiteralType st)
  | DictionarySlot =>
      mkLiteralTypes (CharacterLiteralType st) (StringLiteralType st)
        (IntLiteralType st) (FloatLiteralType st) (ArrayLiteralType st) T
  end.

(** What [getDefaultType] and the pointer lookups ask of the rest of the
    compiler: the declaration of a known protocol (or null), the
    module-scope context of a context, the standard library module of a
    context, and the declared type of the single type that an unqualified
    lookup of a name in a context finds (or null). *)
Record Lookup := mkLookup {
  getProtocol : KnownProtocolKind.t -> ProtocolDeclPtr;
  getModuleScopeContext : DeclContext -> DeclContext;
  getStdlibModule : DeclContext -> DeclContext;
  getSingleTypeResult : DeclContext -> Identifier -> option Ty
}.

(** [lookupGlobalType]; [validateDecl] has no part in the result. *)
Definition lookupGlobalType (Lk : Lookup) (dc : DeclContext)
  (name : Identifier) : option Ty :=
  getSingleTypeResult Lk (getModuleScopeContext Lk dc) name.

(** The chain of comparisons at the head of [getDefaultType]: the field
    and the name for a protocol, if it is one of the literal protocols. *)
Definition literalSlot (Lk : Lookup) (protocol : ProtocolDeclPtr)
  : option (LiteralSlot * Identifier) :=
  if ProtocolDeclPtr_eqb protocol
       (getProtocol Lk KnownProtocolKind.CharacterLiteralConvertible)
  then Some (CharacterSlot, "CharacterLiteralType"%string)
  else if ProtocolDeclPtr_eqb protocol
            (getProtocol Lk KnownProtocolKind.StringLiteralConvertible)
          || ProtocolDeclPtr_eqb protocol
               (getProtocol Lk
                  KnownProtocolKind.StringInterpolationConvertible)
  then Some (StringSlot, "StringLiteralType"%string)
  else if ProtocolDeclPtr_eqb protocol
            (getProtocol Lk KnownProtocolKind.IntegerLiteralConvertible)
  then Some (IntSlot, "IntegerLiteralType"%string)
  else if ProtocolDeclPtr_eqb protocol
            (getProtocol Lk KnownProtocolKind.FloatLiteralConvertible)
  then Some (FloatSlot, "FloatLiteralType"%string)
  else if ProtocolDeclPtr_eqb protocol
            (getProtocol Lk KnownProtocolKind.ArrayLiteralConvertible)
  then Some (ArraySlot, "Array"%string)
  else if ProtocolDeclPtr_eqb protocol
            (getProtocol Lk KnownProtocolKind.DictionaryLiteralConvertible)
  then Some (DictionarySlot, "Dictionary"%string)
  else None.

(** One level of sugar off a type that is a type alias itself. *)
Definition stripTypeAlias (T : Ty) : Ty :=
  match T with
  | NameAliasType _ U => U
  | _ => T
  end.

(** [TypeChecker::getDefaultType]: the result and the cached fields after
    the call. *)
Definition getDefaultType (Lk : Lookup) (protocol : ProtocolDeclPtr)
  (dc : DeclContext) (st : LiteralTypes) : option Ty * LiteralTypes :=
  match literalSlot Lk protocol with
  | None => (None, st)
  | Some (slot, name) =>
      match readSlot st slot with
      | Some T => (Some T, st)
      | None =>
          let found :=
            match lookupGlobalType Lk dc name with
            | Some T => Some T
            | None => lookupGlobalType Lk (getStdlibModule Lk dc) name
            end in
          let stripped := option_map stripTypeAlias found in
          (stripped, writeSlot st slot stripped)
      end
  end.

(** ** Well-known pointer declarations *)

(** A type declaration that a lookup finds: its identity, and whether it
    is a nominal type declaration. *)
Record TypeDecl := mkTypeDecl {
  TypeDecl_Id : N;
  isNominalTypeDecl : bool
}.

(** Modelled from the spec: an [Optional] cache field
    (swift/Basic/Optional.h is not part of the sources) is computed once
    and reused: [cache] runs the computation only if the field holds no
    value, stores what it returns, null included, and returns the value
    held. *)
Definition cache {A} (cacheSlot : option A) (compute : Outcome A)
  : Outcome (A * option A) :=
  match cacheSlot with
  | Some v => ret (v, cacheSlot)
  | None => v <- compute ;; ret (v, Some v)
  end.

(** [cast_or_null<NominalTypeDecl>]. *)
Definition cast_or_null_NominalTypeDecl (TD : option TypeDecl)
  : Outcome (option TypeDecl) :=
  match TD with
  | None => ret None
  | Some D => assertM (isNominalTypeDecl D) ;;; ret (Some D)
  end.

(** The cached pointer declarations of the type checker. *)
Record PointerDecls := mkPointerDecls {
  UnsafePointerDecl : option (option TypeDecl);
  CConstPointerDecl : option (option TypeDecl);
  CMutablePointerDecl : option (option TypeDecl)
}.

(** The unqualified lookup of a type declaration by name in the standard
    library module. *)
Definition StdlibLookup := DeclContext -> Identifier -> option TypeDecl.

(** [getKnownPointerDecl]. *)
Definition getKnownPointerDecl (lookup : StdlibLookup)
  (Stdlib : DeclContext) (cacheSlot : option (option TypeDecl))
  (name : Identifier)
  : Outcome (option TypeDecl * option (option TypeDecl)) :=
  cache cacheSlot (cast_or_null_NominalTypeDecl (lookup Stdlib name)).

(** [TypeChecker::getUnsafePointerDecl]. *)
Definition getUnsafePointerDecl (Lk : Lookup) (lookup : StdlibLookup)
  (DC : DeclContext) (st : PointerDecls)
  : Outcome (option TypeDecl * PointerDecls) :=
  '(D, slot) <- getKnownPointerDecl lookup (getStdlibModule Lk DC)
                  (UnsafePointerDecl st) "UnsafePointer"%string ;;
  ret (D, mkPointerDecls slot (CConstPointerDecl st)
            (CMutablePointerDecl st)).

(** [TypeChecker::getCConstPointerDecl]. *)
Definition getCConstPointerDecl (Lk : Lookup) (lookup : StdlibLookup)
  (DC : DeclContext) (st : PointerDecls)
  : Outcome (option TypeDecl * PointerDecls) :=
  '(D, slot) <- getKnownPointerDecl lookup (getStdlibModule Lk DC)
                  (CConstPointerDecl st) "CConstPointer"%string ;;
  ret (D, mkPointerDecls (UnsafePointerDecl st) slot
            (CMutablePointerDecl st)).

(** [TypeChecker::getCMutablePointerDecl]. *)
Definition getCMutablePointerDecl (Lk : Lookup) (lookup : StdlibLookup)
  (DC : DeclContext) (st : PointerDecls)
  : Outcome (option TypeDecl * PointerDecls) :=
  '(D, slot) <- getKnownPointerDecl lookup (getStdlibModule Lk DC)
                  (CMutablePointerDecl st) "CMutablePointer"%string ;;
  ret (D, mkPointerDecls (UnsafePointerDecl st) (CConstPointerDecl st)
            slot).

(** Sample inputs of the lookups and caches. *)
Module SampleLookup.
Open Scope string_scope.
Open Scope N_scope.

Definition stdlibDC : DeclContext := ModuleDC 100.
Definition userDC : DeclContext := ModuleDC 0.

(** The protocols are declared 1 to 7; the user module declares nothing;
    the standard library declares [StringLiteralType] as an alias of
    [String]. *)
Definition Lk : Lookup :=
  mkLookup
    (fun k =>
       match k with
       | KnownProtocolKind.CharacterLiteralConvertible => Some 1
       | KnownProtocolKind.StringLiteralConvertible => Some 2
       | KnownProtocolKind.StringInterpolationConvertible => Some 3
       | KnownProtocolKind.IntegerLiteralConvertible => Some 4
       | KnownProtocolKind.FloatLiteralConvertible => Some 5
       | KnownProtocolKind.ArrayLiteralConvertible => Some 6
       | KnownProtocolKind.DictionaryLiteralConvertible => Some 7
       end)
    (fun dc => dc)
    (fun _ => stdlibDC)
    (fun dc name =>
       if DeclContext_eqb dc stdlibDC && String.eqb name "StringLiteralType"
       then Some (NameAliasType "StringLiteralType" (NominalType "String"))
       else None).

(** The same protocols, and a lookup that finds nothing anywhere. *)
Definition LkNothing : Lookup :=
  mkLookup (getProtocol Lk) (fun dc => dc) (fun _ => stdlibDC)
    (fun _ _ => None).

Definition noLiteralTypes : LiteralTypes :=
  mkLiteralTypes None None None None None None.

Definition noPointerDecls : PointerDecls := mkPointerDecls None None None.

(** A standard library without pointer types, and one with
    [UnsafePointer]. *)
Definition lookupNothing : StdlibLookup := fun _ _ => None.
Definition lookupUnsafePointer : StdlibLookup :=
  fun _ name =>
    if String.eqb name "UnsafePointer" then Some (mkTypeDecl 50 true)
    else None.
End SampleLookup.

(** The canonical type of a declaration's type without its qualifier at
    the top: the object of an inout or lvalue type, the referent of an
    unowned storage type. *)
Definition stripStorage (C : Ty) : Ty :=
  match C with
  | InOutType Obj | LValueType Obj => Obj
  | UnownedStorageType R => R
  | _ => C
  end.

(** ** Sugar of the result of a call *)

Module Sugar.

(** The types the sugar propagation tells apart: tuples, whose fields it
    walks, sugar ([NameAliasType]), function types and the error type;
    every other type is nominal here. *)
Inductive Ty : Type :=
| NominalType (Name : Identifier)
| NameAliasType (Name : Identifier) (Underlying : Ty)
| TupleType (Fields : list Ty)
| FunctionType (Input Result : Ty)
| ErrorType.

(** [Type::getCanonicalType()]. *)
Fixpoint getCanonicalType (T : Ty) : Ty :=
  match T with
  | NominalType n => NominalType n
  | NameAliasType _ U => getCanonicalType U
  | TupleType Fields => TupleType (map getCanonicalType Fields)
  | FunctionType In Res =>
      FunctionType (getCanonicalType In) (getCanonicalType Res)
  | ErrorType => ErrorType
  end.

(** Equality of canonical types. *)
Fixpoint Ty_eqb (a b : Ty) {struct a} : bool :=
  match a, b with
  | NominalType n, NominalType m => String.eqb n m
  | NameAliasType n U, NameAliasType m V => String.eqb n m && Ty_eqb U V
  | TupleType fs, TupleType gs =>
      (fix all2 (xs ys : list Ty) {struct xs} : bool :=
         match xs, ys with
         | [], [] => true
         | x :: xs', y :: ys' => Ty_eqb x y && all2 xs' ys'
         | _, _ => false
         end) fs gs
  | FunctionType i r, FunctionType j s => Ty_eqb i j && Ty_eqb r s
  | ErrorType, ErrorType => true
  | _, _ => false
  end.

(** [Type::getDesugaredType()]. *)
Fixpoint getDesugaredType (T : Ty) : Ty :=
  match T with
  | NameAliasType _ U => getDesugaredType U
  | _ => T
  end.

(** The state of the walk: [resultSugarTy] (null until a sugar is found)
    and [uniqueSugarTy]. *)
Definition SugarState : Type := option Ty * bool.

Section Propagation.
(** [Type::isSpelledLike], a query of the type algebra. *)
Variable isSpelledLike : Ty -> Ty -> bool.

(** The branch of [substituteInputSugarArgumentType] for an argument type
    that is no tuple. *)
Definition substituteLeaf (argTy resultTy : Ty) (st : SugarState)
  : SugarState :=
  if Ty_eqb (getCanonicalType argTy) resultTy then
    match fst st with
    | Some resultSugarTy =>
        if isSpelledLike argTy resultSugarTy then st
        else (fst st, false)
    | None => (Some argTy, snd st)
    end
  else st.

(** [substituteInputSugarArgumentType] on the argument type written
    [asWritten], once it is known that no unique sugar has failed yet;
    [argTy] is what is left of [asWritten] to desugar in search of a tuple
    type ([getAs<TupleType>]).  The loop over the fields stops calling once
    uniqueness has failed. *)
Fixpoint substituteArgument (argTy asWritten resultTy : Ty)
  (st : SugarState) {struct argTy} : SugarState :=
  match argTy with
  | NameAliasType _ U => substituteArgument U asWritten resultTy st
  | TupleType Fields =>
      fold_left
        (fun (acc : SugarState) (field : Ty) =>
           if snd acc then substituteArgument field field resultTy acc
           else acc)
        Fields st
  | _ => substituteLeaf asWritten resultTy st
  end.

(** [substituteInputSugarArgumentType]. *)
Definition substituteInputSugarArgumentType (argTy resultTy : Ty)
  (st : SugarState) : SugarState :=
  if negb (snd st) then st
  else substituteArgument argTy argTy resultTy st.

(** An [ApplyExpr] as the propagation reads it: its type (null until
    checked), the type of its callee and the type of its argument. *)
Record ApplyExpr := mkApplyExpr {
  getType : option Ty;
  getFnType : option Ty;
  getArgType : option Ty
}.

Definition is_ErrorType (T : Ty) : bool :=
  match getDesugaredType T with ErrorType => true | _ => false end.

(** [T->castTo<FunctionType>()->getResult()]. *)
Definition castTo_FunctionType_getResult (T : Ty) : Outcome Ty :=
  match getDesugaredType T with
  | FunctionType _ Res => ret Res
  | _ => Fail AssertionFailed
  end.

(** [TypeChecker::substituteInputSugarTypeForResult]. *)
Definition substituteInputSugarTypeForResult (E : ApplyExpr)
  : Outcome ApplyExpr :=
  match getType E with
  | None => ret E
  | Some T =>
      if is_ErrorType T then ret E
      else
        fnTy <- deref (getFnType E) ;;
        res <- castTo_FunctionType_getResult fnTy ;;
        argTy <- deref (getArgType E) ;;
        let resultTy := getCanonicalType res in
        let st := substituteInputSugarArgumentType argTy resultTy
                    (None, true) in
        match st with
        | (Some resultSugarTy, true) =>
            ret (mkApplyExpr (Some resultSugarTy) (getFnType E)
                   (getArgType E))
        | _ => ret E
        end
  end.
End Propagation.

(** The argument types that are no tuples, as written, from left to
    right. *)
Fixpoint leaves (argTy asWritten : Ty) {struct argTy} : list Ty :=
  match argTy with
  | NameAliasType _ U => leaves U asWritten
  | TupleType Fields => flat_map (fun field => leaves field field) Fields
  | _ => [asWritten]
  end.

End Sugar.

(** The walk of the sugar propagation over a list of argument types that
    are no tuples. *)
Definition substituteLeaves (isSpelledLike : Sugar.Ty -> Sugar.Ty -> bool)
  (resultTy : Sugar.Ty) (l : list Sugar.Ty) (st : Sugar.SugarState)
  : Sugar.SugarState :=
  fold_left
    (fun (acc : Sugar.SugarState) (t : Sugar.Ty) =>
       if snd acc then Sugar.substituteLeaf isSpelledLike t resultTy acc
       else acc)
    l st.

(** The argument types that are no tuples and whose canonical type is
    [resultTy]. *)
Definition sugarCandidates (resultTy argTy : Sugar.Ty) : list Sugar.Ty :=
  filter (fun t => Sugar.Ty_eqb (Sugar.getCanonicalType t) resultTy)
    (Sugar.leaves argTy argTy).

(** The sugar that the candidates agree on: the first of them, if every
    later one is spelled like it. *)
Definition agreedSugar (isSpelledLike : Sugar.Ty -> Sugar.Ty -> bool)
  (candidates : list Sugar.Ty) : option Sugar.Ty :=
  match candidates with
  | [] => None
  | t :: rest =>
      if forallb (fun u => isSpelledLike u t) rest then Some t else None
  end.

(** Sample inputs of the sugar propagation: [Int], its aliases [Word] and
    [Count], and a spelling test that compares the types as written. *)
Module SampleSugar.
Open Scope string_scope.
Definition Int : Sugar.Ty := Sugar.NominalType "Int".
Definition Word : Sugar.Ty := Sugar.NameAliasType "Word" Int.
Definition Count : Sugar.Ty := Sugar.NameAliasType "Count" Int.
Definition Bool : Sugar.Ty := Sugar.NominalType "Bool".
Definition isSpelledLike : Sugar.Ty -> Sugar.Ty -> bool := Sugar.Ty_eqb.
(** A call of a function [(Word, (Bool, Word)) -> Int], its type [Int]. *)
Definition agreeing : Sugar.ApplyExpr :=
  Sugar.mkApplyExpr (Some Int)
    (Some (Sugar.FunctionType
             (Sugar.TupleType [Word; Sugar.TupleType [Bool; Word]]) Int))
    (Some (Sugar.TupleType [Word; Sugar.TupleType [Bool; Word]])).
(** A call with arguments of types [(Word, Count)]. *)
Definition disagreeing : Sugar.ApplyExpr :=
  Sugar.mkApplyExpr (Some Int)
    (Some (Sugar.FunctionType (Sugar.TupleType [Word; Count]) Int))
    (Some (Sugar.TupleType [Word; Count])).
End SampleSugar.

(** Sample declarations for the rvalue type: an [unowned] declaration
    whose type is written through an alias, and an environment in which the
    optional type is formed and its intrinsics are there. *)
Module SampleRValue.
Open Scope string_scope.
Open Scope N_scope.
Definition unownedAlias : Ty :=
  NameAliasType "Ref" (UnownedStorageType (NameAliasType "K" Sample.classTy)).
Definition unownedDecl : ValueDecl.t :=
  ValueDecl.mk unownedAlias unownedAlias (Some 9).
Definition complete : Environment :=
  mkEnvironment (fun _ T => ret (Some (OptionalType T))) true.
End SampleRValue.

(** ** Null operands *)

(** A slice of operators, none a cast or null and each with infix
    attributes, whose operands may be null. *)
Fixpoint operatorSequence (SF : SourceFile) (Sq : list (option Expr))
  : bool :=
  match Sq with
  | [] => true
  | Some op :: _ :: rest =>
      negb (isa_ExplicitCastExpr op)
      && match getInfixData SF op with Ok _ _ => true | _ => false end
      && operatorSequence SF rest
  | _ => false
  end.

(** Some operand of the slice is null. *)
Fixpoint anyNullOperand (Sq : list (option Expr)) : bool :=
  match Sq with
  | _ :: e :: rest => negb (isPresent e) || anyNullOperand rest
  | _ => false
  end.

(** A fold that returns a tree or null, and a rest of the slice, which
    satisfy [P]. *)
Definition returnsFold (m : Outcome (option Expr * list (option Expr)))
  (P : option Expr -> list (option Expr) -> Prop) : Prop :=
  exists r Sq' ds, m = Ok (r, Sq') ds /\ P r Sq'.

(** What the fold of a slice [Sq] of operators leaves, and whether its
    result is null: [nulls] tells whether anything folded so far or still
    in [Sq] is null. *)
Definition nullRest (SF : SourceFile) (Sq : list (option Expr))
  (MinPrecedence : N) (nulls : bool) (r : option Expr)
  (Sq' : list (option Expr)) : Prop :=
  operatorSequence SF Sq' = true
  /\ List.length Sq' <= List.length Sq
  /\ (MinPrecedence = 0%N -> Sq' = [])
  /\ negb (isPresent r) || anyNullOperand Sq' = nulls.

(** [a + b * c] with a null [b], after its first operand. *)
Definition nullOperandSample : list (option Expr) :=
  [Some (Sample.operator "+" 2); None;
   Some (Sample.operator "*" 4); Some (Sample.operand 5)].

(** ** Sequences with casts, and the diagnostics of a fold *)

(** A slice as the fold takes it: operators that have infix attributes
    (a ternary, an assignment or a cast among them is unfolded), operands
    that are not null, and after a cast the cast itself as its operand. *)
Fixpoint foldableSequence (SF : SourceFile) (Sq : list (option Expr))
  : bool :=
  match Sq with
  | [] => true
  | Some op :: Some e :: rest =>
      match getInfixData SF op with Ok _ _ => true | _ => false end
      && castOperandOk op e
      && foldableSequence SF rest
  | _ => false
  end.

(** The floor that a cast meets after the operator [op], when it was
    [floor] before: an operator other than a cast, of a precedence of at
    most 95, has the cast folded in the fold of its right-hand side, whose
    floor is above that precedence. *)
Definition raisedFloor (floor : N) (op : Expr) (info : InfixData) : N :=
  if isa_ExplicitCastExpr op then floor
  else if N.leb (getPrecedence info) 95 then getPrecedence info + 1
  else floor.

(** The first operator of the slice, if there is one, is of a precedence
    at or above [floor]. *)
Definition atOrAbove (SF : SourceFile) (floor : N)
  (Sq : list (option Expr)) : bool :=
  match Sq with
  | Some op :: _ =>
      match getInfixData SF op with
      | Ok info _ => N.leb floor (getPrecedence info)
      | _ => false
      end
  | _ => true
  end.

(** Every operator that follows a cast is at or above the floor that the
    cast meets: it binds tighter than the last operator before the cast
    that is no cast and of a precedence of at most 95, if there is one
    since the slice began with [floor]. *)
Fixpoint castsAboveFloor (SF : SourceFile) (floor : N)
  (Sq : list (option Expr)) : bool :=
  match Sq with
  | Some op :: _ :: rest =>
      match getInfixData SF op with
      | Ok info _ =>
          (negb (isa_ExplicitCastExpr op) || atOrAbove SF floor rest)
          && castsAboveFloor SF (raisedFloor floor op info) rest
      | _ => false
      end
  | _ => true
  end.

(** Of the operators [before], to the left and nearest first, the nearest
    one that binds no tighter than precedence [p]. *)
Fixpoint neighbour (before : list (Expr * InfixData)) (p : N)
  : option (Expr * InfixData) :=
  match before with
  | [] => None
  | (op, info) :: rest =>
      if N.leb (getPrecedence info) p then Some (op, info)
      else neighbour rest p
  end.

(** Two operators of equal precedence with mismatched or no
    associativity. *)
Definition conflicting (info1 info2 : InfixData) : bool :=
  N.eqb (getPrecedence info1) (getPrecedence info2)
  && (negb (Associativity.eqb (getAssociativity info1)
                              (getAssociativity info2))
      || isNonAssociative info1).

(** The diagnostic due for the operator [op] with the operators [before]
    to its left: one, if the nearest operator to the left that binds no
    tighter is no cast and conflicts with [op]. *)
Definition conflictOf (before : list (Expr * InfixData)) (op : Expr)
  (info : InfixData) : list Diagnostic :=
  match neighbour before (getPrecedence info) with
  | Some (op1, info1) =>
      if negb (isa_ExplicitCastExpr op1) && conflicting info1 info
      then [conflictDiagnostic op1 info1 op info]
      else []
  | None => []
  end.

(** The diagnostics due for the operators of a slice, from left to
    right. *)
Fixpoint expectedConflicts (SF : SourceFile)
  (before : list (Expr * InfixData)) (Sq : list (option Expr))
  : list Diagnostic :=
  match Sq with
  | Some op :: _ :: rest =>
      match getInfixData SF op with
      | Ok info _ =>
          conflictOf before op info
          ++ expectedConflicts SF ((op, info) :: before) rest
      | _ => []
      end
  | _ => []
  end.


(** The diagnostics of a run that are about two operators. *)
Definition isConflictDiagnostic (d : Diagnostic) : bool :=
  match snd d with
  | diag.non_assoc_adjacent | diag.incompatible_assoc => true
  | _ => false
  end.

Definition conflictsOf (ds : list Diagnostic) : list Diagnostic :=
  filter isConflictDiagnostic ds.

(** No operator of [before] is due a diagnostic with an operator of a
    precedence from [lo] up to, but not including, [hi]. *)
Definition clearBetween (before : list (Expr * InfixData)) (lo hi : N)
  : Prop :=
  forall (op : Expr) (info : InfixData),
    (lo <= getPrecedence info)%N -> (getPrecedence info < hi)%N ->
    conflictOf before op info = [].

(** A run that does not go wrong, and whose value and diagnostics, if it
    returns, satisfy [P]. *)
Definition succeeds {A} (m : Outcome A) (P : A -> list Diagnostic -> Prop)
  : Prop :=
  match m with
  | Ok a ds => P a ds
  | Fail _ => False
  | OutOfFuel => True
  end.

(** What a fold leaves that started with the operators [ctx] to its left,
    of which [before] were there before its first operator, and the slice
    [Sq]: a tree, a foldable rest of the slice that is empty or starts below
    the floor, and the diagnostics due for the operators it consumed. *)
Definition accountedFrom (SF : SourceFile)
  (before ctx : list (Expr * InfixData)) (Sq : list (option Expr))
  (MinPrecedence lo : N) (res : option Expr * list (option Expr))
  (ds : list Diagnostic) : Prop :=
  exists r Sq' inner,
    res = (Some r, Sq')
    /\ foldableSequence SF Sq' = true
    /\ castsAboveFloor SF lo Sq' = true
    /\ belowFloor SF MinPrecedence Sq'
    /\ Forall (fun x => (MinPrecedence <= getPrecedence (snd x))%N) inner
    /\ conflictsOf ds ++ expectedConflicts SF (inner ++ before) Sq'
       = expectedConflicts SF ctx Sq.

(** ** Reading a folded tree with casts *)

(** The operands and operators of a tree built by the fold, from left to
    right, as [inorder], with a folded cast read as its subject followed by
    the cast as the parser left it: a cast that is not forced holds its
    subject; a forced one is under a force-unwrap, with its marker
    cleared. *)
Fixpoint reading (E : Expr) : list Expr :=
  match E with
  | IfExpr (Some L) QL Then (Some R) =>
      reading L ++ IfExpr None QL Then None :: reading R
  | AssignExpr (Some L) EL (Some R) =>
      reading L ++ AssignExpr None EL None :: reading R
  | BinaryExpr op (TupleExpr [L; R] _) _ => reading L ++ op :: reading R
  | ExplicitCastExpr (Some L) AL None Ty =>
      reading L ++ [ExplicitCastExpr None AL None Ty]
  | ForceValueExpr (ExplicitCastExpr (Some L) AL None Ty) (Some forceLoc) =>
      reading L ++ [ExplicitCastExpr None AL (Some forceLoc) Ty]
  | _ => [E]
  end.

(** An operator of a sequence with the operand after it: a cast is
    followed by itself, which is not read again. *)
Definition readingPair (op e : Expr) : list Expr :=
  if isa_ExplicitCastExpr op then [op] else op :: reading e.

Fixpoint readingOf (Sq : list (option Expr)) : list Expr :=
  match Sq with
  | Some op :: Some e :: rest => readingPair op e ++ readingOf rest
  | _ => []
  end.

(** An operator as the parser leaves it in a sequence: the parts of a
    ternary, an assignment or a cast that the fold fills in are null. *)
Definition asParsed (op : Expr) : bool :=
  match op with
  | IfExpr Cond _ _ Else => negb (isPresent Cond) && negb (isPresent Else)
  | AssignExpr Dest _ Src => negb (isPresent Dest) && negb (isPresent Src)
  | ExplicitCastExpr Sub _ _ _ => negb (isPresent Sub)
  | _ => true
  end.

(** A foldable slice whose operators are as the parser leaves them. *)
Fixpoint parsedSequence (SF : SourceFile) (Sq : list (option Expr))
  : bool :=
  match Sq with
  | [] => true
  | Some op :: Some e :: rest =>
      asParsed op
      && match getInfixData SF op with Ok _ _ => true | _ => false end
      && castOperandOk op e
      && parsedSequence SF rest
  | _ => false
  end.

(** What a fold from the left-hand side and slice that read [whole]
    leaves: a tree and a rest of the slice that read the same. *)
Definition readsAs (SF : SourceFile) (whole : list Expr)
  (res : option Expr * list (option Expr)) : Prop :=
  exists r Sq',
    res = (Some r, Sq')
    /\ parsedSequence SF Sq' = true
    /\ reading r ++ readingOf Sq' = whole.


(** [a ~ b as! T * c] after its first operand. *)
Definition forcedCastSample : list (option Expr) :=
  [Some (Sample.operator "~" 2); Some (Sample.operand 3);
   Some (Sample.forcedCast 4); Some (Sample.forcedCast 4);
   Some (Sample.operator "*" 6); Some (Sample.operand 7)].

(** * Properties *)

(** ** Outcomes *)

Lemma bind_Ok {A B} {m : Outcome A} (k : A -> Outcome B) {a ds} :
  m = Ok a ds ->
  bind m k = match k a with
             | Ok b ds' => Ok b (ds ++ ds')
             | Fail f => Fail f
             | OutOfFuel => OutOfFuel
             end.
Proof. intros ->. reflexivity. Qed.

Lemma bind_ret {A B} (a : A) (k : A -> Outcome B) : bind (ret a) k = k a.
Proof. unfold ret, bind. destruct (k a); reflexivity. Qed.

Lemma bind_Fail {A B} (f : Failure) (k : A -> Outcome B) :
  bind (Fail f) k = Fail f.
Proof. reflexivity. Qed.

Lemma assertM_true : assertM true = ret tt.
Proof. reflexivity. Qed.

(** ** Infix attributes of the pseudo-operators *)

(** C2: the infix attributes of an unfolded expression in operator position
    are fixed for the three pseudo-operators (ternary 100 and right, cast 95
    and none, assignment 90 and right) and do not depend on the operator
    lookup for anything but a reference to a declaration or to a set of
    overloaded declarations, which take theirs from the lookup of their
    (first) name. *)
Theorem getInfixData_pseudo_operators_fixed :
  forall (SF : SourceFile) (E : Expr),
    isFolded E = false ->
    match E with
    | IfExpr _ _ _ _ =>
        getInfixData SF E = Ok (mkInfixData 100 Associativity.Right) []
    | ExplicitCastExpr _ _ _ _ =>
        getInfixData SF E = Ok (mkInfixData 95 Associativity.None) []
    | AssignExpr _ _ _ =>
        getInfixData SF E = Ok (mkInfixData 90 Associativity.Right) []
    | DeclRefExpr name _ _ | OverloadedDeclRefExpr (name :: _) _ _ =>
        getInfixData SF E =
        match lookupInfixOperator SF name (getLoc E) with
        | Some op => Ok op []
        | None => Ok (mkInfixData 255 Associativity.Left)
                     [(getLoc E, diag.unknown_binop)]
        end
    | OverloadedDeclRefExpr [] _ _ =>
        getInfixData SF E = Fail AssertionFailed
    | _ =>
        getInfixData SF E =
        Ok (mkInfixData 255 Associativity.Left)
           [(getLoc E, diag.unknown_binop)]
    end
    /\ (isDeclRef E = false ->
        forall SF', getInfixData SF' E = getInfixData SF E).
Proof.
  intros SF E HE.
  destruct E as [n l i | ns l i | c l t e | d l s | s l f t | s l | es i
                | f x i | n l i];
    simpl in *; try rewrite HE; simpl;
    try (split; [reflexivity | intros; reflexivity]).
  - split; [|discriminate].
    destruct (lookupInfixOperator SF n l); reflexivity.
  - split; [|discriminate].
    destruct ns as [|n ns]; [reflexivity|]. unfold at_; simpl.
    destruct (lookupInfixOperator SF n l); reflexivity.
Qed.

Lemma getInfixData_pseudo_operators_fixed_witness :
  getInfixData Sample.SF (Sample.ternary 2 (Sample.operand 3))
  = Ok (mkInfixData 100 Associativity.Right) []
  /\ getInfixData Sample.SF (Sample.cast 2)
     = Ok (mkInfixData 95 Associativity.None) []
  /\ getInfixData Sample.SF (Sample.assign 2)
     = Ok (mkInfixData 90 Associativity.Right) [].
Proof.
  split; [|split].
  - exact (proj1 (getInfixData_pseudo_operators_fixed Sample.SF
                    (Sample.ternary 2 (Sample.operand 3)) eq_refl)).
  - exact (proj1 (getInfixData_pseudo_operators_fixed Sample.SF
                    (Sample.cast 2) eq_refl)).
  - exact (proj1 (getInfixData_pseudo_operators_fixed Sample.SF
                    (Sample.assign 2) eq_refl)).
Defined.

(** ** The reference classifier *)

Lemma deref_Some {A} (a : A) : deref (Some a) = ret a.
Proof. reflexivity. Qed.

(** The claim of C7 on variables fails on a static one: a settable static
    variable whose setter is mutating is classified mutable through a
    receiver of struct type that is no lvalue. *)
Lemma static_var_through_value_receiver_is_mutable :
  VarDecl.isSettable Sample.staticVar (ModuleDC 0) = true
  /\ Sample.hasReferenceSemantics Sample.structTy
     || is_LValueType Sample.structTy = false
  /\ doesVarDeclMemberProduceLValue Sample.hasReferenceSemantics
       Sample.staticVar (Some Sample.structTy) (ModuleDC 0) = true
  /\ ~ (exists setter,
          VarDecl.getSetter Sample.staticVar = Some setter
          /\ isMutating setter = false).
Proof.
  repeat split; try reflexivity.
  intros [setter [H1 H2]]. simpl in H1. injection H1 as <-. discriminate.
Qed.

(** C7, amended: a settable variable that is not static is classified
    mutable through a receiver with reference semantics or of lvalue type;
    through any other receiver it is classified mutable exactly when it has
    a setter and that setter is not mutating; a static settable variable is
    classified mutable through any receiver.  A subscript through a receiver
    that has no reference semantics and is no lvalue is classified mutable
    exactly when it is settable and both its getter and its setter are not
    mutating. *)
Theorem settable_member_mutability :
  forall (hasReferenceSemantics : Ty -> bool) (VD : VarDecl.t)
         (SD : SubscriptDecl.t) (base : Ty) (UseDC : DeclContext),
    VarDecl.isSettable VD UseDC = true ->
    (VarDecl.isStatic VD = true ->
     doesVarDeclMemberProduceLValue hasReferenceSemantics VD (Some base)
       UseDC = true)
    /\ (hasReferenceSemantics base || is_LValueType base = true ->
        doesVarDeclMemberProduceLValue hasReferenceSemantics VD (Some base)
          UseDC = true)
    /\ (VarDecl.isStatic VD = false ->
        hasReferenceSemantics base || is_LValueType base = false ->
        (doesVarDeclMemberProduceLValue hasReferenceSemantics VD (Some base)
           UseDC = true
         <-> exists setter,
               VarDecl.getSetter VD = Some setter
               /\ isMutating setter = false))
    /\ (hasReferenceSemantics base || is_LValueType base = false ->
        (doesSubscriptDeclProduceLValue hasReferenceSemantics SD (Some base)
         = Ok true []
         <-> SubscriptDecl.isSettable SD = true
             /\ exists getter setter,
                  SubscriptDecl.getGetter SD = Some getter
                  /\ SubscriptDecl.getSetter SD = Some setter
                  /\ isMutating getter = false
                  /\ isMutating setter = false)).
Proof.
  intros hrs VD SD base UseDC Hset.
  unfold doesVarDeclMemberProduceLValue, doesSubscriptDeclProduceLValue.
  rewrite Hset. simpl negb. cbv iota.
  split; [|split; [|split]].
  - intros ->. reflexivity.
  - intros ->. destruct (VarDecl.isStatic VD); reflexivity.
  - intros -> ->. destruct (VarDecl.getSetter VD) as [[m]|]; simpl.
    + split.
      * intros H. exists (mkFuncDecl m). split; [reflexivity|].
        simpl. now destruct m.
      * intros [s [Hs Hm]]. injection Hs as <-. simpl in Hm. now rewrite Hm.
    + split; [discriminate|]. intros [s [Hs _]]. discriminate.
  - intros Hb. simpl isPresent. rewrite assertM_true, bind_ret.
    destruct (SubscriptDecl.isSettable SD); simpl negb; cbv iota.
    + rewrite deref_Some, bind_ret, Hb.
      destruct (SubscriptDecl.getGetter SD) as [[mg]|]; simpl.
      * destruct mg; simpl.
        -- split; [discriminate|]. intros [_ [g [s [Hg [_ [Hm _]]]]]].
           injection Hg as <-. discriminate.
        -- destruct (SubscriptDecl.getSetter SD) as [[ms]|]; simpl.
           ++ destruct ms; simpl.
              ** split; [discriminate|].
                 intros [_ [g [s [_ [Hs [_ Hm]]]]]].
                 injection Hs as <-. discriminate.
              ** split; [|reflexivity]. intros _. split; [reflexivity|].
                 exists (mkFuncDecl false), (mkFuncDecl false).
                 repeat split.
           ++ split; [discriminate|].
              intros [_ [g [s [_ [Hs _]]]]]. discriminate.
      * split; [discriminate|]. intros [_ [g [s [Hg _]]]]. discriminate.
    + split; [discriminate|]. intros [H _]. discriminate.
Qed.

Lemma settable_member_mutability_witness :
  doesVarDeclMemberProduceLValue Sample.hasReferenceSemantics
    Sample.computedVar (Some Sample.classTy) (ModuleDC 0) = true
  /\ (doesVarDeclMemberProduceLValue Sample.hasReferenceSemantics
        Sample.computedVar (Some Sample.structTy) (ModuleDC 0) = true
      <-> exists setter,
            VarDecl.getSetter Sample.computedVar = Some setter
            /\ isMutating setter = false)
  /\ (doesSubscriptDeclProduceLValue Sample.hasReferenceSemantics
        Sample.nonmutatingSubscript (Some Sample.structTy) = Ok true []
      <-> SubscriptDecl.isSettable Sample.nonmutatingSubscript = true
          /\ exists getter setter,
               SubscriptDecl.getGetter Sample.nonmutatingSubscript
               = Some getter
               /\ SubscriptDecl.getSetter Sample.nonmutatingSubscript
                  = Some setter
               /\ isMutating getter = false
               /\ isMutating setter = false).
Proof.
  split; [|split].
  - exact (proj1 (proj2 (settable_member_mutability
             Sample.hasReferenceSemantics Sample.computedVar
             Sample.nonmutatingSubscript Sample.classTy (ModuleDC 0)
             eq_refl)) eq_refl).
  - exact (proj1 (proj2 (proj2 (settable_member_mutability
             Sample.hasReferenceSemantics Sample.computedVar
             Sample.nonmutatingSubscript Sample.structTy (ModuleDC 0)
             eq_refl))) eq_refl eq_refl).
  - exact (proj2 (proj2 (proj2 (settable_member_mutability
             Sample.hasReferenceSemantics Sample.computedVar
             Sample.nonmutatingSubscript Sample.structTy (ModuleDC 0)
             eq_refl))) eq_refl).
Defined.

(** ** The rvalue type of a weak declaration *)

Lemma getCanonicalType_desugared (T : Ty) :
  getCanonicalType (getDesugaredType T) = getCanonicalType T.
Proof. induction T; simpl; auto. Qed.

(** The claim of C9 on missing intrinsics fails: where the optional type
    can be formed and its intrinsics are missing, the diagnostic is emitted
    and the result is the optional type, not the referent. *)
Lemma weak_without_intrinsics_is_optional :
  hasOptionalIntrinsics Sample.noIntrinsics = false
  /\ getTypeOfRValue Sample.noIntrinsics Sample.weakDecl false
     = Ok (OptionalType Sample.classTy)
          [(Some 9%N, diag.optional_intrinsics_not_found)]
  /\ forall ds,
       getTypeOfRValue Sample.noIntrinsics Sample.weakDecl false
       <> Ok Sample.classTy ds.
Proof.
  split; [reflexivity|]. split; [reflexivity|].
  intros ds H. vm_compute in H. discriminate.
Qed.

(** C9, amended: for a declaration whose type is weak storage of [T], with
    [T] as written, the result is the optional type that [getOptionalType]
    forms for [T]; if the intrinsics of the optional type are missing, the
    missing-intrinsics diagnostic is emitted and the result is still that
    optional type.  The referent [T] is the result only where
    [getOptionalType] returns null, and then this routine emits no
    diagnostic of its own. *)
Theorem getTypeOfRValue_weak :
  forall (Env : Environment) (value : ValueDecl.t) (wantInterfaceType : bool)
         (T : Ty) (ds : list Diagnostic),
    let type := if wantInterfaceType then ValueDecl.getInterfaceType value
                else ValueDecl.getType value in
    let loc := ValueDecl.getLoc value in
    getDesugaredType type = WeakStorageType T ->
    (forall optTy,
        getOptionalType Env loc T = Ok (Some optTy) ds ->
        getTypeOfRValue Env value wantInterfaceType
        = Ok optTy
            (ds ++ if hasOptionalIntrinsics Env then []
                   else [(loc, diag.optional_intrinsics_not_found)]))
    /\ (getOptionalType Env loc T = Ok None ds ->
        getTypeOfRValue Env value wantInterfaceType = Ok T ds).
Proof.
  intros Env value want T ds type loc Hd.
  assert (Hc : getCanonicalType type = WeakStorageType (getCanonicalType T)).
  { rewrite <- getCanonicalType_desugared, Hd. reflexivity. }
  unfold getTypeOfRValue. fold type. fold loc. rewrite Hc.
  unfold castTo_ReferenceStorageType_getReferentType. rewrite Hd.
  rewrite bind_ret.
  split.
  - intros optTy Ho. rewrite (bind_Ok _ Ho).
    unfold requireOptionalIntrinsics.
    destruct (hasOptionalIntrinsics Env); simpl; reflexivity.
  - intros Ho. rewrite (bind_Ok _ Ho). simpl. now rewrite app_nil_r.
Qed.

Lemma getTypeOfRValue_weak_witness :
  getTypeOfRValue Sample.noIntrinsics Sample.weakDecl false
  = Ok (OptionalType Sample.classTy)
       ([] ++ [(Some 9%N, diag.optional_intrinsics_not_found)])
  /\ getTypeOfRValue Sample.noOptional Sample.weakDecl true
     = Ok Sample.classTy [].
Proof.
  split.
  - exact (proj1 (getTypeOfRValue_weak Sample.noIntrinsics Sample.weakDecl
                    false Sample.classTy [] eq_refl)
             (OptionalType Sample.classTy) eq_refl).
  - exact (proj2 (getTypeOfRValue_weak Sample.noOptional Sample.weakDecl
                    true Sample.classTy [] eq_refl)
             eq_refl).
Defined.

(** ** Capture analysis *)

Lemma DeclContext_eqb_eq (a b : DeclContext) :
  DeclContext_eqb a b = true <-> a = b.
Proof.
  revert b. induction a as [i | i l p IH]; intros [j | j m q]; simpl;
    try (split; discriminate).
  - rewrite N.eqb_eq. split; congruence.
  - rewrite !andb_true_iff, N.eqb_eq, Bool.eqb_true_iff, IH.
    split; [intros [[-> ->] ->]; reflexivity | intros [= -> -> ->]; auto].
Qed.

Lemma DeclContext_eqb_refl (a : DeclContext) : DeclContext_eqb a a = true.
Proof. now apply DeclContext_eqb_eq. Qed.

Lemma ValueDecl_eqb_eq (a b : Captures.ValueDecl) :
  Captures.ValueDecl_eqb a b = true <-> a = b.
Proof.
  destruct a as [i v c], b as [j w d]. unfold Captures.ValueDecl_eqb; simpl.
  rewrite !andb_true_iff, N.eqb_eq, Bool.eqb_true_iff, DeclContext_eqb_eq.
  split; [intros [[-> ->] ->]; reflexivity | intros [= -> -> ->]; auto].
Qed.

Lemma captures_eqb_eq (a b : list Captures.ValueDecl) :
  Captures.captures_eqb a b = true -> a = b.
Proof.
  unfold Captures.captures_eqb. rewrite andb_true_iff, Nat.eqb_eq.
  revert b. induction a as [|x a IH]; intros [|y b]; simpl;
    try (intros [H _]; discriminate); [reflexivity|].
  rewrite andb_true_iff, ValueDecl_eqb_eq. intros [Hl [-> Hf]].
  f_equal. apply IH. split; [now injection Hl | assumption].
Qed.

Lemma In_insert (D X : Captures.ValueDecl) (l : list Captures.ValueDecl) :
  In X (Captures.insert D l) <-> In X l \/ X = D.
Proof.
  unfold Captures.insert.
  destruct (existsb (Captures.ValueDecl_eqb D) l) eqn:E.
  - split; [auto|]. intros [H | ->]; [assumption|].
    apply existsb_exists in E. destruct E as [y [Hy He]].
    apply ValueDecl_eqb_eq in He. now subst.
  - rewrite in_app_iff. simpl. intuition congruence.
Qed.

Lemma In_propagate (Cur : DeclContext) (sub acc : list Captures.ValueDecl)
  (X : Captures.ValueDecl) :
  In X (Captures.propagate Cur sub acc)
  <-> In X acc \/ (In X sub /\ Captures.getDeclContext X <> Cur).
Proof.
  unfold Captures.propagate. revert acc.
  induction sub as [|D sub IH]; intros acc; simpl.
  - tauto.
  - rewrite IH.
    destruct (DeclContext_eqb (Captures.getDeclContext D) Cur) eqn:E; simpl.
    + apply DeclContext_eqb_eq in E.
      split; [tauto|]. intros [H | [[-> | H] Hn]]; tauto.
    + assert (Hn : Captures.getDeclContext D <> Cur).
      { intros H. apply DeclContext_eqb_eq in H. congruence. }
      rewrite In_insert.
      split; [intros [[H | ->] | H]; tauto|].
      intros [H | [[-> | H] Hc]]; tauto.
Qed.

Lemma Node_nested_ind (P : Captures.Node -> Prop) :
  (forall D, P (Captures.DeclRefExpr D)) ->
  (forall DC caps body, P body ->
     P (Captures.AbstractClosureExpr DC caps body)) ->
  (forall children, Forall P children -> P (Captures.OtherNode children)) ->
  forall E, P E.
Proof.
  intros Href Hclosure Hother. fix IH 1. intros [D | DC caps body | children].
  - apply Href.
  - apply Hclosure, IH.
  - apply Hother. induction children as [|c children IHc]; constructor;
      [apply IH | exact IHc].
Qed.

Lemma inContextChain_depth (A B : DeclContext) :
  inContextChain A B = true -> A = B \/ contextDepth B < contextDepth A.
Proof.
  induction A as [i | i l p IH]; cbn [inContextChain];
    rewrite orb_true_iff.
  - intros [H | H]; [left; now apply DeclContext_eqb_eq in H | discriminate].
  - intros [H | H]; [left; now apply DeclContext_eqb_eq in H|].
    right. cbn [contextDepth]. destruct (IH H) as [-> | Hlt]; lia.
Qed.

Lemma isChildContextOf_depth (A B : DeclContext) :
  isChildContextOf A B = true -> contextDepth B < contextDepth A.
Proof.
  unfold isChildContextOf. rewrite andb_true_iff, negb_true_iff.
  intros [Hne Hc]. destruct (inContextChain_depth _ _ Hc) as [-> | H];
    [|assumption].
  rewrite DeclContext_eqb_refl in Hne. discriminate.
Qed.



Lemma capturedFromAround_incl (Cur : DeclContext)
  (Within Within' : list DeclContext) (D : Captures.ValueDecl) :
  incl Within Within' ->
  capturedFromAround Cur Within D -> capturedFromAround Cur Within' D.
Proof.
  intros Hi (Hne & Hv & [Hc | (DC & HDC & Hc)]); repeat split; auto.
  right. exists DC. auto.
Qed.





(** ** The sequence folder: unfolding and basic facts *)

Lemma bind_Ok_nil {A B} (a : A) (k : A -> Outcome B) :
  bind (Ok a []) k = k a.
Proof. exact (bind_ret a k). Qed.

Lemma bind_assoc {A B C} (m : Outcome A) (k : A -> Outcome B)
  (h : B -> Outcome C) :
  bind (bind m k) h = bind m (fun a => bind (k a) h).
Proof.
  destruct m as [a ds | f |]; simpl; try reflexivity.
  destruct (k a) as [b ds' | f |]; simpl; try reflexivity.
  destruct (h b) as [c ds'' | f |]; simpl; try reflexivity.
  now rewrite app_assoc.
Qed.

Lemma sizeIsEven_cons2 {A} (a b : A) (l : list A) :
  sizeIsEven (a :: b :: l) = sizeIsEven l.
Proof.
  unfold sizeIsEven. cbn [List.length].
  change 1 with (Nat.ones 1). rewrite !Nat.land_ones.
  change (2 ^ 1) with 2.
  replace (S (S (List.length l))) with (List.length l + 1 * 2) by lia.
  now rewrite Nat.Div0.mod_add.
Qed.

Lemma sizeIsEven_interleave (pairs : list (Expr * Expr)) :
  sizeIsEven (interleave pairs) = true.
Proof.
  induction pairs as [|[op e] pairs IH]; [reflexivity|].
  cbn [interleave]. now rewrite sizeIsEven_cons2.
Qed.

Lemma length_interleave (pairs : list (Expr * Expr)) :
  List.length (interleave pairs) = 2 * List.length pairs.
Proof. induction pairs as [|[op e] pairs IH]; simpl; lia. Qed.

Lemma SourceLoc_eqb_refl (l : SourceLoc) : SourceLoc_eqb l l = true.
Proof. destruct l; simpl; [apply N.eqb_refl | reflexivity]. Qed.

Lemma Expr_eqb_refl : forall E : Expr, Expr_eqb E E = true.
Proof.
  fix IH 1.
  intros [n l i | ns l i | c l t e | d l s | s l f t | s l | es i
         | f x i | n l i]; cbn [Expr_eqb];
    rewrite ?SourceLoc_eqb_refl, ?Bool.eqb_reflx, ?String.eqb_refl,
      ?N.eqb_refl, ?IH; simpl; try reflexivity.
  - destruct (list_eq_dec string_dec ns ns); [reflexivity | congruence].
  - destruct c as [c|], e as [e|]; rewrite ?IH; reflexivity.
  - destruct d as [d|], s as [s|]; rewrite ?IH; reflexivity.
  - destruct s as [s|]; rewrite ?IH; reflexivity.
  - rewrite andb_true_r.
    induction es as [|x es IHes]; [reflexivity|]. now rewrite IH, IHes.
Qed.

Lemma foldSequence_S (fuel : nat) (SF : SourceFile) (LHS : option Expr)
  (Sq : list (option Expr)) (MinPrecedence : N) :
  foldSequence (S fuel) SF LHS Sq MinPrecedence
  = (assertM (negb (isEmpty Sq)) ;;;
     assertM (sizeIsEven Sq) ;;;
     Op1 <- getNextOperator SF Sq MinPrecedence ;;
     match Op1 with
     | None => ret (LHS, Sq)
     | Some _ =>
         RHS <- at_ Sq 1 ;;
         foldLoop fuel SF LHS Op1 RHS (slice Sq 2) MinPrecedence
     end).
Proof. reflexivity. Qed.

Lemma foldLoop_S_empty (fuel : nat) (SF : SourceFile) (LHS : option Expr)
  (Op1 : Op) (RHS : option Expr) (MinPrecedence : N) :
  foldLoop (S fuel) SF LHS Op1 RHS [] MinPrecedence
  = (r <- makeBinOp (Op_op Op1) LHS RHS ;; ret (r, [])).
Proof. reflexivity. Qed.

(** A turn of the loop whose current operator is a cast. *)
Lemma foldLoop_S_cast (fuel : nat) (SF : SourceFile) (LHS : option Expr)
  (op1 : Expr) (info1 : InfixData) (RHS : option Expr)
  (Sq : list (option Expr)) (MinPrecedence : N) :
  isEmpty Sq = false -> sizeIsEven Sq = true ->
  (MinPrecedence <= getPrecedence info1)%N ->
  isa_ExplicitCastExpr op1 = true ->
  foldLoop (S fuel) SF LHS (Some (op1, info1)) RHS Sq MinPrecedence
  = (LHS' <- makeBinOp (Some op1) LHS RHS ;;
     Op1' <- getNextOperator SF Sq MinPrecedence ;;
     RHS' <- at_ Sq 1 ;;
     foldLoop fuel SF LHS' Op1' RHS' (slice Sq 2) MinPrecedence).
Proof.
  intros He Hs Hm Hc. cbn [foldLoop precedenceAtLeast]. rewrite He, Hs.
  apply N.leb_le in Hm.
  rewrite assertM_true, bind_ret, Hm, assertM_true, bind_ret.
  rewrite deref_Some, bind_ret, Hc. reflexivity.
Qed.

(** A turn of the loop whose current operator is no cast. *)
Lemma foldLoop_S_operator (fuel : nat) (SF : SourceFile) (LHS : option Expr)
  (op1 : Expr) (info1 : InfixData) (RHS : option Expr) (Op2 : Expr)
  (Sq : list (option Expr)) (MinPrecedence : N) :
  sizeIsEven (Some Op2 :: Sq) = true ->
  (MinPrecedence <= getPrecedence info1)%N ->
  isa_ExplicitCastExpr op1 = false ->
  foldLoop (S fuel) SF LHS (Some (op1, info1)) RHS (Some Op2 :: Sq)
    MinPrecedence
  = (Op2Info <- getInfixData SF Op2 ;;
     if N.ltb (getPrecedence Op2Info) MinPrecedence then
       r <- makeBinOp (Some op1) LHS RHS ;;
       ret (r, Some Op2 :: Sq)
     else if N.ltb (getPrecedence Op2Info) (getPrecedence info1)
             || (InfixData_eqb info1 Op2Info && isLeftAssociative info1)
     then
       LHS' <- makeBinOp (Some op1) LHS RHS ;;
       Op1' <- getNextOperator SF (Some Op2 :: Sq) MinPrecedence ;;
       assertM (isPresent Op1') ;;;
       RHS' <- at_ (Some Op2 :: Sq) 1 ;;
       foldLoop fuel SF LHS' Op1' RHS' (slice (Some Op2 :: Sq) 2)
         MinPrecedence
     else if N.ltb (getPrecedence info1) (getPrecedence Op2Info) then
       '(RHS', Sq') <- foldSequence fuel SF RHS (Some Op2 :: Sq)
                         (getPrecedence info1 + 1) ;;
       foldLoop fuel SF LHS (Some (op1, info1)) RHS' Sq' MinPrecedence
     else if InfixData_eqb info1 Op2Info && isRightAssociative info1
     then
       '(RHS', Sq') <- foldSequence fuel SF RHS (Some Op2 :: Sq)
                         (getPrecedence info1) ;;
       LHS' <- makeBinOp (Some op1) LHS RHS' ;;
       if isEmpty Sq' then ret (LHS', Sq')
       else foldSequence fuel SF LHS' Sq' MinPrecedence
     else
       assertM (N.eqb (getPrecedence info1) (getPrecedence Op2Info)) ;;;
       assertM (negb (Associativity.eqb (getAssociativity info1)
                                        (getAssociativity Op2Info))
                || isNonAssociative info1) ;;;
       (if isNonAssociative info1 then
          diagnose (getLoc op1) diag.non_assoc_adjacent
        else if isNonAssociative Op2Info then
          diagnose (getLoc Op2) diag.non_assoc_adjacent
        else
          diagnose (getLoc op1) diag.incompatible_assoc) ;;;
       LHS' <- makeBinOp (Some op1) LHS RHS ;;
       foldSequence fuel SF LHS' (Some Op2 :: Sq) MinPrecedence).
Proof.
  intros Hs Hm Hc. cbn [foldLoop isEmpty precedenceAtLeast]. rewrite Hs.
  apply N.leb_le in Hm.
  rewrite assertM_true, bind_ret, Hm, assertM_true, bind_ret.
  rewrite deref_Some, bind_ret, Hc.
  unfold at_ at 1. cbn [nth_error].
  rewrite bind_ret, deref_Some, bind_ret. reflexivity.
Qed.

Lemma getNextOperator_cons (SF : SourceFile) (op : Expr) (info : InfixData)
  (ds : list Diagnostic) (Sq : list (option Expr)) (MinPrecedence : N) :
  getInfixData SF op = Ok info ds ->
  getNextOperator SF (Some op :: Sq) MinPrecedence
  = Ok (if N.ltb (getPrecedence info) MinPrecedence then None
        else Some (op, info)) ds.
Proof.
  intros H. unfold getNextOperator, at_. cbn [nth_error].
  rewrite bind_ret, deref_Some, bind_ret, (bind_Ok _ H).
  destruct (N.ltb (getPrecedence info) MinPrecedence); unfold ret;
    now rewrite app_nil_r.
Qed.

Lemma getInfixData_unfolded (SF : SourceFile) (op : Expr) (info : InfixData)
  (ds : list Diagnostic) :
  getInfixData SF op = Ok info ds -> isFolded op = false.
Proof.
  destruct op; try reflexivity; cbn [getInfixData];
    destruct (isFolded _); try reflexivity; discriminate.
Qed.

Lemma getInfixData_cast (SF : SourceFile) (op : Expr) (info : InfixData)
  (ds : list Diagnostic) :
  getInfixData SF op = Ok info ds -> isa_ExplicitCastExpr op = true ->
  info = mkInfixData 95 Associativity.None /\ ds = [].
Proof.
  destruct op; try discriminate. cbn [getInfixData].
  destruct (isFolded _); [discriminate|]. simpl. intros [= <- <-]. auto.
Qed.

(** [makeBinOp] on an unfolded operator and two operands builds
    [foldedNode]. *)
Lemma makeBinOp_foldedNode (op L R : Expr) :
  isFolded op = false -> castOperandOk op R = true ->
  makeBinOp (Some op) (Some L) (Some R) = Ok (Some (foldedNode op L R)) [].
Proof.
  intros Hf Hc. unfold makeBinOp. rewrite deref_Some, bind_ret.
  destruct op; try reflexivity; rewrite Hf; cbn [negb];
    rewrite assertM_true, bind_ret; try reflexivity.
  unfold castOperandOk in Hc. cbn [isa_ExplicitCastExpr] in Hc.
  rewrite Hc, assertM_true, bind_ret. cbn [foldedNode].
  destruct (SourceLoc_isValid ForceLoc); reflexivity.
Qed.

Lemma assertM_false {B} (k : unit -> Outcome B) :
  bind (assertM false) k = Fail AssertionFailed.
Proof. reflexivity. Qed.

(** ** The floor after a folded cast *)

Lemma sizeIsEven_false_nonempty {A} (l : list A) :
  sizeIsEven l = false -> isEmpty l = false.
Proof. destruct l; [discriminate | reflexivity]. Qed.

(** A turn of the loop at a cast whose successor is below the floor. *)
Lemma foldLoop_cast_null_operator (SF : SourceFile) (fuel : nat)
  (L c op e : Expr) (rest : list (option Expr)) (info0 info : InfixData)
  (ds : list Diagnostic) (MinPrecedence : N) :
  isa_ExplicitCastExpr c = true ->
  isFolded c = false ->
  getInfixData SF op = Ok info ds ->
  (getPrecedence info < MinPrecedence)%N ->
  (MinPrecedence <= getPrecedence info0)%N ->
  foldLoop (S (S fuel)) SF (Some L) (Some (c, info0)) (Some c)
    (Some op :: Some e :: rest) MinPrecedence
  = Fail (nullOperatorFailure rest).
Proof.
  intros Hc Hf Hop Hlt Hmin.
  assert (Hmk : makeBinOp (Some c) (Some L) (Some c)
                = Ok (Some (foldedNode c L c)) []).
  { apply makeBinOp_foldedNode; [assumption|].
    unfold castOperandOk. rewrite Hc. apply Expr_eqb_refl. }
  assert (Hb : (getPrecedence info <? MinPrecedence)%N = true)
    by (apply N.ltb_lt; lia).
  unfold nullOperatorFailure.
  destruct (sizeIsEven rest) eqn:He.
  - rewrite foldLoop_S_cast;
      [| reflexivity | now rewrite sizeIsEven_cons2 | assumption
       | assumption].
    rewrite Hmk, bind_Ok_nil.
    rewrite (getNextOperator_cons _ _ _ _ _ _ Hop), Hb.
    rewrite (bind_Ok _ eq_refl). unfold at_.
    cbn [nth_error slice skipn]. rewrite bind_ret.
    destruct rest as [|x rest].
    + rewrite foldLoop_S_empty. reflexivity.
    + cbn [foldLoop isEmpty]. rewrite He. reflexivity.
  - rewrite (sizeIsEven_false_nonempty _ He).
    cbn [foldLoop isEmpty]. rewrite sizeIsEven_cons2, He. reflexivity.
Qed.

(** C1: the floor is not honoured on the step after a folded cast.  In a
    fold with floor [MinPrecedence] (at most 95) of a slice that starts with
    a cast and its type operand, followed by an operator of a precedence
    below the floor, the fold does not return the folded cast and leave
    that operator in the slice: it consumes the operator and its operand
    and goes on with the null operator, which it passes to [makeBinOp] if
    nothing is left, and on which the next turn of the loop fails its
    assertion otherwise. *)
Theorem foldSequence_cast_then_below_floor :
  forall (SF : SourceFile) (fuel : nat) (L c : Expr)
         (pairs : list (Expr * Expr)) (op e : Expr) (info : InfixData)
         (ds : list Diagnostic) (MinPrecedence : N),
    isa_ExplicitCastExpr c = true ->
    isFolded c = false ->
    getInfixData SF op = Ok info ds ->
    (getPrecedence info < MinPrecedence)%N ->
    (MinPrecedence <= 95)%N ->
    foldSequence (S (S (S fuel))) SF (Some L)
      (Some c :: Some c :: Some op :: Some e :: interleave pairs)
      MinPrecedence
    = Fail (nullOperatorFailure (interleave pairs)).
Proof.
  intros SF fuel L c pairs op e info ds Min Hc Hf Hop Hlt Hmin.
  assert (Hci : getInfixData SF c = Ok (mkInfixData 95 Associativity.None) []).
  { destruct c; try discriminate. cbn [getInfixData]. now rewrite Hf. }
  assert (He : sizeIsEven (Some op :: Some e :: interleave pairs) = true).
  { rewrite sizeIsEven_cons2. apply sizeIsEven_interleave. }
  rewrite foldSequence_S. cbn [isEmpty negb].
  rewrite sizeIsEven_cons2, He, !assertM_true, !bind_ret.
  rewrite (getNextOperator_cons _ _ _ _ _ _ Hci). cbn [getPrecedence].
  assert (H95 : (95 <? Min)%N = false) by (apply N.ltb_ge; lia).
  rewrite H95, bind_Ok_nil. unfold at_ at 1. cbn [nth_error].
  rewrite bind_ret. cbn [slice skipn].
  exact (foldLoop_cast_null_operator SF fuel L c op e (interleave pairs)
           (mkInfixData 95 Associativity.None) info ds Min
           Hc Hf Hop Hlt Hmin).
Qed.

Lemma foldSequence_cast_then_below_floor_witness :
  foldSequence 3 Sample.SF (Some (Sample.operand 3))
    [Some (Sample.cast 4); Some (Sample.cast 4); Some (Sample.assign 6);
     Some (Sample.operand 7)] 91
  = Fail NullPointer.
Proof.
  refine (foldSequence_cast_then_below_floor Sample.SF 0 (Sample.operand 3)
            (Sample.cast 4) [] (Sample.assign 6) (Sample.operand 7)
            (mkInfixData 90 Associativity.Right) [] 91%N _ _ _ _ _);
    try reflexivity.
  discriminate.
Defined.

(** C10: the fold does proceed with the null operator.  In [a = b as T = c]
    the operator fetched after the cast is folded has precedence 90, below
    the floor 91 of the fold of the right-hand side of the first [=], so the
    current operator is null when the fold uses it next; likewise in
    [a ~ b as T ~ c] for a declared operator [~] of precedence 50. *)
Theorem foldSequence_null_operator_after_cast :
  getNextOperator Sample.SF
    [Some (Sample.assign 6); Some (Sample.operand 7)] 91
  = Ok None []
  /\ TypeChecker.foldSequence Sample.SF Sample.assign_cast_assign
     = Fail NullPointer
  /\ TypeChecker.foldSequence Sample.SF Sample.tilde_cast_tilde
     = Fail NullPointer.
Proof. repeat split. Qed.

(** ** Folding a whole sequence *)

Lemma odd_size_cons {A} (a : A) (l : list A) :
  sizeIsEven l = true ->
  Nat.eqb (Nat.land (List.length (a :: l)) 1) 1 = true.
Proof.
  unfold sizeIsEven. cbn [List.length].
  change (Nat.land (List.length l) 1)
    with (Nat.land (List.length l) (Nat.ones 1)).
  change (Nat.land (S (List.length l)) 1)
    with (Nat.land (S (List.length l)) (Nat.ones 1)).
  rewrite !Nat.land_ones. change (2 ^ 1) with 2.
  rewrite !Nat.eqb_eq. intros H.
  replace (S (List.length l)) with (1 + List.length l) by lia.
  rewrite Nat.Div0.add_mod, H. reflexivity.
Qed.

(** The fold of a whole sequence is the fold of the slice after its first
    operand with floor 0, which must leave nothing. *)
Lemma TypeChecker_foldSequence_cons (SF : SourceFile) (E0 : option Expr)
  (p q : option Expr) (Sq : list (option Expr)) :
  sizeIsEven Sq = true ->
  TypeChecker.foldSequence SF (E0 :: p :: q :: Sq)
  = ('(Result, Rest) <- foldSequence (3 + List.length Sq) SF E0
                          (p :: q :: Sq) 0 ;;
     assertM (isEmpty Rest) ;;;
     ret Result).
Proof.
  intros He. unfold TypeChecker.foldSequence.
  rewrite odd_size_cons by (now rewrite sizeIsEven_cons2).
  cbn [List.length]. change (Nat.ltb 1 (S (S (S (List.length Sq))))) with true.
  rewrite !assertM_true, !bind_ret. unfold at_. cbn [nth_error].
  rewrite bind_ret. reflexivity.
Qed.

Lemma N_ltb_0 (n : N) : (n <? 0)%N = false.
Proof. apply N.ltb_ge. lia. Qed.

Lemma InfixData_eqb_refl (D : InfixData) : InfixData_eqb D D = true.
Proof.
  unfold InfixData_eqb. rewrite N.eqb_refl.
  now destruct (getAssociativity D).
Qed.

(** *** A cast in the right-hand side of an operator *)

(** C3: a cast before an operator that binds less tightly is not always
    folded to a tree.  In [a op0 b as T op e ...], where [op0] is no cast
    and of a precedence below 95 and [op] binds no tighter than [op0], the
    cast is met in the fold of the right-hand side of [op0], whose floor is
    above the precedence of [op]: the fold of the whole sequence does not
    return the tree in which the cast holds [b] and its type; it goes on
    with the null operator after the cast and fails. *)
Theorem cast_before_lower_operator_fails :
  forall (SF : SourceFile) (a op0 b c op e : Expr)
         (pairs : list (Expr * Expr)) (info0 info : InfixData)
         (ds0 ds : list Diagnostic),
    isa_ExplicitCastExpr c = true ->
    isFolded c = false ->
    isa_ExplicitCastExpr op0 = false ->
    getInfixData SF op0 = Ok info0 ds0 ->
    getInfixData SF op = Ok info ds ->
    (getPrecedence info <= getPrecedence info0)%N ->
    (getPrecedence info0 < 95)%N ->
    TypeChecker.foldSequence SF
      (Some a :: Some op0 :: Some b :: Some c :: Some c :: Some op :: Some e
       :: interleave pairs)
    = Fail (nullOperatorFailure (interleave pairs)).
Proof.
  intros SF a op0 b c op e pairs info0 info ds0 ds Hc Hf Hnc0 Hop0 Hop Hle
    H95.
  assert (Hci : getInfixData SF c = Ok (mkInfixData 95 Associativity.None) []).
  { destruct c; try discriminate. cbn [getInfixData]. now rewrite Hf. }
  assert (He : sizeIsEven (Some op :: Some e :: interleave pairs) = true).
  { rewrite sizeIsEven_cons2. apply sizeIsEven_interleave. }
  assert (He' : sizeIsEven (Some c :: Some c :: Some op :: Some e
                            :: interleave pairs) = true)
    by (now rewrite sizeIsEven_cons2).
  rewrite (TypeChecker_foldSequence_cons SF (Some a) (Some op0) (Some b)
             _ He').
  cbn [List.length Nat.add]. rewrite foldSequence_S. cbn [isEmpty negb].
  rewrite sizeIsEven_cons2, He', !assertM_true, !bind_ret.
  rewrite (getNextOperator_cons _ _ _ _ _ _ Hop0), N_ltb_0.
  cbv beta iota delta [bind ret at_ nth_error slice skipn].
  rewrite foldLoop_S_operator; [| assumption | lia | assumption].
  rewrite Hci. cbv beta iota delta [bind ret]. cbn [getPrecedence].
  rewrite N_ltb_0.
  replace (95 <? getPrecedence info0)%N with false
    by (symmetry; apply N.ltb_ge; lia).
  replace (InfixData_eqb info0 (mkInfixData 95 Associativity.None))
    with false.
  2:{ symmetry. unfold InfixData_eqb. cbn [getPrecedence].
      replace (getPrecedence info0 =? 95)%N with false
        by (symmetry; apply N.eqb_neq; lia).
      reflexivity. }
  cbn [orb andb].
  replace (getPrecedence info0 <? 95)%N with true
    by (symmetry; apply N.ltb_lt; lia).
  rewrite foldSequence_S. cbn [isEmpty negb].
  rewrite He', !assertM_true, !bind_ret.
  rewrite (getNextOperator_cons _ _ _ _ _ _ Hci). cbn [getPrecedence].
  replace (95 <? getPrecedence info0 + 1)%N with false
    by (symmetry; apply N.ltb_ge; lia).
  cbv beta iota delta [bind ret at_ nth_error slice skipn].
  rewrite (foldLoop_cast_null_operator SF _ b c op e (interleave pairs)
             (mkInfixData 95 Associativity.None) info ds
             (getPrecedence info0 + 1)%N Hc Hf Hop ltac:(lia)
             ltac:(cbn [getPrecedence]; lia)).
  reflexivity.
Qed.

Lemma cast_before_lower_operator_fails_witness :
  TypeChecker.foldSequence Sample.SF
    [Some (Sample.operand 1); Some (Sample.operator "~" 2);
     Some (Sample.operand 3); Some (Sample.forcedCast 4);
     Some (Sample.forcedCast 4); Some (Sample.operator "~" 6);
     Some (Sample.operand 7)]
  = Fail NullPointer.
Proof.
  refine (cast_before_lower_operator_fails Sample.SF (Sample.operand 1)
            (Sample.operator "~" 2) (Sample.operand 3) (Sample.forcedCast 4)
            (Sample.operator "~" 6) (Sample.operand 7) []
            (mkInfixData 50 Associativity.None)
            (mkInfixData 50 Associativity.None) [] [] _ _ _ _ _ _ _);
    try reflexivity; discriminate.
Defined.

(** *** One right-associative operator *)

Lemma right_associative_no_cast (SF : SourceFile) (op : Expr) (p : N)
  (ds : list Diagnostic) :
  getInfixData SF op = Ok (mkInfixData p Associativity.Right) ds ->
  isa_ExplicitCastExpr op = false.
Proof.
  intros H. destruct (isa_ExplicitCastExpr op) eqn:E; [|reflexivity].
  destruct (getInfixData_cast _ _ _ _ H E) as [Hi _]. discriminate.
Qed.

Lemma foldSequence_right_chain (SF : SourceFile) (p : N) :
  forall (pairs : list (Expr * Expr)) (op e : Expr) (fuel : nat) (L : Expr)
         (MinPrecedence : N),
    (MinPrecedence <= p)%N ->
    allRightAssociative SF p ((op, e) :: pairs) ->
    2 * List.length pairs + 2 < fuel ->
    foldSequence fuel SF (Some L) (interleave ((op, e) :: pairs))
      MinPrecedence
    = Ok (Some (rightChain L ((op, e) :: pairs)), []) [].
Proof.
  induction pairs as [|[op2 e2] pairs IH];
    intros op e fuel L Min Hmin [Hop Hall] Hfuel.
  - destruct fuel as [|[|fuel]]; try (simpl in Hfuel; lia).
    cbn [interleave]. rewrite foldSequence_S. cbn [isEmpty negb].
    rewrite sizeIsEven_cons2.
    change (sizeIsEven (@nil (option Expr))) with true.
    rewrite !assertM_true, !bind_ret.
    rewrite (getNextOperator_cons _ _ _ _ _ _ Hop). cbn [getPrecedence].
    replace (p <? Min)%N with false by (symmetry; apply N.ltb_ge; lia).
    rewrite bind_Ok_nil. unfold at_. cbn [nth_error slice skipn].
    rewrite bind_ret, foldLoop_S_empty. cbn [Op_op].
    rewrite makeBinOp_foldedNode;
      [| exact (getInfixData_unfolded _ _ _ _ Hop)
       | unfold castOperandOk;
         now rewrite (right_associative_no_cast _ _ _ _ Hop)].
    reflexivity.
  - destruct fuel as [|[|fuel]]; try (simpl in Hfuel; lia).
    pose proof Hall as [Hop2 _].
    pose proof (right_associative_no_cast _ _ _ _ Hop) as Hnc.
    change (interleave ((op, e) :: (op2, e2) :: pairs))
      with (Some op :: Some e :: interleave ((op2, e2) :: pairs)).
    rewrite foldSequence_S. cbn [isEmpty negb].
    rewrite sizeIsEven_cons2, sizeIsEven_interleave.
    rewrite !assertM_true, !bind_ret.
    rewrite (getNextOperator_cons _ _ _ _ _ _ Hop). cbn [getPrecedence].
    replace (p <? Min)%N with false by (symmetry; apply N.ltb_ge; lia).
    rewrite bind_Ok_nil. unfold at_. cbn [nth_error slice skipn].
    rewrite bind_ret.
    change (interleave ((op2, e2) :: pairs))
      with (Some op2 :: Some e2 :: interleave pairs) at 1.
    rewrite foldLoop_S_operator;
      [| rewrite sizeIsEven_cons2; apply sizeIsEven_interleave
       | assumption | assumption].
    rewrite Hop2, bind_Ok_nil. cbn [getPrecedence].
    replace (p <? Min)%N with false by (symmetry; apply N.ltb_ge; lia).
    rewrite N.ltb_irrefl, InfixData_eqb_refl.
    cbn [isLeftAssociative isRightAssociative getAssociativity
         Associativity.eqb andb orb].
    change (Some op2 :: Some e2 :: interleave pairs)
      with (interleave ((op2, e2) :: pairs)).
    rewrite (IH op2 e2 fuel e p); [| lia | assumption | simpl in *; lia].
    rewrite bind_Ok_nil.
    rewrite makeBinOp_foldedNode;
      [| exact (getInfixData_unfolded _ _ _ _ Hop)
       | unfold castOperandOk; now rewrite Hnc].
    rewrite bind_Ok_nil. reflexivity.
Qed.

Lemma rightDepth_foldedNode (op L R : Expr) :
  isa_ExplicitCastExpr op = false ->
  rightDepth (foldedNode op L R) = S (rightDepth R).
Proof. destruct op; try discriminate; reflexivity. Qed.

Lemma rightDepth_rightChain (SF : SourceFile) (p : N) :
  forall (pairs : list (Expr * Expr)) (L : Expr),
    allRightAssociative SF p pairs ->
    rightDepth (rightChain L pairs)
    = List.length pairs + rightDepth (lastOperand L pairs).
Proof.
  induction pairs as [|[op e] pairs IH]; intros L Hall; [reflexivity|].
  destruct Hall as [Hop Hall]. cbn [rightChain lastOperand List.length].
  rewrite rightDepth_foldedNode
    by exact (right_associative_no_cast _ _ _ _ Hop).
  rewrite IH by assumption. reflexivity.
Qed.

(** C4: a sequence of [n + 1] operands and [n >= 1] operators that are all
    right-associative of one precedence folds to the right-leaning chain:
    the first operator is the root and the right child of each operator
    node is the fold of everything to its right; its right spine has [n]
    operator nodes above the last operand. *)
Theorem right_associative_chain :
  forall (SF : SourceFile) (p : N) (E0 op e : Expr)
         (pairs : list (Expr * Expr)),
    allRightAssociative SF p ((op, e) :: pairs) ->
    TypeChecker.foldSequence SF (Some E0 :: interleave ((op, e) :: pairs))
    = Ok (Some (rightChain E0 ((op, e) :: pairs))) []
    /\ rightChain E0 ((op, e) :: pairs)
       = foldedNode op E0 (rightChain e pairs)
    /\ rightDepth (rightChain E0 ((op, e) :: pairs))
       = List.length ((op, e) :: pairs)
         + rightDepth (lastOperand E0 ((op, e) :: pairs)).
Proof.
  intros SF p E0 op e pairs Hall. split; [|split].
  - cbn [interleave].
    rewrite TypeChecker_foldSequence_cons by apply sizeIsEven_interleave.
    change (Some op :: Some e :: interleave pairs)
      with (interleave ((op, e) :: pairs)).
    rewrite (foldSequence_right_chain SF p pairs op e _ E0 0%N);
      [reflexivity | lia | assumption | rewrite length_interleave; lia].
  - reflexivity.
  - exact (rightDepth_rightChain SF p _ E0 Hall).
Qed.

Lemma right_associative_chain_witness :
  TypeChecker.foldSequence Sample.SF
    (Some (Sample.operand 1) :: interleave Sample.power_power)
  = Ok (Some (rightChain (Sample.operand 1) Sample.power_power)) [].
Proof.
  refine (proj1 (right_associative_chain Sample.SF 160 (Sample.operand 1)
                   (Sample.operator "**" 2) (Sample.operand 3)
                   [(Sample.operator "**" 4, Sample.operand 5)] _)).
  simpl. repeat split; reflexivity.
Defined.

(** *** Strictly decreasing precedence *)

Lemma foldLoop_left_chain (SF : SourceFile) :
  forall (pairs : list (Expr * Expr)) (fuel : nat) (L op1 e1 : Expr)
         (info1 : InfixData),
    getInfixData SF op1 = Ok info1 [] ->
    castOperandOk op1 e1 = true ->
    strictlyDecreasing SF (Some (getPrecedence info1)) pairs ->
    List.length pairs < fuel ->
    foldLoop fuel SF (Some L) (Some (op1, info1)) (Some e1)
      (interleave pairs) 0
    = Ok (Some (leftChain (foldedNode op1 L e1) pairs), []) [].
Proof.
  induction pairs as [|[op2 e2] pairs IH];
    intros fuel L op1 e1 info1 Hop1 Hc1 Hdec Hfuel.
  - destruct fuel as [|fuel]; [simpl in Hfuel; lia|].
    cbn [interleave]. rewrite foldLoop_S_empty. cbn [Op_op].
    rewrite makeBinOp_foldedNode;
      [| exact (getInfixData_unfolded _ _ _ _ Hop1) | assumption].
    reflexivity.
  - destruct fuel as [|fuel]; [simpl in Hfuel; lia|].
    destruct Hdec as [info2 [Hop2 [Hlt [Hc2 Hdec]]]].
    pose proof (makeBinOp_foldedNode op1 L e1
                  (getInfixData_unfolded _ _ _ _ Hop1) Hc1) as Hmk.
    assert (Hnext : getNextOperator SF
                      (Some op2 :: Some e2 :: interleave pairs) 0
                    = Ok (Some (op2, info2)) []).
    { rewrite (getNextOperator_cons _ _ _ _ _ _ Hop2).
      now rewrite N_ltb_0. }
    assert (Hev : sizeIsEven (Some op2 :: Some e2 :: interleave pairs)
                  = true).
    { rewrite sizeIsEven_cons2. apply sizeIsEven_interleave. }
    cbn [interleave leftChain].
    destruct (isa_ExplicitCastExpr op1) eqn:Hcast.
    + rewrite foldLoop_S_cast; [|reflexivity|assumption|lia|assumption].
      rewrite Hmk, bind_Ok_nil, Hnext, bind_Ok_nil.
      unfold at_. cbn [nth_error slice skipn]. rewrite bind_ret.
      apply IH; try assumption. simpl in Hfuel. lia.
    + rewrite foldLoop_S_operator; [|assumption|lia|assumption].
      rewrite Hop2, bind_Ok_nil, N_ltb_0.
      replace (getPrecedence info2 <? getPrecedence info1)%N with true
        by (symmetry; apply N.ltb_lt; assumption).
      cbn [orb]. rewrite Hmk, bind_Ok_nil, Hnext, bind_Ok_nil.
      cbn [isPresent]. rewrite assertM_true, bind_ret.
      unfold at_. cbn [nth_error slice skipn]. rewrite bind_ret.
      apply IH; try assumption. simpl in Hfuel. lia.
Qed.

(** The claim of C5 on the shape fails: in [a * b + c], where [*] binds
    tighter than [+], the first operator is not the root of everything to
    its right; the last operator is the root of everything to its left. *)
Lemma decreasing_precedence_not_right_chain :
  getInfixData Sample.SF (Sample.operator "*" 2)
  = Ok (mkInfixData 150 Associativity.Left) []
  /\ getInfixData Sample.SF (Sample.operator "+" 4)
     = Ok (mkInfixData 140 Associativity.Left) []
  /\ TypeChecker.foldSequence Sample.SF
       (Some (Sample.operand 1) :: interleave Sample.times_plus)
     = Ok (Some (leftChain (Sample.operand 1) Sample.times_plus)) []
  /\ forall ds,
       TypeChecker.foldSequence Sample.SF
         (Some (Sample.operand 1) :: interleave Sample.times_plus)
       <> Ok (Some (rightChain (Sample.operand 1) Sample.times_plus)) ds.
Proof.
  repeat split; try reflexivity.
  intros ds H. vm_compute in H. discriminate.
Qed.

(** C5, amended: a sequence of at least three elements whose operators have
    strictly decreasing precedence from left to right folds to the
    left-leaning chain: the last operator is the root, and the left child
    of each operator node is the fold of everything to its left. *)
Theorem decreasing_precedence_left_chain :
  forall (SF : SourceFile) (E0 op e : Expr) (pairs : list (Expr * Expr)),
    strictlyDecreasing SF None ((op, e) :: pairs) ->
    TypeChecker.foldSequence SF (Some E0 :: interleave ((op, e) :: pairs))
    = Ok (Some (leftChain E0 ((op, e) :: pairs))) []
    /\ leftChain E0 ((op, e) :: pairs)
       = leftChain (foldedNode op E0 e) pairs.
Proof.
  intros SF E0 op e pairs [info [Hop [_ [Hc Hdec]]]].
  split; [|reflexivity].
  cbn [interleave].
  rewrite TypeChecker_foldSequence_cons by apply sizeIsEven_interleave.
  cbn [Nat.add]. rewrite foldSequence_S. cbn [isEmpty negb].
  rewrite sizeIsEven_cons2, sizeIsEven_interleave.
  rewrite !assertM_true, !bind_ret.
  rewrite (getNextOperator_cons _ _ _ _ _ _ Hop), N_ltb_0, bind_Ok_nil.
  unfold at_. cbn [nth_error slice skipn]. rewrite bind_ret.
  rewrite (foldLoop_left_chain SF pairs _ E0 op e info Hop Hc Hdec)
    by (rewrite length_interleave; lia).
  reflexivity.
Qed.

Lemma decreasing_precedence_left_chain_witness :
  TypeChecker.foldSequence Sample.SF
    (Some (Sample.operand 1) :: interleave Sample.times_plus)
  = Ok (Some (leftChain (Sample.operand 1) Sample.times_plus)) [].
Proof.
  refine (proj1 (decreasing_precedence_left_chain Sample.SF
                   (Sample.operand 1) (Sample.operator "*" 2)
                   (Sample.operand 3)
                   [(Sample.operator "+" 4, Sample.operand 5)] _)).
  exists (mkInfixData 150 Associativity.Left).
  repeat split.
  exists (mkInfixData 140 Associativity.Left).
  repeat split.
Defined.

(** ** Operators of one precedence that cannot be grouped *)

Lemma bind_Ok_Ok {A B} {m : Outcome A} (k : A -> Outcome B) {a ds b ds'} :
  m = Ok a ds -> k a = Ok b ds' -> bind m k = Ok b (ds ++ ds').
Proof. intros -> H. simpl. now rewrite H. Qed.

Lemma conflict_assertions (info1 info2 : InfixData) :
  (getPrecedence info2 <? getPrecedence info1)%N
  || (InfixData_eqb info1 info2 && isLeftAssociative info1) = false ->
  (getPrecedence info1 <? getPrecedence info2)%N = false ->
  InfixData_eqb info1 info2 && isRightAssociative info1 = false ->
  N.eqb (getPrecedence info1) (getPrecedence info2) = true
  /\ negb (Associativity.eqb (getAssociativity info1)
                             (getAssociativity info2))
     || isNonAssociative info1 = true.
Proof.
  intros H1 H2 H3. apply orb_false_iff in H1. destruct H1 as [H0 H1].
  apply N.ltb_ge in H0, H2.
  assert (He : N.eqb (getPrecedence info1) (getPrecedence info2) = true)
    by (apply N.eqb_eq; lia).
  split; [assumption|].
  unfold InfixData_eqb, isLeftAssociative, isRightAssociative,
    isNonAssociative in *.
  rewrite He in H1, H3.
  destruct (getAssociativity info1), (getAssociativity info2);
    simpl in *; congruence.
Qed.


(** *** Sequences without casts fold to a tree *)

Lemma foldsTo_Ok_bind {A} (m : Outcome A)
  (k : A -> Outcome (option Expr * list (option Expr))) a ds P :
  m = Ok a ds -> foldsTo (k a) P -> foldsTo (bind m k) P.
Proof.
  intros Hm (r & Sq' & ds' & Hk & HP).
  exists r, Sq', (ds ++ ds'). split; [|assumption].
  exact (bind_Ok_Ok k Hm Hk).
Qed.

Lemma foldsTo_bind (m : Outcome (option Expr * list (option Expr)))
  (k : option Expr * list (option Expr)
       -> Outcome (option Expr * list (option Expr))) P Q :
  foldsTo m P ->
  (forall r Sq', P r Sq' -> foldsTo (k (Some r, Sq')) Q) ->
  foldsTo (bind m k) Q.
Proof.
  intros (r & Sq' & ds & Hm & HP) Hk.
  exact (foldsTo_Ok_bind m k (Some r, Sq') ds Q Hm (Hk r Sq' HP)).
Qed.

Lemma foldsTo_weaken m (P Q : Expr -> list (option Expr) -> Prop) :
  foldsTo m P -> (forall r Sq', P r Sq' -> Q r Sq') -> foldsTo m Q.
Proof. intros (r & Sq' & ds & Hm & HP) H. exists r, Sq', ds. auto. Qed.

Lemma foldsTo_ret r Sq' (P : Expr -> list (option Expr) -> Prop) :
  P r Sq' -> foldsTo (ret (Some r, Sq')) P.
Proof. intros H. exists r, Sq', []. auto. Qed.

Lemma castFreeSequence_inv (SF : SourceFile) (Sq : list (option Expr)) :
  castFreeSequence SF Sq = true ->
  Sq = []
  \/ exists op e rest info ds,
       Sq = Some op :: Some e :: rest
       /\ isa_ExplicitCastExpr op = false
       /\ getInfixData SF op = Ok info ds
       /\ castFreeSequence SF rest = true.
Proof.
  destruct Sq as [|[op|] [|[e|] rest]]; simpl; try discriminate; auto.
  intros H. right. apply andb_true_iff in H. destruct H as [H Hr].
  apply andb_true_iff in H. destruct H as [Hc Hi].
  destruct (getInfixData SF op) as [info ds | |] eqn:E; try discriminate.
  exists op, e, rest, info, ds. apply negb_true_iff in Hc. auto.
Qed.

Lemma castFreeSequence_even (SF : SourceFile) :
  forall (n : nat) (Sq : list (option Expr)),
    List.length Sq <= n ->
    castFreeSequence SF Sq = true -> sizeIsEven Sq = true.
Proof.
  induction n as [|n IH]; intros Sq Hn H;
    destruct (castFreeSequence_inv SF Sq H)
      as [-> | (op & e & rest & info & ds & -> & _ & _ & Hr)];
    try reflexivity; simpl in Hn; [lia|].
  rewrite sizeIsEven_cons2. apply IH; [lia | assumption].
Qed.

Lemma makeBinOp_operator (SF : SourceFile) (op L R : Expr)
  (info : InfixData) (ds : list Diagnostic) :
  getInfixData SF op = Ok info ds -> isa_ExplicitCastExpr op = false ->
  makeBinOp (Some op) (Some L) (Some R) = Ok (Some (foldedNode op L R)) [].
Proof.
  intros Hop Hnc. apply makeBinOp_foldedNode.
  - exact (getInfixData_unfolded _ _ _ _ Hop).
  - unfold castOperandOk. now rewrite Hnc.
Qed.

Ltac solve_rest :=
  unfold restOf in *; cbn [List.length] in *; repeat split; intros; subst;
  auto; try lia.

Lemma foldSequence_castFree (SF : SourceFile) :
  forall fuel : nat,
    (forall (L : Expr) (Sq : list (option Expr)) (MinPrecedence : N),
        castFreeSequence SF Sq = true -> Sq <> [] ->
        List.length Sq < fuel ->
        foldsTo (foldSequence fuel SF (Some L) Sq MinPrecedence)
          (fun _ Sq' =>
             restOf SF Sq MinPrecedence Sq'
             /\ forall op info ds0 tl,
                  Sq = Some op :: tl ->
                  getInfixData SF op = Ok info ds0 ->
                  (MinPrecedence <= getPrecedence info)%N ->
                  List.length Sq' + 2 <= List.length Sq))
    /\ (forall (L op1 : Expr) (info1 : InfixData) (ds1 : list Diagnostic)
               (R : Expr) (Sq : list (option Expr)) (MinPrecedence : N),
          castFreeSequence SF Sq = true ->
          isa_ExplicitCastExpr op1 = false ->
          getInfixData SF op1 = Ok info1 ds1 ->
          (MinPrecedence <= getPrecedence info1)%N ->
          List.length Sq + 1 < fuel ->
          foldsTo (foldLoop fuel SF (Some L) (Some (op1, info1)) (Some R)
                     Sq MinPrecedence)
            (fun _ Sq' => restOf SF Sq MinPrecedence Sq')).
Proof.
  induction fuel as [|fuel [IHseq IHloop]].
  { split; intros; lia. }
  split.
  - intros L Sq Min Hcf Hne Hfuel.
    destruct (castFreeSequence_inv SF Sq Hcf)
      as [-> | (op & e & rest & info & ds & -> & Hnc & Hop & Hr)];
      [congruence|].
    rewrite foldSequence_S. cbn [isEmpty negb].
    rewrite (castFreeSequence_even SF _ _ (le_n _) Hcf).
    rewrite !assertM_true, !bind_ret.
    apply (foldsTo_Ok_bind _ _ _ _ _
             (getNextOperator_cons _ _ _ _ _ _ Hop)).
    destruct (N.ltb (getPrecedence info) Min) eqn:Hlt.
    + apply N.ltb_lt in Hlt. apply foldsTo_ret. repeat split.
      * assumption.
      * lia.
      * intros ->. lia.
      * intros op' info' ds' tl [= <- <-] Hop' Hle.
        rewrite Hop in Hop'. injection Hop' as <- <-. lia.
    + apply N.ltb_ge in Hlt. unfold at_. cbn [nth_error slice skipn].
      rewrite bind_ret.
      simpl in Hfuel.
      apply (foldsTo_weaken _ _ _
               (IHloop L op info ds e rest Min Hr Hnc Hop Hlt
                  ltac:(lia))).
      intros r Sq' (Hcf' & Hlen & Hz). solve_rest.
  - intros L op1 info1 ds1 R Sq Min Hcf Hnc1 Hop1 Hmin Hfuel.
    pose proof (makeBinOp_operator SF op1 L R info1 ds1 Hop1 Hnc1) as Hmk.
    destruct (castFreeSequence_inv SF Sq Hcf)
      as [-> | (op2 & e2 & rest & info2 & ds2 & -> & Hnc2 & Hop2 & Hr)].
    + rewrite foldLoop_S_empty. cbn [Op_op].
      rewrite Hmk, bind_Ok_nil. apply foldsTo_ret. solve_rest.
    + rewrite foldLoop_S_operator;
        [| exact (castFreeSequence_even SF _ _ (le_n _) Hcf)
         | assumption | assumption].
      apply (foldsTo_Ok_bind _ _ _ _ _ Hop2).
      simpl in Hfuel.
      destruct (N.ltb (getPrecedence info2) Min) eqn:Hlt2.
      { apply N.ltb_lt in Hlt2. rewrite Hmk, bind_Ok_nil.
        apply foldsTo_ret. solve_rest. }
      apply N.ltb_ge in Hlt2.
      assert (Hnext : getNextOperator SF (Some op2 :: Some e2 :: rest) Min
                      = Ok (Some (op2, info2)) ds2).
      { rewrite (getNextOperator_cons _ _ _ _ _ _ Hop2).
        replace (getPrecedence info2 <? Min)%N with false
          by (symmetry; apply N.ltb_ge; lia).
        reflexivity. }
      destruct ((getPrecedence info2 <? getPrecedence info1)%N
                || (InfixData_eqb info1 info2 && isLeftAssociative info1))
        eqn:Hc1.
      { rewrite Hmk, bind_Ok_nil.
        apply (foldsTo_Ok_bind _ _ _ _ _ Hnext).
        cbn [isPresent]. rewrite assertM_true, bind_ret.
        unfold at_. cbn [nth_error slice skipn]. rewrite bind_ret.
        apply (foldsTo_weaken _ _ _
                 (IHloop (foldedNode op1 L R) op2 info2 ds2 e2 rest Min
                    Hr Hnc2 Hop2 Hlt2 ltac:(lia))).
        intros r Sq' (Hcf' & Hlen & Hz). solve_rest. }
      destruct (N.ltb (getPrecedence info1) (getPrecedence info2)) eqn:Hc2.
      { apply N.ltb_lt in Hc2.
        refine (foldsTo_bind _ _ _ _
                  (IHseq R _ (getPrecedence info1 + 1)%N Hcf
                     ltac:(discriminate) ltac:(simpl; lia)) _).
        intros r Sq' ((Hcf' & Hlen & _) & Hcons).
        specialize (Hcons op2 info2 ds2 _ eq_refl Hop2 ltac:(lia)).
        simpl in Hcons, Hlen.
        apply (foldsTo_weaken _ _ _
                 (IHloop L op1 info1 ds1 r Sq' Min Hcf' Hnc1 Hop1 Hmin
                    ltac:(lia))).
        intros r' Sq'' (Hcf'' & Hlen'' & Hz). solve_rest. }
      destruct (InfixData_eqb info1 info2 && isRightAssociative info1)
        eqn:Hc3.
      { apply N.ltb_ge in Hc2.
        assert (Hpe : getPrecedence info1 = getPrecedence info2).
        { apply andb_true_iff in Hc3. destruct Hc3 as [Hc3 _].
          unfold InfixData_eqb in Hc3. apply andb_true_iff in Hc3.
          destruct Hc3 as [Hc3 _]. now apply N.eqb_eq in Hc3. }
        refine (foldsTo_bind _ _ _ _
                  (IHseq R _ (getPrecedence info1) Hcf
                     ltac:(discriminate) ltac:(simpl; lia)) _).
        intros r Sq' ((Hcf' & Hlen & _) & Hcons).
        specialize (Hcons op2 info2 ds2 _ eq_refl Hop2 ltac:(lia)).
        simpl in Hcons, Hlen.
        rewrite (makeBinOp_operator SF op1 L r info1 ds1 Hop1 Hnc1),
          bind_Ok_nil.
        destruct (isEmpty Sq') eqn:Hemp.
        - apply foldsTo_ret. destruct Sq'; [|discriminate]. solve_rest.
        - apply (foldsTo_weaken _ _ _
                   (IHseq (foldedNode op1 L r) Sq' Min Hcf'
                      ltac:(intros ->; discriminate) ltac:(lia))).
          intros r' Sq'' ((Hcf'' & Hlen'' & Hz) & _). solve_rest. }
      apply N.ltb_ge in Hc2.
      destruct (conflict_assertions _ _ Hc1
                  ltac:(apply N.ltb_ge; exact Hc2) Hc3) as [Ha1 Ha2].
      rewrite Ha1, Ha2, !assertM_true, !bind_ret.
      assert (Hd : exists d,
                 (if isNonAssociative info1
                  then diagnose (getLoc op1) diag.non_assoc_adjacent
                  else if isNonAssociative info2
                       then diagnose (getLoc op2) diag.non_assoc_adjacent
                       else diagnose (getLoc op1) diag.incompatible_assoc)
                 = Ok tt [d]).
      { destruct (isNonAssociative info1);
          [|destruct (isNonAssociative info2)]; eexists; reflexivity. }
      destruct Hd as [d Hd].
      apply (foldsTo_Ok_bind _ _ _ _ _ Hd).
      rewrite Hmk, bind_Ok_nil.
      apply (foldsTo_weaken _ _ _
               (IHseq (foldedNode op1 L R) _ Min Hcf
                  ltac:(discriminate) ltac:(simpl; lia))).
      intros r' Sq'' ((Hcf'' & Hlen'' & Hz) & _). solve_rest.
Qed.

(** ** The fold terminates *)

Lemma safe_bind {A B} (m : Outcome A) (k : A -> Outcome B)
  (P : A -> Prop) (Q : B -> Prop) :
  safe m P -> (forall a, P a -> safe (k a) Q) -> safe (bind m k) Q.
Proof.
  destruct m as [a ds | f |]; simpl; intros Hm Hk; try easy.
  specialize (Hk a Hm). destruct (k a); simpl in *; easy.
Qed.

Lemma safe_weaken {A} (m : Outcome A) (P Q : A -> Prop) :
  safe m P -> (forall a, P a -> Q a) -> safe m Q.
Proof. destruct m; simpl; auto. Qed.

Lemma safe_self {A} (m : Outcome A) :
  m <> OutOfFuel -> safe m (fun a => exists ds, m = Ok a ds).
Proof. destruct m; simpl; [eauto | easy | congruence]. Qed.

Lemma safe_assertM (b : bool) : safe (assertM b) (fun _ => b = true).
Proof. destruct b; simpl; auto. Qed.

Lemma safe_at {A} (Sq : list A) (i : nat) :
  safe (at_ Sq i) (fun a => nth_error Sq i = Some a).
Proof. unfold at_. destruct (nth_error Sq i); simpl; auto. Qed.

Lemma safe_deref {A} (p : option A) : safe (deref p) (fun a => p = Some a).
Proof. destruct p; simpl; auto. Qed.

Lemma getInfixData_terminates (SF : SourceFile) (E : Expr) :
  getInfixData SF E <> OutOfFuel.
Proof.
  destruct E; cbn [getInfixData]; try discriminate;
    try (destruct (isFolded _); discriminate).
  - destruct (lookupInfixOperator _ _ _); discriminate.
  - destruct Names as [|n ns]; [discriminate|]. unfold at_; simpl.
    destruct (lookupInfixOperator _ _ _); discriminate.
Qed.

Lemma makeBinOp_terminates (o l r : option Expr) :
  makeBinOp o l r <> OutOfFuel.
Proof.
  unfold makeBinOp. destruct l as [L|], r as [R|]; try discriminate.
  destruct o as [op|]; [|discriminate]. rewrite deref_Some, bind_ret.
  destruct op; try discriminate;
    destruct (isFolded _); try discriminate; cbn [negb];
    rewrite assertM_true, bind_ret; try discriminate.
  destruct (Expr_eqb _ _); [|discriminate].
  rewrite assertM_true, bind_ret.
  destruct (SourceLoc_isValid _); discriminate.
Qed.

Lemma safe_getNextOperator (SF : SourceFile) (Sq : list (option Expr))
  (MinPrecedence : N) :
  safe (getNextOperator SF Sq MinPrecedence)
    (fun Op1 =>
       exists op info ds tl,
         Sq = Some op :: tl
         /\ getInfixData SF op = Ok info ds
         /\ ((getPrecedence info < MinPrecedence)%N /\ Op1 = None
             \/ (MinPrecedence <= getPrecedence info)%N
                /\ Op1 = Some (op, info))).
Proof.
  destruct Sq as [|[op|] tl]; try exact I.
  pose proof (getInfixData_terminates SF op) as Ht.
  destruct (getInfixData SF op) as [info ds | f |] eqn:Hop;
    [| unfold getNextOperator, at_; simpl; rewrite Hop; exact I
     | congruence].
  rewrite (getNextOperator_cons _ _ _ _ _ _ Hop). simpl.
  exists op, info, ds, tl. split; [reflexivity|]. split; [exact Hop|].
  destruct (N.ltb (getPrecedence info) MinPrecedence) eqn:E.
  - left. apply N.ltb_lt in E. auto.
  - right. apply N.ltb_ge in E. auto.
Qed.

Lemma nth_error_1_slice {A} (Sq : list A) (a : A) :
  nth_error Sq 1 = Some a -> List.length (slice Sq 2) + 2 = List.length Sq.
Proof. destruct Sq as [|x [|y Sq]]; simpl; try discriminate. lia. Qed.

Lemma foldSequence_enough_fuel (SF : SourceFile) :
  forall fuel : nat,
    (forall (LHS : option Expr) (Sq : list (option Expr))
            (MinPrecedence : N),
        List.length Sq < fuel ->
        safe (foldSequence fuel SF LHS Sq MinPrecedence)
          (consumes SF Sq MinPrecedence))
    /\ (forall (LHS : option Expr) (Op1 : Op) (RHS : option Expr)
               (Sq : list (option Expr)) (MinPrecedence : N),
          List.length Sq + 1 < fuel ->
          safe (foldLoop fuel SF LHS Op1 RHS Sq MinPrecedence)
            (fun res => List.length (snd res) <= List.length Sq)).
Proof.
  induction fuel as [|fuel [IHseq IHloop]].
  { split; intros; lia. }
  split.
  - intros LHS Sq Min Hfuel. rewrite foldSequence_S.
    apply (safe_bind _ _ _ _ (safe_assertM _)). intros _ _.
    apply (safe_bind _ _ _ _ (safe_assertM _)). intros _ _.
    apply (safe_bind _ _ _ _ (safe_getNextOperator SF Sq Min)).
    intros Op1 (op & info & ds & tl & -> & Hop & [[Hlt ->] | [Hge ->]]).
    + unfold ret, safe, consumes. cbn [snd]. split; [lia|].
      intros op' info' ds' tl' [= <- <-] Hop' Hle.
      rewrite Hop in Hop'. injection Hop' as <- <-. lia.
    + apply (safe_bind _ _ _ _ (safe_at _ 1)). intros RHS HR.
      apply nth_error_1_slice in HR.
      apply (safe_weaken _ _ _
               (IHloop LHS (Some (op, info)) RHS (slice (Some op :: tl) 2)
                  Min ltac:(lia))).
      intros res Hres. unfold consumes. split; [lia | intros; lia].
  - intros LHS Op1 RHS Sq Min Hfuel. cbn [foldLoop].
    destruct (isEmpty Sq) eqn:Hemp.
    { apply (safe_bind _ _ _ _ (safe_self _ (makeBinOp_terminates _ _ _))).
      intros r _. simpl. lia. }
    apply (safe_bind _ _ _ _ (safe_assertM _)). intros _ _.
    apply (safe_bind _ _ _ _ (safe_assertM _)). intros _ _.
    apply (safe_bind _ _ _ _ (safe_deref _)). intros [op1 info1] ->.
    destruct (isa_ExplicitCastExpr op1).
    { apply (safe_bind _ _ _ _ (safe_self _ (makeBinOp_terminates _ _ _))).
      intros LHS' _.
      apply (safe_bind _ _ _ _ (safe_getNextOperator SF Sq Min)).
      intros Op1' _.
      apply (safe_bind _ _ _ _ (safe_at _ 1)). intros RHS' HR.
      apply nth_error_1_slice in HR.
      apply (safe_weaken _ _ _
               (IHloop LHS' Op1' RHS' (slice Sq 2) Min ltac:(lia))).
      intros res Hres. lia. }
    apply (safe_bind _ _ _ _ (safe_at _ 0)). intros p2 Hp2.
    apply (safe_bind _ _ _ _ (safe_deref _)). intros Op2 ->.
    destruct Sq as [|p Sq]; [discriminate|]. simpl in Hp2.
    injection Hp2 as ->.
    apply (safe_bind _ _ _ _
             (safe_self _ (getInfixData_terminates SF Op2))).
    intros info2 [ds2 Hop2]. cbn [List.length] in Hfuel.
    destruct (N.ltb (getPrecedence info2) Min) eqn:Hlt2.
    { apply (safe_bind _ _ _ _ (safe_self _ (makeBinOp_terminates _ _ _))).
      intros r _. simpl. lia. }
    apply N.ltb_ge in Hlt2.
    destruct (_ || _).
    { apply (safe_bind _ _ _ _ (safe_self _ (makeBinOp_terminates _ _ _))).
      intros LHS' _.
      apply (safe_bind _ _ _ _ (safe_getNextOperator SF _ Min)).
      intros Op1' _.
      apply (safe_bind _ _ _ _ (safe_assertM _)). intros _ _.
      apply (safe_bind _ _ _ _ (safe_at _ 1)). intros RHS' HR.
      apply nth_error_1_slice in HR. cbn [List.length] in HR.
      apply (safe_weaken _ _ _
               (IHloop LHS' Op1' RHS' (slice (Some Op2 :: Sq) 2) Min
                  ltac:(lia))).
      intros res Hres. cbn [List.length]. lia. }
    destruct (N.ltb (getPrecedence info1) (getPrecedence info2)) eqn:Hc2.
    { apply N.ltb_lt in Hc2.
      apply (safe_bind _ _ _ _
               (IHseq RHS (Some Op2 :: Sq) (getPrecedence info1 + 1)%N
                  ltac:(simpl; lia))).
      intros [RHS' Sq'] [Hlen Hcons].
      specialize (Hcons Op2 info2 ds2 Sq eq_refl Hop2 ltac:(lia)).
      cbn [snd List.length] in *.
      apply (safe_weaken _ _ _
               (IHloop LHS (Some (op1, info1)) RHS' Sq' Min ltac:(lia))).
      intros res Hres. lia. }
    apply N.ltb_ge in Hc2.
    destruct (InfixData_eqb info1 info2 && isRightAssociative info1).
    { apply (safe_bind _ _ _ _
               (IHseq RHS (Some Op2 :: Sq) (getPrecedence info1)
                  ltac:(simpl; lia))).
      intros [RHS' Sq'] [Hlen _]. cbn [snd List.length] in *.
      apply (safe_bind _ _ _ _ (safe_self _ (makeBinOp_terminates _ _ _))).
      intros LHS' _.
      destruct (isEmpty Sq'); [simpl; lia|].
      apply (safe_weaken _ _ _ (IHseq LHS' Sq' Min ltac:(lia))).
      intros res [Hres _]. cbn [List.length]. lia. }
    apply (safe_bind _ _ _ _ (safe_assertM _)). intros _ _.
    apply (safe_bind _ _ _ _ (safe_assertM _)). intros _ _.
    apply (safe_bind _ _ (fun _ => True) _).
    { destruct (isNonAssociative info1);
        [|destruct (isNonAssociative info2)]; exact I. }
    intros _ _.
    apply (safe_bind _ _ _ _ (safe_self _ (makeBinOp_terminates _ _ _))).
    intros LHS' _.
    apply (safe_weaken _ _ _
             (IHseq LHS' (Some Op2 :: Sq) Min ltac:(simpl; lia))).
    intros res [Hres _]. exact Hres.
Qed.


(** ** The diagnostics of a whole fold *)

Lemma succeeds_bind {A B} (m : Outcome A) (k : A -> Outcome B)
  (Q : A -> list Diagnostic -> Prop) (P : B -> list Diagnostic -> Prop) :
  succeeds m Q ->
  (forall a ds, Q a ds -> succeeds (k a) (fun b ds' => P b (ds ++ ds'))) ->
  succeeds (bind m k) P.
Proof.
  destruct m as [a ds | f |]; simpl; intros Hm Hk; try assumption.
  specialize (Hk a ds Hm). destruct (k a); simpl in *; assumption.
Qed.

Lemma succeeds_Ok_bind {A B} (m : Outcome A) (k : A -> Outcome B) a ds
  (P : B -> list Diagnostic -> Prop) :
  m = Ok a ds ->
  succeeds (k a) (fun b ds' => P b (ds ++ ds')) ->
  succeeds (bind m k) P.
Proof.
  intros -> Hk. simpl. destruct (k a); simpl in *; assumption.
Qed.

Lemma succeeds_weaken {A} (m : Outcome A)
  (P Q : A -> list Diagnostic -> Prop) :
  succeeds m P -> (forall a ds, P a ds -> Q a ds) -> succeeds m Q.
Proof. destruct m; simpl; auto. Qed.

Lemma conflictsOf_app (ds ds' : list Diagnostic) :
  conflictsOf (ds ++ ds') = conflictsOf ds ++ conflictsOf ds'.
Proof. apply filter_app. Qed.

(** Looking at an operator emits no diagnostic about two operators. *)
Lemma conflictsOf_getInfixData (SF : SourceFile) (op : Expr)
  (info : InfixData) (ds : list Diagnostic) :
  getInfixData SF op = Ok info ds -> conflictsOf ds = [].
Proof.
  destruct op; cbn [getInfixData]; unfold unknownBinOp, diagnose;
    try (destruct (isFolded _); simpl; intros [= <- <-]; reflexivity);
    try (simpl; intros [= <- <-]; reflexivity).
  - destruct (lookupInfixOperator _ _ _); simpl; intros [= <- <-];
      reflexivity.
  - destruct Names as [|n ns]; [discriminate|]. unfold at_; simpl.
    destruct (lookupInfixOperator _ _ _); simpl; intros [= <- <-];
      reflexivity.
Qed.

Lemma conflictsOf_conflictDiagnostic (op1 op2 : Expr)
  (info1 info2 : InfixData) :
  conflictsOf [conflictDiagnostic op1 info1 op2 info2]
  = [conflictDiagnostic op1 info1 op2 info2].
Proof.
  unfold conflictDiagnostic.
  destruct (isNonAssociative info1); [|destruct (isNonAssociative info2)];
    reflexivity.
Qed.

Lemma neighbour_skip (xs ys : list (Expr * InfixData)) (p : N) :
  Forall (fun x => (p < getPrecedence (snd x))%N) xs ->
  neighbour (xs ++ ys) p = neighbour ys p.
Proof.
  induction 1 as [|[o i] xs Hx _ IH]; [reflexivity|]. simpl in *.
  replace (getPrecedence i <=? p)%N with false
    by (symmetry; apply N.leb_gt; assumption).
  exact IH.
Qed.

Lemma conflictOf_skip (xs ys : list (Expr * InfixData)) (op : Expr)
  (info : InfixData) :
  Forall (fun x => (getPrecedence info < getPrecedence (snd x))%N) xs ->
  conflictOf (xs ++ ys) op info = conflictOf ys op info.
Proof. intros H. unfold conflictOf. now rewrite neighbour_skip. Qed.

(** An operator that binds less tightly, or a cast that binds no tighter,
    next to the left: no diagnostic. *)
Lemma conflictOf_lower (before : list (Expr * InfixData)) (op1 op : Expr)
  (info1 info : InfixData) :
  (getPrecedence info1 <= getPrecedence info)%N ->
  isa_ExplicitCastExpr op1 = true
  \/ conflicting info1 info = false ->
  conflictOf ((op1, info1) :: before) op info = [].
Proof.
  intros Hle H. unfold conflictOf. cbn [neighbour].
  replace (getPrecedence info1 <=? getPrecedence info)%N with true
    by (symmetry; apply N.leb_le; assumption).
  destruct H as [-> | ->]; [reflexivity | now rewrite andb_false_r].
Qed.

Lemma conflicting_differ (info1 info2 : InfixData) :
  getPrecedence info1 <> getPrecedence info2 ->
  conflicting info1 info2 = false.
Proof.
  intros H. unfold conflicting.
  replace (getPrecedence info1 =? getPrecedence info2)%N with false
    by (symmetry; now apply N.eqb_neq).
  reflexivity.
Qed.

(** The operator next to the left conflicts: its diagnostic. *)
Lemma conflictOf_conflict (before : list (Expr * InfixData))
  (op1 op : Expr) (info1 info : InfixData) :
  isa_ExplicitCastExpr op1 = false ->
  conflicting info1 info = true ->
  conflictOf ((op1, info1) :: before) op info
  = [conflictDiagnostic op1 info1 op info].
Proof.
  intros Hnc Hc. unfold conflictOf. cbn [neighbour].
  assert (He : getPrecedence info1 = getPrecedence info).
  { unfold conflicting in Hc. apply andb_true_iff in Hc.
    now apply N.eqb_eq. }
  rewrite He, N.leb_refl, Hnc, Hc. reflexivity.
Qed.

Lemma clearBetween_nil (lo hi : N) : clearBetween [] lo hi.
Proof. intros op info _ _. reflexivity. Qed.

Lemma clearBetween_empty (before : list (Expr * InfixData)) (lo hi : N) :
  (hi <= lo)%N -> clearBetween before lo hi.
Proof. intros H op info H1 H2. lia. Qed.

(** After the operator [op1] and the operators [inner] folded into its
    right-hand side. *)
Lemma clearBetween_push (before inner : list (Expr * InfixData))
  (op1 : Expr) (info1 : InfixData) (lo hi : N) :
  clearBetween before lo (getPrecedence info1) ->
  Forall (fun x => (getPrecedence info1 <= getPrecedence (snd x))%N) inner ->
  (hi <= getPrecedence info1)%N ->
  clearBetween (inner ++ (op1, info1) :: before) lo hi.
Proof.
  intros Hc Hin Hhi op info H1 H2.
  rewrite conflictOf_skip.
  - change ((op1, info1) :: before) with ([(op1, info1)] ++ before).
    rewrite conflictOf_skip; [apply Hc; lia|].
    repeat constructor. simpl. lia.
  - eapply Forall_impl; [|exact Hin]. simpl. intros x Hx. lia.
Qed.

(** In the fold of the right-hand side of [op1]. *)
Lemma clearBetween_above (before : list (Expr * InfixData))
  (op1 : Expr) (info1 : InfixData) (hi : N) :
  clearBetween ((op1, info1) :: before) (getPrecedence info1 + 1) hi.
Proof.
  intros op info H1 H2. apply conflictOf_lower; [lia|]. right.
  apply conflicting_differ. lia.
Qed.

(** After a cast. *)
Lemma clearBetween_cast (before : list (Expr * InfixData))
  (c : Expr) (info1 : InfixData) (lo hi : N) :
  isa_ExplicitCastExpr c = true ->
  clearBetween before lo (getPrecedence info1) ->
  clearBetween ((c, info1) :: before) lo hi.
Proof.
  intros Hc Hb op info H1 H2.
  destruct (N.leb (getPrecedence info1) (getPrecedence info)) eqn:E.
  - apply N.leb_le in E. apply conflictOf_lower; auto.
  - apply N.leb_gt in E.
    change ((c, info1) :: before) with ([(c, info1)] ++ before).
    rewrite conflictOf_skip; [now apply Hb|].
    repeat constructor. exact E.
Qed.

Lemma atOrAbove_mono (SF : SourceFile) (m m' : N)
  (Sq : list (option Expr)) :
  (m' <= m)%N -> atOrAbove SF m Sq = true -> atOrAbove SF m' Sq = true.
Proof.
  intros Hle. destruct Sq as [|[op|] Sq]; auto. simpl.
  destruct (getInfixData SF op); auto.
  rewrite !N.leb_le. lia.
Qed.

Lemma raisedFloor_mono (m m' : N) (op : Expr) (info : InfixData) :
  (m' <= m)%N -> (raisedFloor m' op info <= raisedFloor m op info)%N.
Proof.
  intros H. unfold raisedFloor.
  destruct (isa_ExplicitCastExpr op); [assumption|].
  destruct (N.leb _ 95); lia.
Qed.

Lemma castsAboveFloor_mono (SF : SourceFile) :
  forall (n : nat) (Sq : list (option Expr)) (m m' : N),
    List.length Sq <= n ->
    (m' <= m)%N ->
    castsAboveFloor SF m Sq = true -> castsAboveFloor SF m' Sq = true.
Proof.
  induction n as [|n IH]; intros Sq m m' Hn Hle H.
  - destruct Sq; [reflexivity | simpl in Hn; lia].
  - destruct Sq as [|[op|] [|e rest]]; try reflexivity.
    cbn [castsAboveFloor] in *.
    destruct (getInfixData SF op) as [info ds | |]; try discriminate.
    apply andb_true_iff in H. destruct H as [H1 H2].
    apply andb_true_iff. split.
    + apply orb_true_iff in H1. apply orb_true_iff.
      destruct H1 as [H1 | H1]; [now left | right].
      now apply (atOrAbove_mono SF m).
    + apply (IH rest (raisedFloor m op info));
        [simpl in Hn; lia | now apply raisedFloor_mono | assumption].
Qed.

Lemma foldableSequence_inv (SF : SourceFile) (Sq : list (option Expr)) :
  foldableSequence SF Sq = true ->
  Sq = []
  \/ exists op e rest info ds,
       Sq = Some op :: Some e :: rest
       /\ getInfixData SF op = Ok info ds
       /\ castOperandOk op e = true
       /\ foldableSequence SF rest = true.
Proof.
  destruct Sq as [|[op|] [|[e|] rest]]; simpl; try discriminate; auto.
  intros H. right. apply andb_true_iff in H. destruct H as [H Hr].
  apply andb_true_iff in H. destruct H as [Hi Hc].
  destruct (getInfixData SF op) as [info ds | |] eqn:E; try discriminate.
  exists op, e, rest, info, ds. auto.
Qed.

Lemma foldableSequence_even (SF : SourceFile) :
  forall (n : nat) (Sq : list (option Expr)),
    List.length Sq <= n ->
    foldableSequence SF Sq = true -> sizeIsEven Sq = true.
Proof.
  induction n as [|n IH]; intros Sq Hn H;
    destruct (foldableSequence_inv SF Sq H)
      as [-> | (op & e & rest & info & ds & -> & _ & _ & Hr)];
    try reflexivity; simpl in Hn; [lia|].
  rewrite sizeIsEven_cons2. apply IH; [lia | assumption].
Qed.

Lemma castsAboveFloor_cons (SF : SourceFile) (m : N) (op : Expr)
  (e : option Expr) (rest : list (option Expr)) (info : InfixData)
  (ds : list Diagnostic) :
  getInfixData SF op = Ok info ds ->
  castsAboveFloor SF m (Some op :: e :: rest)
  = (negb (isa_ExplicitCastExpr op) || atOrAbove SF m rest)
    && castsAboveFloor SF (raisedFloor m op info) rest.
Proof. intros H. cbn [castsAboveFloor]. now rewrite H. Qed.

Lemma expectedConflicts_cons (SF : SourceFile)
  (before : list (Expr * InfixData)) (op : Expr) (e : option Expr)
  (rest : list (option Expr)) (info : InfixData) (ds : list Diagnostic) :
  getInfixData SF op = Ok info ds ->
  expectedConflicts SF before (Some op :: e :: rest)
  = conflictOf before op info
    ++ expectedConflicts SF ((op, info) :: before) rest.
Proof. intros H. cbn [expectedConflicts]. now rewrite H. Qed.

(** A fold accounted for from a later point is accounted for from an
    earlier one, once the diagnostics between the two are. *)
Lemma accountedFrom_later (SF : SourceFile)
  (before mid before2 ctx ctx2 : list (Expr * InfixData))
  (Sq Sq2 : list (option Expr)) (MinPrecedence lo : N)
  (res : option Expr * list (option Expr)) (ds0 ds : list Diagnostic) :
  accountedFrom SF before2 ctx2 Sq2 MinPrecedence lo res ds ->
  before2 = mid ++ before ->
  Forall (fun x => (MinPrecedence <= getPrecedence (snd x))%N) mid ->
  conflictsOf ds0 ++ expectedConflicts SF ctx2 Sq2
  = expectedConflicts SF ctx Sq ->
  accountedFrom SF before ctx Sq MinPrecedence lo res (ds0 ++ ds).
Proof.
  intros (r & Sq' & inner & -> & Hf & Hc & Hb & Hin & He) -> Hmid Heq.
  exists r, Sq', (inner ++ mid). repeat split; try assumption.
  - apply Forall_app. auto.
  - rewrite conflictsOf_app, <- app_assoc, <- (app_assoc inner mid before).
    now rewrite He.
Qed.

Lemma getInfixData_cast_info (SF : SourceFile) (c : Expr)
  (info : InfixData) (ds : list Diagnostic) :
  getInfixData SF c = Ok info ds -> isa_ExplicitCastExpr c = true ->
  getPrecedence info = 95%N.
Proof.
  intros H Hc. destruct (getInfixData_cast _ _ _ _ H Hc) as [-> _].
  reflexivity.
Qed.

Lemma raisedFloor_bounds (m lo Min : N) (op1 : Expr) (info1 : InfixData) :
  (Min <= m \/ 95 < Min)%N -> (lo <= m)%N -> (lo <= Min \/ 95 < Min)%N ->
  (Min <= getPrecedence info1)%N ->
  ((Min <= raisedFloor m op1 info1 \/ 95 < Min)
   /\ lo <= raisedFloor m op1 info1)%N.
Proof.
  intros Hm Hlo Hlo' Hmin. unfold raisedFloor.
  destruct (isa_ExplicitCastExpr op1); [auto|].
  destruct (N.leb (getPrecedence info1) 95) eqn:E; [|auto].
  apply N.leb_le in E. lia.
Qed.

(** The operator [op1] is folded before [op2] is looked at further: no
    diagnostic is due for [op2]. *)
Lemma conflictOf_folded_first (before inner : list (Expr * InfixData))
  (op1 op2 : Expr) (info1 info2 : InfixData) (Min : N) :
  clearBetween before Min (getPrecedence info1) ->
  Forall (fun x => (getPrecedence info1 < getPrecedence (snd x))%N) inner ->
  (Min <= getPrecedence info2)%N ->
  (getPrecedence info2 <? getPrecedence info1)%N
  || (InfixData_eqb info1 info2
      && (isLeftAssociative info1 || isRightAssociative info1)) = true ->
  (getPrecedence info2 <= getPrecedence info1)%N
  /\ conflictOf (inner ++ (op1, info1) :: before) op2 info2 = [].
Proof.
  intros Hcl Hin Hmin H. apply orb_true_iff in H.
  assert (Hle : (getPrecedence info2 <= getPrecedence info1)%N).
  { destruct H as [H | H]; [apply N.ltb_lt in H; lia|].
    apply andb_true_iff in H. destruct H as [H _].
    unfold InfixData_eqb in H. apply andb_true_iff in H.
    destruct H as [H _]. apply N.eqb_eq in H. lia. }
  split; [assumption|].
  rewrite conflictOf_skip
    by (eapply Forall_impl; [|exact Hin]; simpl; intros; lia).
  destruct H as [H | H].
  - apply N.ltb_lt in H.
    change ((op1, info1) :: before) with ([(op1, info1)] ++ before).
    rewrite conflictOf_skip by (repeat constructor; exact H).
    now apply Hcl.
  - apply andb_true_iff in H. destruct H as [He Ha].
    unfold InfixData_eqb in He. apply andb_true_iff in He.
    destruct He as [Hp Hs]. apply N.eqb_eq in Hp.
    apply conflictOf_lower; [lia|]. right. unfold conflicting.
    unfold isLeftAssociative, isRightAssociative, isNonAssociative in *.
    destruct (getAssociativity info1), (getAssociativity info2);
      simpl in *; try discriminate; apply andb_false_r.
Qed.

Lemma foldSequence_accounts (SF : SourceFile) :
  forall fuel : nat,
    (forall (L f e : Expr) (rest : list (option Expr)) (info : InfixData)
            (dsf : list Diagnostic) (Min m lo : N)
            (before : list (Expr * InfixData)),
        getInfixData SF f = Ok info dsf ->
        castOperandOk f e = true ->
        foldableSequence SF rest = true ->
        castsAboveFloor SF m (Some f :: Some e :: rest) = true ->
        (Min <= m \/ 95 < Min)%N -> (lo <= m)%N ->
        (lo <= Min \/ 95 < Min)%N ->
        clearBetween before Min (getPrecedence info) ->
        succeeds (foldSequence fuel SF (Some L) (Some f :: Some e :: rest)
                    Min)
          (fun res ds =>
             if N.ltb (getPrecedence info) Min
             then res = (Some L, Some f :: Some e :: rest)
                  /\ conflictsOf ds = []
             else accountedFrom SF before ((f, info) :: before) rest Min lo
                    res ds))
    /\ (forall (L op1 R : Expr) (info1 : InfixData) (ds1 : list Diagnostic)
               (Sq : list (option Expr)) (Min m lo : N)
               (before inner : list (Expr * InfixData)),
          getInfixData SF op1 = Ok info1 ds1 ->
          castOperandOk op1 R = true ->
          foldableSequence SF Sq = true ->
          castsAboveFloor SF m (Some op1 :: Some R :: Sq) = true ->
          (Min <= m \/ 95 < Min)%N -> (lo <= m)%N ->
          (lo <= Min \/ 95 < Min)%N ->
          (Min <= getPrecedence info1)%N ->
          clearBetween before Min (getPrecedence info1) ->
          Forall (fun x => (getPrecedence info1 < getPrecedence (snd x))%N)
            inner ->
          inner = []
          \/ (isa_ExplicitCastExpr op1 = false
              /\ belowFloor SF (getPrecedence info1 + 1) Sq) ->
          succeeds (foldLoop fuel SF (Some L) (Some (op1, info1)) (Some R)
                      Sq Min)
            (accountedFrom SF before (inner ++ (op1, info1) :: before) Sq
               Min lo)).
Proof.
  induction fuel as [|fuel [IHseq IHloop]].
  { split; intros; exact I. }
  split.
  - intros L f e rest info dsf Min m lo before Hop Hco Hfo Hca Hm Hlo Hlo'
      Hcl.
    rewrite foldSequence_S. cbn [isEmpty negb].
    rewrite sizeIsEven_cons2, (foldableSequence_even SF _ _ (le_n _) Hfo).
    rewrite !assertM_true, !bind_ret.
    apply (succeeds_Ok_bind _ _ _ _ _
             (getNextOperator_cons _ _ _ _ _ _ Hop)).
    destruct (N.ltb (getPrecedence info) Min) eqn:Hlt.
    + simpl. split; [reflexivity|]. rewrite app_nil_r.
      exact (conflictsOf_getInfixData _ _ _ _ Hop).
    + apply N.ltb_ge in Hlt. unfold at_. cbn [nth_error slice skipn].
      rewrite bind_ret.
      apply (succeeds_weaken _ _ _
               (IHloop L f e info dsf rest Min m lo before []
                  Hop Hco Hfo Hca Hm Hlo Hlo' Hlt Hcl (Forall_nil _)
                  (or_introl eq_refl))).
      intros res ds H.
      apply (accountedFrom_later SF before [] _ _ _ _ _ Min lo res dsf ds H
               eq_refl (Forall_nil _)).
      now rewrite (conflictsOf_getInfixData _ _ _ _ Hop).
  - intros L op1 R info1 ds1 Sq Min m lo before inner Hop1 Hco1 Hfo Hca Hm
      Hlo Hlo' Hmin Hcl Hin Hinner.
    assert (Hmk : forall X R', castOperandOk op1 R' = true ->
                    makeBinOp (Some op1) (Some X) (Some R')
                    = Ok (Some (foldedNode op1 X R')) []).
    { intros X R' H. apply makeBinOp_foldedNode; [|assumption].
      exact (getInfixData_unfolded _ _ _ _ Hop1). }
    rewrite (castsAboveFloor_cons _ _ _ _ _ _ _ Hop1) in Hca.
    apply andb_true_iff in Hca. destruct Hca as [Hnext Hca1].
    destruct (raisedFloor_bounds m lo Min op1 info1 Hm Hlo Hlo' Hmin)
      as [Hm1 Hlo1].
    assert (Hin' : Forall (fun x => (getPrecedence info1
                                     <= getPrecedence (snd x))%N) inner).
    { eapply Forall_impl; [|exact Hin]. simpl. intros. lia. }
    assert (Hself : Forall (fun x => (Min <= getPrecedence (snd x))%N)
                      (inner ++ [(op1, info1)])).
    { apply Forall_app. split; [|repeat constructor; assumption].
      eapply Forall_impl; [|exact Hin]. simpl. intros. lia. }
    destruct (foldableSequence_inv SF Sq Hfo)
      as [-> | (op2 & e2 & rest & info2 & ds2 & -> & Hop2 & Hco2 & Hfr)].
    + rewrite foldLoop_S_empty. cbn [Op_op].
      rewrite (Hmk L R Hco1), bind_Ok_nil. simpl.
      exists (foldedNode op1 L R), [], (inner ++ [(op1, info1)]).
      repeat split; auto.
    + pose proof (foldableSequence_even SF _ _ (le_n _) Hfo) as Hev.
      destruct (isa_ExplicitCastExpr op1) eqn:Hc1.
      * destruct Hinner as [-> | [? _]]; [|discriminate].
        pose proof (getInfixData_cast_info _ _ _ _ Hop1 Hc1) as H95.
        cbn [negb orb atOrAbove] in Hnext. rewrite Hop2 in Hnext.
        apply N.leb_le in Hnext.
        unfold raisedFloor in Hca1. rewrite Hc1 in Hca1.
        assert (Hq2 : (Min <= getPrecedence info2)%N) by lia.
        rewrite foldLoop_S_cast;
          [| reflexivity | assumption | assumption | assumption].
        rewrite (Hmk L R Hco1), bind_Ok_nil.
        apply (succeeds_Ok_bind _ _ _ _ _
                 (getNextOperator_cons _ _ _ _ _ _ Hop2)).
        replace (getPrecedence info2 <? Min)%N with false
          by (symmetry; apply N.ltb_ge; assumption).
        unfold at_. cbn [nth_error slice skipn]. rewrite bind_ret.
        pose proof (clearBetween_cast before op1 info1 Min
                      (getPrecedence info2 + 1) Hc1 Hcl) as Hcc.
        apply (succeeds_weaken _ _ _
                 (IHloop (foldedNode op1 L R) op2 e2 info2 ds2 rest Min m lo
                    ((op1, info1) :: before) []
                    Hop2 Hco2 Hfr Hca1 Hm Hlo Hlo' Hq2
                    (clearBetween_cast before op1 info1 Min _ Hc1 Hcl)
                    (Forall_nil _) (or_introl eq_refl))).
        intros res ds H.
        apply (accountedFrom_later SF before [(op1, info1)] _ _ _ _ _ Min lo
                 res ds2 ds H eq_refl).
        { repeat constructor. assumption. }
        rewrite (conflictsOf_getInfixData _ _ _ _ Hop2).
        rewrite (expectedConflicts_cons _ _ _ _ _ _ _ Hop2). cbn [app].
        rewrite (Hcc op2 info2 Hq2 ltac:(lia)). reflexivity.
      * cbn [negb orb] in Hnext.
        assert (Hco1' : forall r', castOperandOk op1 r' = true).
        { intros r'. unfold castOperandOk. now rewrite Hc1. }
        rewrite foldLoop_S_operator; [| assumption | assumption | assumption].
        apply (succeeds_Ok_bind _ _ _ _ _ Hop2).
        destruct (N.ltb (getPrecedence info2) Min) eqn:Hlt2.
        { apply N.ltb_lt in Hlt2. rewrite (Hmk L R Hco1), bind_Ok_nil.
          simpl.
          exists (foldedNode op1 L R), (Some op2 :: Some e2 :: rest),
            (inner ++ [(op1, info1)]).
          repeat split; auto.
          - exact (castsAboveFloor_mono SF _ _ _ _ (le_n _) Hlo1 Hca1).
          - exists info2, ds2. auto.
          - rewrite app_nil_r, (conflictsOf_getInfixData _ _ _ _ Hop2).
            now rewrite <- app_assoc. }
        apply N.ltb_ge in Hlt2.
        assert (Hnext2 : getNextOperator SF (Some op2 :: Some e2 :: rest) Min
                         = Ok (Some (op2, info2)) ds2).
        { rewrite (getNextOperator_cons _ _ _ _ _ _ Hop2).
          replace (getPrecedence info2 <? Min)%N with false
            by (symmetry; apply N.ltb_ge; lia).
          reflexivity. }
        destruct ((getPrecedence info2 <? getPrecedence info1)%N
                  || (InfixData_eqb info1 info2
                      && isLeftAssociative info1)) eqn:Hf.
        { destruct (conflictOf_folded_first before inner op1 op2 info1 info2
                      Min Hcl Hin Hlt2) as [Hq21 Hno].
          { apply orb_true_iff in Hf. apply orb_true_iff.
            destruct Hf as [Hf | Hf]; [now left | right].
            apply andb_true_iff in Hf. destruct Hf as [-> ->]. reflexivity. }
          rewrite (Hmk L R Hco1), bind_Ok_nil.
          apply (succeeds_Ok_bind _ _ _ _ _ Hnext2).
          cbn [isPresent]. rewrite assertM_true, bind_ret.
          unfold at_. cbn [nth_error slice skipn]. rewrite bind_ret.
          apply (succeeds_weaken _ _ _
                   (IHloop (foldedNode op1 L R) op2 e2 info2 ds2 rest Min
                      (raisedFloor m op1 info1) lo
                      (inner ++ (op1, info1) :: before) []
                      Hop2 Hco2 Hfr Hca1 Hm1 Hlo1 Hlo' Hlt2
                      (clearBetween_push before inner op1 info1 Min _
                         Hcl Hin' Hq21)
                      (Forall_nil _) (or_introl eq_refl))).
          intros res ds H. rewrite app_assoc.
          apply (accountedFrom_later SF before (inner ++ [(op1, info1)])
                   _ _ _ _ _ Min lo res (ds2 ++ ds2) ds H);
            [now rewrite <- app_assoc | assumption |].
          rewrite conflictsOf_app, (conflictsOf_getInfixData _ _ _ _ Hop2).
          rewrite (expectedConflicts_cons _ _ _ _ _ _ _ Hop2), Hno.
          reflexivity. }
        destruct (N.ltb (getPrecedence info1) (getPrecedence info2)) eqn:Hc2.
        { apply N.ltb_lt in Hc2.
          assert (inner = []) as ->.
          { destruct Hinner as [-> | [_ (i & d & Hi & Hlt)]]; [reflexivity|].
            rewrite Hop2 in Hi. injection Hi as <- <-. lia. }
          assert (Hch : ((getPrecedence info1 + 1 <= raisedFloor m op1 info1
                          \/ 95 < getPrecedence info1 + 1)
                         /\ (raisedFloor m op1 info1
                             <= getPrecedence info1 + 1
                             \/ 95 < getPrecedence info1 + 1))%N).
          { unfold raisedFloor. rewrite Hc1.
            destruct (N.leb (getPrecedence info1) 95) eqn:E;
              [apply N.leb_le in E | apply N.leb_gt in E]; lia. }
          destruct Hch as [Hch1 Hch2].
          eapply succeeds_bind.
          - exact (IHseq R op2 e2 rest info2 ds2 (getPrecedence info1 + 1)%N
                     (raisedFloor m op1 info1) (raisedFloor m op1 info1)
                     ((op1, info1) :: before)
                     Hop2 Hco2 Hfr Hca1 Hch1 (N.le_refl _) Hch2
                     (clearBetween_above before op1 info1 _)).
          - replace (getPrecedence info2 <? getPrecedence info1 + 1)%N
              with false by (symmetry; apply N.ltb_ge; lia).
            intros [r' Sq'] dsc
              (r'' & Sq'' & innerc & [= -> ->] & Hf' & Hc' & Hb' & Hinc
               & He').
            cbv beta iota.
            assert (Hca' : castsAboveFloor SF m
                             (Some op1 :: Some r'' :: Sq'') = true).
            { rewrite (castsAboveFloor_cons _ _ _ _ _ _ _ Hop1), Hc1.
              exact Hc'. }
            assert (Hinc' : Forall (fun x => (getPrecedence info1
                                              < getPrecedence (snd x))%N)
                              innerc).
            { eapply Forall_impl; [|exact Hinc]. simpl. intros. lia. }
            apply (succeeds_weaken _ _ _
                     (IHloop L op1 r'' info1 ds1 Sq'' Min m lo before innerc
                        Hop1 (Hco1' r'') Hf' Hca' Hm Hlo Hlo' Hmin Hcl Hinc'
                        (or_intror (conj Hc1 Hb')))).
            intros res ds H. rewrite app_assoc.
            apply (accountedFrom_later SF before [] _ _ _ _ _ Min lo res
                     (ds2 ++ dsc) ds H eq_refl (Forall_nil _)).
            rewrite conflictsOf_app, (conflictsOf_getInfixData _ _ _ _ Hop2).
            cbn [app]. rewrite He'.
            rewrite (expectedConflicts_cons _ _ _ _ _ _ _ Hop2).
            rewrite conflictOf_lower; [reflexivity | lia |].
            right. apply conflicting_differ. lia. }
        destruct (InfixData_eqb info1 info2 && isRightAssociative info1)
          eqn:Hc3.
        { destruct (conflictOf_folded_first before inner op1 op2 info1 info2
                      Min Hcl Hin Hlt2) as [Hq21 Hno].
          { apply orb_true_iff. right.
            apply andb_true_iff in Hc3. destruct Hc3 as [-> ->].
            apply orb_true_r. }
          assert (Hq : getPrecedence info2 = getPrecedence info1).
          { apply andb_true_iff in Hc3. destruct Hc3 as [He _].
            unfold InfixData_eqb in He. apply andb_true_iff in He.
            destruct He as [He _]. apply N.eqb_eq in He. lia. }
          set (loc := if N.leb (getPrecedence info1) 95
                      then getPrecedence info1
                      else raisedFloor m op1 info1).
          assert (Hr : ((getPrecedence info1 <= raisedFloor m op1 info1
                         \/ 95 < getPrecedence info1)
                        /\ loc <= raisedFloor m op1 info1
                        /\ (loc <= getPrecedence info1
                            \/ 95 < getPrecedence info1)
                        /\ (Min <= loc \/ 95 < Min)
                        /\ lo <= loc)%N).
          { unfold loc, raisedFloor in *. rewrite Hc1 in *.
            destruct (N.leb (getPrecedence info1) 95) eqn:E;
              [apply N.leb_le in E | apply N.leb_gt in E];
              repeat split; try lia; auto. }
          destruct Hr as (Hr1 & Hr2 & Hr3 & Hr4 & Hr5).
          eapply succeeds_bind.
          - exact (IHseq R op2 e2 rest info2 ds2 (getPrecedence info1)
                     (raisedFloor m op1 info1) loc
                     (inner ++ (op1, info1) :: before)
                     Hop2 Hco2 Hfr Hca1 Hr1 Hr2 Hr3
                     (clearBetween_empty _ (getPrecedence info1)
                        (getPrecedence info2) ltac:(lia))).
          - replace (getPrecedence info2 <? getPrecedence info1)%N
              with false by (symmetry; apply N.ltb_ge; lia).
            intros [r' Sq'] dsc
              (r'' & Sq'' & innerc & [= -> ->] & Hf' & Hc' & Hb' & Hinc
               & He').
            cbv beta iota.
            rewrite (Hmk L r'' (Hco1' r'')), bind_Ok_nil.
            assert (Hall : Forall (fun x => (getPrecedence info1
                                             <= getPrecedence (snd x))%N)
                             (innerc ++ inner)).
            { apply Forall_app. auto. }
            assert (Hmid : Forall (fun x => (Min <= getPrecedence (snd x))%N)
                             (innerc ++ inner ++ [(op1, info1)])).
            { apply Forall_app. split; [|assumption].
              eapply Forall_impl; [|exact Hinc]. simpl. intros. lia. }
            assert (Hexp : conflictsOf (ds2 ++ dsc)
                           ++ expectedConflicts SF
                                (innerc ++ inner ++ (op1, info1) :: before)
                                Sq''
                           = expectedConflicts SF
                               (inner ++ (op1, info1) :: before)
                               (Some op2 :: Some e2 :: rest)).
            { rewrite conflictsOf_app,
                (conflictsOf_getInfixData _ _ _ _ Hop2).
              cbn [app]. rewrite He'.
              rewrite (expectedConflicts_cons _ _ _ _ _ _ _ Hop2), Hno.
              reflexivity. }
            destruct (foldableSequence_inv SF Sq'' Hf')
              as [-> | (g & eg & rest' & infog & dsg & -> & Hopg & Hcog
                        & Hfg)].
            + cbn [isEmpty]. simpl.
              exists (foldedNode op1 L r''), [],
                (innerc ++ inner ++ [(op1, info1)]).
              repeat split; auto.
              rewrite <- Hexp. cbn [expectedConflicts].
              now rewrite !app_nil_r.
            + cbn [isEmpty].
              destruct Hb' as (ig & dg & Hig & Hltg).
              rewrite Hopg in Hig. injection Hig as <- <-.
              pose proof (clearBetween_push before (innerc ++ inner) op1
                            info1 Min (getPrecedence infog + 1) Hcl Hall
                            ltac:(lia)) as Hclg.
              rewrite <- app_assoc in Hclg.
              assert (Hclg' : clearBetween
                                (innerc ++ inner ++ (op1, info1) :: before)
                                Min (getPrecedence infog)).
              { intros o i H1 H2. apply Hclg; lia. }
              assert (Hcag : castsAboveFloor SF loc
                               (Some g :: Some eg :: rest') = true)
                by exact Hc'.
              apply (succeeds_weaken _ _ _
                       (IHseq (foldedNode op1 L r'') g eg rest' infog dsg
                          Min loc lo
                          (innerc ++ inner ++ (op1, info1) :: before)
                          Hopg Hcog Hfg Hcag Hr4 Hr5 Hlo' Hclg')).
              intros res ds H.
              destruct (N.ltb (getPrecedence infog) Min) eqn:Hltg'.
              * destruct H as [-> Hds]. apply N.ltb_lt in Hltg'.
                exists (foldedNode op1 L r''), (Some g :: Some eg :: rest'),
                  (innerc ++ inner ++ [(op1, info1)]).
                repeat split; auto.
                -- exact (castsAboveFloor_mono SF _ _ _ _ (le_n _) Hr5 Hcag).
                -- exists infog, dsg. auto.
                -- rewrite app_assoc, conflictsOf_app, Hds, app_nil_r.
                   rewrite <- Hexp. now rewrite <- !app_assoc.
              * apply N.ltb_ge in Hltg'. rewrite app_assoc.
                apply (accountedFrom_later SF before
                         (innerc ++ inner ++ [(op1, info1)])
                         _ _ _ _ _ Min lo res (ds2 ++ dsc) ds H);
                  [now rewrite <- !app_assoc | assumption |].
                rewrite <- Hexp.
                rewrite (expectedConflicts_cons _ _ _ _ _ _ _ Hopg).
                rewrite (Hclg g infog Hltg' ltac:(lia)). reflexivity. }
        destruct (conflict_assertions _ _ Hf Hc2 Hc3) as [Ha1 Ha2].
        rewrite Ha1, Ha2, !assertM_true, !bind_ret.
        assert (Hd : (if isNonAssociative info1
                      then diagnose (getLoc op1) diag.non_assoc_adjacent
                      else if isNonAssociative info2
                           then diagnose (getLoc op2) diag.non_assoc_adjacent
                           else diagnose (getLoc op1) diag.incompatible_assoc)
                     = Ok tt [conflictDiagnostic op1 info1 op2 info2]).
        { unfold conflictDiagnostic, diagnose.
          destruct (isNonAssociative info1);
            [|destruct (isNonAssociative info2)]; reflexivity. }
        apply (succeeds_Ok_bind _ _ _ _ _ Hd).
        rewrite (Hmk L R Hco1), bind_Ok_nil.
        assert (Hq : getPrecedence info1 = getPrecedence info2)
          by (now apply N.eqb_eq).
        apply (succeeds_weaken _ _ _
                 (IHseq (foldedNode op1 L R) op2 e2 rest info2 ds2 Min
                    (raisedFloor m op1 info1) lo
                    (inner ++ (op1, info1) :: before)
                    Hop2 Hco2 Hfr Hca1 Hm1 Hlo1 Hlo'
                    (clearBetween_push before inner op1 info1 Min
                       (getPrecedence info2) Hcl Hin' ltac:(lia)))).
        replace (getPrecedence info2 <? Min)%N with false
          by (symmetry; apply N.ltb_ge; lia).
        intros res ds H. rewrite app_assoc.
        apply (accountedFrom_later SF before (inner ++ [(op1, info1)])
                 _ _ _ _ _ Min lo res (ds2 ++ [_]) ds H);
          [now rewrite <- app_assoc | assumption |].
        rewrite conflictsOf_app, (conflictsOf_getInfixData _ _ _ _ Hop2).
        cbn [app]. rewrite conflictsOf_conflictDiagnostic.
        rewrite (expectedConflicts_cons _ _ _ _ _ _ _ Hop2).
        rewrite conflictOf_skip
          by (eapply Forall_impl; [|exact Hin]; simpl; intros; lia).
        rewrite conflictOf_conflict; [reflexivity | assumption |].
        unfold conflicting. now rewrite Ha1, Ha2.
Qed.

Lemma belowFloor_0 (SF : SourceFile) (Sq : list (option Expr)) :
  belowFloor SF 0 Sq -> Sq = [].
Proof.
  destruct Sq as [|[op|] Sq]; simpl; [reflexivity | | intros []].
  intros (info & ds & _ & H). lia.
Qed.

(** The fold of a whole sequence whose casts meet no operator below their
    floor returns a tree, and its diagnostics about two operators are the
    ones due. *)
Lemma TypeChecker_foldSequence_accounts (SF : SourceFile) (E0 : Expr)
  (Sq : list (option Expr)) :
  Sq <> [] ->
  foldableSequence SF Sq = true ->
  castsAboveFloor SF 0 Sq = true ->
  exists r ds,
    TypeChecker.foldSequence SF (Some E0 :: Sq) = Ok (Some r) ds
    /\ conflictsOf ds = expectedConflicts SF [] Sq.
Proof.
  intros Hne Hfo Hca.
  destruct (foldableSequence_inv SF Sq Hfo)
    as [-> | (f & e & rest & info & dsf & -> & Hop & Hco & Hfr)];
    [congruence|].
  rewrite TypeChecker_foldSequence_cons
    by exact (foldableSequence_even SF _ _ (le_n _) Hfr).
  pose proof (proj1 (foldSequence_accounts SF (3 + List.length rest))
                E0 f e rest info dsf 0%N 0%N 0%N []
                Hop Hco Hfr Hca (or_introl (N.le_refl _)) (N.le_refl _)
                (or_introl (N.le_refl _)) (clearBetween_nil _ _)) as Hacc.
  pose proof (proj1 (foldSequence_enough_fuel SF (3 + List.length rest))
                (Some E0) (Some f :: Some e :: rest) 0%N
                ltac:(simpl; lia)) as Hsafe.
  rewrite N_ltb_0 in Hacc.
  destruct (foldSequence (3 + List.length rest) SF (Some E0)
              (Some f :: Some e :: rest) 0) as [res ds | |];
    simpl in Hacc, Hsafe; try contradiction.
  destruct Hacc as (r & Sq' & inner & -> & _ & _ & Hb & _ & He).
  apply belowFloor_0 in Hb. subst Sq'.
  exists r, (ds ++ []). split; [reflexivity|].
  rewrite app_nil_r, (expectedConflicts_cons _ _ _ _ _ _ _ Hop).
  cbn [expectedConflicts] in He. rewrite app_nil_r in He.
  rewrite He. reflexivity.
Qed.








(** * Further properties of the sequence folder *)

(** ** Grouping to the left *)

Lemma diagsOf_Ok (SF : SourceFile) (op : Expr) (info : InfixData)
  (ds : list Diagnostic) :
  getInfixData SF op = Ok info ds -> diagsOf SF op = ds.
Proof. unfold diagsOf. now intros ->. Qed.

Lemma groupsLeft_folds_first (op1 : Expr) (info1 info2 : InfixData) :
  isa_ExplicitCastExpr op1 = false ->
  groupsLeft op1 info1 info2 ->
  (getPrecedence info2 <? getPrecedence info1)%N
  || (InfixData_eqb info1 info2 && isLeftAssociative info1) = true.
Proof.
  intros Hnc [Hc | [Hlt | [-> Ha]]]; [congruence | |].
  - apply N.ltb_lt in Hlt. now rewrite Hlt.
  - rewrite InfixData_eqb_refl. unfold isLeftAssociative. rewrite Ha.
    apply orb_true_r.
Qed.

Lemma foldLoop_left_grouping (SF : SourceFile) :
  forall (pairs : list (Expr * Expr)) (fuel : nat) (L op1 e1 : Expr)
         (info1 : InfixData) (ds1 : list Diagnostic),
    getInfixData SF op1 = Ok info1 ds1 ->
    castOperandOk op1 e1 = true ->
    leftGrouping SF op1 info1 pairs ->
    List.length pairs < fuel ->
    foldLoop fuel SF (Some L) (Some (op1, info1)) (Some e1)
      (interleave pairs) 0
    = Ok (Some (leftChain (foldedNode op1 L e1) pairs), [])
         (leftDiagnostics SF (isa_ExplicitCastExpr op1) pairs).
Proof.
  induction pairs as [|[op2 e2] pairs IH];
    intros fuel L op1 e1 info1 ds1 Hop1 Hc1 Hgrp Hfuel.
  - destruct fuel as [|fuel]; [simpl in Hfuel; lia|].
    cbn [interleave]. rewrite foldLoop_S_empty. cbn [Op_op].
    rewrite makeBinOp_foldedNode;
      [| exact (getInfixData_unfolded _ _ _ _ Hop1) | assumption].
    reflexivity.
  - destruct fuel as [|fuel]; [simpl in Hfuel; lia|].
    destruct Hgrp as (info2 & ds2 & Hop2 & Hc2 & Hg & Hgrp).
    pose proof (makeBinOp_foldedNode op1 L e1
                  (getInfixData_unfolded _ _ _ _ Hop1) Hc1) as Hmk.
    assert (Hnext : getNextOperator SF
                      (Some op2 :: Some e2 :: interleave pairs) 0
                    = Ok (Some (op2, info2)) ds2).
    { rewrite (getNextOperator_cons _ _ _ _ _ _ Hop2).
      now rewrite N_ltb_0. }
    assert (Hev : sizeIsEven (Some op2 :: Some e2 :: interleave pairs)
                  = true).
    { rewrite sizeIsEven_cons2. apply sizeIsEven_interleave. }
    assert (Hrec : foldLoop fuel SF (Some (foldedNode op1 L e1))
                     (Some (op2, info2)) (Some e2) (interleave pairs) 0
                   = Ok (Some (leftChain
                                 (foldedNode op2 (foldedNode op1 L e1) e2)
                                 pairs), [])
                        (leftDiagnostics SF (isa_ExplicitCastExpr op2)
                           pairs)).
    { apply (IH fuel _ op2 e2 info2 ds2); try assumption.
      simpl in Hfuel. lia. }
    cbn [interleave leftChain leftDiagnostics].
    rewrite (diagsOf_Ok _ _ _ _ Hop2).
    destruct (isa_ExplicitCastExpr op1) eqn:Hcast.
    + rewrite foldLoop_S_cast; [|reflexivity|assumption|lia|assumption].
      rewrite Hmk, bind_Ok_nil.
      apply (bind_Ok_Ok _ Hnext).
      unfold at_. cbn [nth_error slice skipn]. rewrite bind_ret.
      exact Hrec.
    + rewrite foldLoop_S_operator; [|assumption|lia|assumption].
      rewrite <- app_assoc.
      apply (bind_Ok_Ok _ Hop2).
      rewrite N_ltb_0, (groupsLeft_folds_first _ _ _ Hcast Hg).
      rewrite Hmk, bind_Ok_nil.
      apply (bind_Ok_Ok _ Hnext).
      cbn [isPresent]. rewrite assertM_true, bind_ret.
      unfold at_. cbn [nth_error slice skipn]. rewrite bind_ret.
      exact Hrec.
Qed.

(** X1: a sequence in which every operator is folded before its successor
    (it is a cast, or binds tighter than its successor, or both have the
    same left-associative attributes) folds to the left-leaning chain, as
    [a - b - c] to [(a - b) - c]; the diagnostics of looking at the
    operators come once for the first operator and for an operator that
    follows a cast, and twice for every other operator. *)
Theorem left_grouping_chain :
  forall (SF : SourceFile) (E0 op e : Expr) (pairs : list (Expr * Expr))
         (info : InfixData) (ds : list Diagnostic),
    getInfixData SF op = Ok info ds ->
    castOperandOk op e = true ->
    leftGrouping SF op info pairs ->
    TypeChecker.foldSequence SF (Some E0 :: interleave ((op, e) :: pairs))
    = Ok (Some (leftChain E0 ((op, e) :: pairs)))
         (ds ++ leftDiagnostics SF (isa_ExplicitCastExpr op) pairs).
Proof.
  intros SF E0 op e pairs info ds Hop Hc Hgrp.
  cbn [interleave].
  rewrite TypeChecker_foldSequence_cons by apply sizeIsEven_interleave.
  cbn [Nat.add]. rewrite foldSequence_S. cbn [isEmpty negb].
  rewrite sizeIsEven_cons2, sizeIsEven_interleave.
  rewrite !assertM_true, !bind_ret.
  rewrite (getNextOperator_cons _ _ _ _ _ _ Hop), N_ltb_0.
  unfold at_. cbn [nth_error slice skipn].
  rewrite (bind_Ok (B := option Expr * list (option Expr)) _ eq_refl).
  cbv beta iota. rewrite bind_ret.
  rewrite (foldLoop_left_grouping SF pairs _ E0 op e info ds Hop Hc Hgrp)
    by (rewrite length_interleave; lia).
  cbn [bind isEmpty assertM ret]. now rewrite !app_nil_r.
Qed.

Lemma left_grouping_chain_witness :
  TypeChecker.foldSequence Sample.SF
    (Some (Sample.operand 1) :: interleave MoreSamples.plus_plus)
  = Ok (Some (leftChain (Sample.operand 1) MoreSamples.plus_plus)) [].
Proof.
  refine (left_grouping_chain Sample.SF (Sample.operand 1)
            (Sample.operator "+" 2) (Sample.operand 3)
            [(Sample.operator "+" 4, Sample.operand 5)]
            (mkInfixData 140 Associativity.Left) [] eq_refl eq_refl _).
  exists (mkInfixData 140 Associativity.Left), [].
  split; [reflexivity|]. split; [reflexivity|]. split; [|exact I].
  right. right. split; reflexivity.
Defined.

(** ** Grouping to the right *)

Lemma groupsRight_cases (info1 info2 : InfixData) (MinPrecedence : N) :
  (MinPrecedence <= getPrecedence info1)%N ->
  groupsRight info1 info2 ->
  (getPrecedence info2 <? MinPrecedence)%N = false
  /\ (getPrecedence info2 <? getPrecedence info1)%N
     || (InfixData_eqb info1 info2 && isLeftAssociative info1) = false
  /\ ((getPrecedence info1 <? getPrecedence info2)%N = true
      \/ (getPrecedence info1 <? getPrecedence info2)%N = false
         /\ InfixData_eqb info1 info2 && isRightAssociative info1 = true
         /\ getPrecedence info1 = getPrecedence info2).
Proof.
  intros Hmin [Hlt | [<- Ha]].
  - split; [apply N.ltb_ge; lia|]. split.
    + replace (getPrecedence info2 <? getPrecedence info1)%N with false
        by (symmetry; apply N.ltb_ge; lia).
      unfold InfixData_eqb.
      replace (getPrecedence info1 =? getPrecedence info2)%N with false
        by (symmetry; apply N.eqb_neq; lia).
      reflexivity.
    + left. now apply N.ltb_lt.
  - split; [apply N.ltb_ge; lia|]. rewrite N.ltb_irrefl, InfixData_eqb_refl.
    unfold isLeftAssociative, isRightAssociative. rewrite Ha.
    split; [reflexivity|]. right. auto.
Qed.

Lemma foldSequence_right_grouping (SF : SourceFile) :
  forall (pairs : list (Expr * Expr)) (op e : Expr) (info : InfixData)
         (ds : list Diagnostic) (fuel : nat) (L : Expr)
         (MinPrecedence : N),
    getInfixData SF op = Ok info ds ->
    isa_ExplicitCastExpr op = false ->
    (MinPrecedence <= getPrecedence info)%N ->
    rightGrouping SF info pairs ->
    2 * List.length pairs + 2 < fuel ->
    foldSequence fuel SF (Some L) (interleave ((op, e) :: pairs))
      MinPrecedence
    = Ok (Some (rightChain L ((op, e) :: pairs)), [])
         (ds ++ twiceDiagnostics SF pairs).
Proof.
  induction pairs as [|[op2 e2] pairs IH];
    intros op e info ds fuel L Min Hop Hnc Hmin Hgrp Hfuel;
    destruct fuel as [|[|[|fuel]]]; try (simpl in Hfuel; lia);
    pose proof (makeBinOp_operator SF op L) as Hmk.
  - cbn [interleave]. rewrite foldSequence_S. cbn [isEmpty negb].
    rewrite sizeIsEven_cons2.
    change (sizeIsEven (@nil (option Expr))) with true.
    rewrite !assertM_true, !bind_ret.
    rewrite (getNextOperator_cons _ _ _ _ _ _ Hop).
    replace (getPrecedence info <? Min)%N with false
      by (symmetry; apply N.ltb_ge; lia).
    refine (bind_Ok_Ok _ eq_refl _).
    unfold at_. cbn [nth_error slice skipn].
    rewrite bind_ret, foldLoop_S_empty. cbn [Op_op].
    rewrite (Hmk e info ds Hop Hnc). reflexivity.
  - destruct Hgrp as (info2 & ds2 & Hop2 & Hnc2 & Hg & Hgrp).
    destruct (groupsRight_cases _ _ Min Hmin Hg) as (Hb & Himm & Hcase).
    change (interleave ((op, e) :: (op2, e2) :: pairs))
      with (Some op :: Some e :: interleave ((op2, e2) :: pairs)).
    rewrite foldSequence_S. cbn [isEmpty negb].
    rewrite sizeIsEven_cons2, sizeIsEven_interleave.
    rewrite !assertM_true, !bind_ret.
    rewrite (getNextOperator_cons _ _ _ _ _ _ Hop).
    replace (getPrecedence info <? Min)%N with false
      by (symmetry; apply N.ltb_ge; lia).
    refine (bind_Ok_Ok _ eq_refl _).
    unfold at_. cbn [nth_error slice skipn]. rewrite bind_ret.
    change (interleave ((op2, e2) :: pairs))
      with (Some op2 :: Some e2 :: interleave pairs).
    rewrite foldLoop_S_operator;
      [| rewrite sizeIsEven_cons2; apply sizeIsEven_interleave
       | assumption | assumption].
    cbn [twiceDiagnostics]. rewrite (diagsOf_Ok _ _ _ _ Hop2).
    rewrite <- !app_assoc.
    refine (bind_Ok_Ok _ Hop2 _).
    rewrite Hb, Himm.
    change (Some op2 :: Some e2 :: interleave pairs)
      with (interleave ((op2, e2) :: pairs)).
    destruct Hcase as [Hlt | (Hnlt & Hr & Hpe)].
    + rewrite Hlt. apply N.ltb_lt in Hlt.
      rewrite (IH op2 e2 info2 ds2 (S fuel) e (getPrecedence info + 1)%N
                 Hop2 Hnc2 ltac:(lia) Hgrp ltac:(simpl in *; lia)).
      rewrite (bind_Ok (B := option Expr * list (option Expr)) _ eq_refl).
      cbv beta iota. rewrite foldLoop_S_empty. cbn [Op_op].
      rewrite (Hmk _ info ds Hop Hnc). cbn [bind ret].
      now rewrite !app_nil_r.
    + rewrite Hnlt, Hr.
      rewrite (IH op2 e2 info2 ds2 (S fuel) e (getPrecedence info)
                 Hop2 Hnc2 ltac:(lia) Hgrp ltac:(simpl in *; lia)).
      rewrite (bind_Ok (B := option Expr * list (option Expr)) _ eq_refl).
      cbv beta iota. rewrite (Hmk _ info ds Hop Hnc).
      cbn [bind ret isEmpty]. now rewrite !app_nil_r.
Qed.

(** X2: a sequence of operators, none a cast, in which every operator binds
    less tightly than its successor or has the same right-associative
    attributes, folds to the right-leaning chain, as [a + b * c ** d] to
    [a + (b * (c ** d))]; the diagnostics of looking at the operators come
    once for the first operator and twice for every other one. *)
Theorem right_grouping_chain :
  forall (SF : SourceFile) (E0 op e : Expr) (pairs : list (Expr * Expr))
         (info : InfixData) (ds : list Diagnostic),
    getInfixData SF op = Ok info ds ->
    isa_ExplicitCastExpr op = false ->
    rightGrouping SF info pairs ->
    TypeChecker.foldSequence SF (Some E0 :: interleave ((op, e) :: pairs))
    = Ok (Some (rightChain E0 ((op, e) :: pairs)))
         (ds ++ twiceDiagnostics SF pairs).
Proof.
  intros SF E0 op e pairs info ds Hop Hnc Hgrp.
  cbn [interleave].
  rewrite TypeChecker_foldSequence_cons by apply sizeIsEven_interleave.
  change (Some op :: Some e :: interleave pairs)
    with (interleave ((op, e) :: pairs)).
  rewrite (foldSequence_right_grouping SF pairs op e info ds _ E0 0%N
             Hop Hnc ltac:(lia) Hgrp)
    by (rewrite length_interleave; lia).
  cbn [bind isEmpty assertM ret]. now rewrite !app_nil_r.
Qed.

Lemma right_grouping_chain_witness :
  TypeChecker.foldSequence Sample.SF
    (Some (Sample.operand 1) :: interleave MoreSamples.plus_times_power)
  = Ok (Some (rightChain (Sample.operand 1) MoreSamples.plus_times_power))
       [].
Proof.
  refine (right_grouping_chain Sample.SF (Sample.operand 1)
            (Sample.operator "+" 2) (Sample.operand 3)
            [(Sample.operator "*" 4, Sample.operand 5);
             (Sample.operator "**" 6, Sample.operand 7)]
            (mkInfixData 140 Associativity.Left) [] eq_refl eq_refl _).
  exists (mkInfixData 150 Associativity.Left), [].
  split; [reflexivity|]. split; [reflexivity|]. split; [left; reflexivity|].
  exists (mkInfixData 160 Associativity.Right), [].
  split; [reflexivity|]. split; [reflexivity|].
  split; [left; reflexivity | exact I].
Defined.

(** ** Expressions that are no operators *)

(** The fold of a whole sequence enters the loop at its first operator. *)
Lemma TypeChecker_foldSequence_first (SF : SourceFile) (E0 op e : Expr)
  (info : InfixData) (ds ds' : list Diagnostic) (r : option Expr)
  (Sq : list (option Expr)) :
  sizeIsEven Sq = true ->
  getInfixData SF op = Ok info ds ->
  foldLoop (2 + List.length Sq) SF (Some E0) (Some (op, info)) (Some e) Sq 0
  = Ok (r, []) ds' ->
  TypeChecker.foldSequence SF (Some E0 :: Some op :: Some e :: Sq)
  = Ok r (ds ++ ds').
Proof.
  intros Hev Hop Hloop.
  rewrite TypeChecker_foldSequence_cons by assumption.
  cbn [Nat.add]. rewrite foldSequence_S. cbn [isEmpty negb].
  rewrite sizeIsEven_cons2, Hev, !assertM_true, !bind_ret.
  rewrite (getNextOperator_cons _ _ _ _ _ _ Hop), N_ltb_0.
  unfold at_. cbn [nth_error slice skipn].
  rewrite (bind_Ok (B := option Expr * list (option Expr)) _ eq_refl).
  cbv beta iota. rewrite bind_ret. cbn [Nat.add] in Hloop. rewrite Hloop.
  cbn [bind isEmpty assertM ret]. now rewrite !app_nil_r.
Qed.

Lemma getInfixData_no_operator (SF : SourceFile) (E : Expr) :
  isOperatorKind E = false ->
  getInfixData SF E
  = Ok (mkInfixData 255 Associativity.Left) [(getLoc E, diag.unknown_binop)].
Proof. destruct E; try discriminate; reflexivity. Qed.

Lemma no_operator_no_cast (E : Expr) :
  isOperatorKind E = false -> isa_ExplicitCastExpr E = false.
Proof. destruct E; try discriminate; reflexivity. Qed.

(** The diagnostics for the later operator positions of a sequence without
    operators. *)
Lemma leftGrouping_no_operators (SF : SourceFile) :
  forall (pairs : list (Expr * Expr)) (op1 : Expr),
    isOperatorKind op1 = false ->
    Forall (fun pe => isOperatorKind (fst pe) = false) pairs ->
    leftGrouping SF op1 (mkInfixData 255 Associativity.Left) pairs
    /\ leftDiagnostics SF (isa_ExplicitCastExpr op1) pairs
       = flat_map (fun pe => [(getLoc (fst pe), diag.unknown_binop);
                              (getLoc (fst pe), diag.unknown_binop)]) pairs.
Proof.
  induction pairs as [|[op2 e2] pairs IH]; intros op1 H1 Hall.
  - split; [exact I | reflexivity].
  - inversion Hall as [|? ? H2 Hall']; subst. cbn [fst] in H2.
    destruct (IH op2 H2 Hall') as [Hg Hd].
    pose proof (getInfixData_no_operator SF op2 H2) as Hop2.
    split.
    + eexists _, _. split; [exact Hop2|]. split.
      * unfold castOperandOk. now rewrite (no_operator_no_cast op2 H2).
      * split; [|exact Hg]. right. right. split; reflexivity.
    + cbn [leftDiagnostics flat_map fst].
      rewrite (no_operator_no_cast op1 H1), (diagsOf_Ok _ _ _ _ Hop2), Hd.
      reflexivity.
Qed.

(** X3: a sequence whose operator positions hold expressions of none of
    the operator kinds still folds, to the left-leaning chain (each is
    taken for a left-associative operator of precedence 255), and the
    unknown-operator diagnostic is emitted once for the first of them and
    twice for every later one, each at the expression's location. *)
Theorem no_operators_left_chain :
  forall (SF : SourceFile) (E0 op e : Expr) (pairs : list (Expr * Expr)),
    isOperatorKind op = false ->
    Forall (fun pe => isOperatorKind (fst pe) = false) pairs ->
    TypeChecker.foldSequence SF (Some E0 :: interleave ((op, e) :: pairs))
    = Ok (Some (leftChain E0 ((op, e) :: pairs)))
         ((getLoc op, diag.unknown_binop)
          :: flat_map (fun pe => [(getLoc (fst pe), diag.unknown_binop);
                                  (getLoc (fst pe), diag.unknown_binop)])
               pairs).
Proof.
  intros SF E0 op e pairs Hop Hall.
  destruct (leftGrouping_no_operators SF pairs op Hop Hall) as [Hg Hd].
  pose proof (getInfixData_no_operator SF op Hop) as Hi.
  cbn [interleave].
  rewrite (TypeChecker_foldSequence_first SF E0 op e _ _ _ _ _
             (sizeIsEven_interleave pairs) Hi
             (foldLoop_left_grouping SF pairs
                (2 + List.length (interleave pairs)) E0 op e _ _ Hi
                ltac:(unfold castOperandOk;
                      now rewrite (no_operator_no_cast op Hop))
                Hg ltac:(rewrite length_interleave; lia))).
  rewrite Hd. reflexivity.
Qed.

Lemma no_operators_left_chain_witness :
  TypeChecker.foldSequence Sample.SF
    (Some (Sample.operand 1) :: interleave MoreSamples.no_operators)
  = Ok (Some (leftChain (Sample.operand 1) MoreSamples.no_operators))
       [(Some 2%N, diag.unknown_binop); (Some 4%N, diag.unknown_binop);
        (Some 4%N, diag.unknown_binop)].
Proof.
  refine (no_operators_left_chain Sample.SF (Sample.operand 1)
            (Sample.operand 2) (Sample.operand 3)
            [(Sample.operand 4, Sample.operand 5)] eq_refl _).
  constructor; [reflexivity | constructor].
Defined.

(** ** The fold keeps the order of the sequence *)

Lemma partial_Ok_bind {A B} (m : Outcome A) (k : A -> Outcome B) a ds
  (Q : B -> Prop) :
  m = Ok a ds -> partial (k a) Q -> partial (bind m k) Q.
Proof. intros -> H. simpl. destruct (k a); simpl in *; auto. Qed.

Lemma partial_bind {A B} (m : Outcome A) (k : A -> Outcome B)
  (P : A -> Prop) (Q : B -> Prop) :
  partial m P -> (forall a, P a -> partial (k a) Q) -> partial (bind m k) Q.
Proof.
  destruct m as [a ds | f |]; simpl; intros Hm Hk; try exact I.
  specialize (Hk a Hm). destruct (k a); simpl in *; auto.
Qed.

Lemma partial_weaken {A} (m : Outcome A) (P Q : A -> Prop) :
  partial m P -> (forall a, P a -> Q a) -> partial m Q.
Proof. destruct m; simpl; auto. Qed.

Lemma freshOperator_no_cast (op : Expr) :
  freshOperator op = true -> isa_ExplicitCastExpr op = false.
Proof. destruct op; simpl; congruence. Qed.

Lemma inorder_foldedNode (op L R : Expr) :
  freshOperator op = true ->
  inorder (foldedNode op L R) = inorder L ++ op :: inorder R.
Proof.
  destruct op; try discriminate; try reflexivity; cbn [freshOperator].
  - destruct Cond, Else; try discriminate. reflexivity.
  - destruct Dest, Src; try discriminate. reflexivity.
Qed.

Lemma inorder_leaf (E : Expr) : isOperandLeaf E = true -> inorder E = [E].
Proof.
  destruct E as [| | c l t e | d l s | | | | f x i |]; try reflexivity.
  - destruct c, e; try discriminate; reflexivity.
  - destruct d, s; try discriminate; reflexivity.
  - destruct x as [| | | | | | es im | |]; try reflexivity.
    destruct es as [|a [|b [|c es]]]; try reflexivity. discriminate.
Qed.

Lemma plainSequence_inv (SF : SourceFile) (Sq : list (option Expr)) :
  plainSequence SF Sq = true ->
  Sq = []
  \/ exists op e rest info ds,
       Sq = Some op :: Some e :: rest
       /\ freshOperator op = true
       /\ getInfixData SF op = Ok info ds
       /\ isOperandLeaf e = true
       /\ plainSequence SF rest = true.
Proof.
  destruct Sq as [|[op|] [|[e|] rest]]; simpl; try discriminate; auto.
  intros H. right. repeat (apply andb_true_iff in H; destruct H as [H ?]).
  destruct (getInfixData SF op) as [info ds | |] eqn:E; try discriminate.
  exists op, e, rest, info, ds. auto.
Qed.

Lemma plainSequence_castFree (SF : SourceFile) :
  forall (n : nat) (Sq : list (option Expr)),
    List.length Sq <= n ->
    plainSequence SF Sq = true -> castFreeSequence SF Sq = true.
Proof.
  induction n as [|n IH]; intros Sq Hn H;
    destruct (plainSequence_inv SF Sq H)
      as [-> | (op & e & rest & info & ds & -> & Hf & Hop & _ & Hr)];
    try reflexivity; simpl in Hn; [lia|].
  cbn [castFreeSequence].
  rewrite (freshOperator_no_cast op Hf), Hop, (IH rest); auto; lia.
Qed.

Ltac solve_order :=
  unfold keepsOrder; cbn [fst snd]; eexists; split; [reflexivity|];
  repeat split; auto.

Lemma foldSequence_keepsOrder (SF : SourceFile) :
  forall fuel : nat,
    (forall (L : Expr) (Sq : list (option Expr)) (MinPrecedence : N),
        plainSequence SF Sq = true -> Sq <> [] ->
        partial (foldSequence fuel SF (Some L) Sq MinPrecedence)
          (keepsOrder SF MinPrecedence (inorder L ++ elements Sq)))
    /\ (forall (L op1 : Expr) (info1 : InfixData) (ds1 : list Diagnostic)
               (R : Expr) (Sq : list (option Expr)) (MinPrecedence : N),
          plainSequence SF Sq = true ->
          freshOperator op1 = true ->
          getInfixData SF op1 = Ok info1 ds1 ->
          (MinPrecedence <= getPrecedence info1)%N ->
          partial (foldLoop fuel SF (Some L) (Some (op1, info1)) (Some R)
                     Sq MinPrecedence)
            (keepsOrder SF MinPrecedence
               (inorder L ++ op1 :: inorder R ++ elements Sq))).
Proof.
  induction fuel as [|fuel [IHseq IHloop]].
  { split; intros; exact I. }
  split.
  - intros L Sq Min Hp Hne.
    destruct (plainSequence_inv SF Sq Hp)
      as [-> | (op & e & rest & info & ds & -> & Hf & Hop & Hleaf & Hr)];
      [congruence|].
    rewrite foldSequence_S. cbn [isEmpty negb].
    rewrite (castFreeSequence_even SF _ _ (le_n _)
               (plainSequence_castFree SF _ _ (le_n _) Hp)).
    rewrite !assertM_true, !bind_ret.
    apply (partial_Ok_bind _ _ _ _ _
             (getNextOperator_cons _ _ _ _ _ _ Hop)).
    destruct (N.ltb (getPrecedence info) Min) eqn:Hlt.
    + apply N.ltb_lt in Hlt. unfold ret, partial. solve_order.
      cbn [belowFloor]. eauto.
    + apply N.ltb_ge in Hlt. unfold at_. cbn [nth_error slice skipn].
      rewrite bind_ret.
      apply (partial_weaken _ _ _
               (IHloop L op info ds e rest Min Hr Hf Hop Hlt)).
      intros res (r & H1 & H2 & H3 & H4). exists r.
      repeat split; auto. rewrite H4. cbn [elements].
      now rewrite (inorder_leaf e Hleaf).
  - intros L op1 info1 ds1 R Sq Min Hp Hf1 Hop1 Hmin.
    pose proof (freshOperator_no_cast op1 Hf1) as Hnc1.
    pose proof (makeBinOp_operator SF op1 L) as Hmk.
    destruct (plainSequence_inv SF Sq Hp)
      as [-> | (op2 & e2 & rest & info2 & ds2 & -> & Hf2 & Hop2 & Hleaf
                & Hr)].
    + rewrite foldLoop_S_empty. cbn [Op_op].
      rewrite (Hmk R info1 ds1 Hop1 Hnc1), bind_Ok_nil.
      unfold ret, partial. solve_order.
      rewrite inorder_foldedNode by assumption.
      cbn [elements]. now rewrite <- app_assoc.
    + pose proof (freshOperator_no_cast op2 Hf2) as Hnc2.
      rewrite foldLoop_S_operator;
        [| exact (castFreeSequence_even SF _ _ (le_n _)
                    (plainSequence_castFree SF _ _ (le_n _) Hp))
         | assumption | assumption].
      apply (partial_Ok_bind _ _ _ _ _ Hop2).
      destruct (N.ltb (getPrecedence info2) Min) eqn:Hlt2.
      { apply N.ltb_lt in Hlt2.
        rewrite (Hmk R info1 ds1 Hop1 Hnc1), bind_Ok_nil.
        unfold ret, partial. solve_order.
        - cbn [belowFloor]. eauto.
        - rewrite inorder_foldedNode by assumption.
          now rewrite <- app_assoc. }
      apply N.ltb_ge in Hlt2.
      assert (Hnext : getNextOperator SF (Some op2 :: Some e2 :: rest) Min
                      = Ok (Some (op2, info2)) ds2).
      { rewrite (getNextOperator_cons _ _ _ _ _ _ Hop2).
        replace (getPrecedence info2 <? Min)%N with false
          by (symmetry; apply N.ltb_ge; lia).
        reflexivity. }
      destruct ((getPrecedence info2 <? getPrecedence info1)%N
                || (InfixData_eqb info1 info2 && isLeftAssociative info1))
        eqn:Hc1.
      { rewrite (Hmk R info1 ds1 Hop1 Hnc1), bind_Ok_nil.
        apply (partial_Ok_bind _ _ _ _ _ Hnext).
        cbn [isPresent]. rewrite assertM_true, bind_ret.
        unfold at_. cbn [nth_error slice skipn]. rewrite bind_ret.
        apply (partial_weaken _ _ _
                 (IHloop (foldedNode op1 L R) op2 info2 ds2 e2 rest Min
                    Hr Hf2 Hop2 Hlt2)).
        intros res (r & H1 & H2 & H3 & H4). exists r.
        repeat split; auto. rewrite H4.
        rewrite inorder_foldedNode by assumption.
        cbn [elements]. rewrite (inorder_leaf e2 Hleaf).
        now rewrite <- !app_assoc. }
      destruct (N.ltb (getPrecedence info1) (getPrecedence info2)) eqn:Hc2.
      { apply N.ltb_lt in Hc2.
        apply (partial_bind _ _ _ _
                 (IHseq R _ (getPrecedence info1 + 1)%N Hp
                    ltac:(discriminate))).
        intros [RHS' Sq'] (r & H1 & H2 & H3 & H4). cbn [fst snd] in *.
        subst RHS'.
        apply (partial_weaken _ _ _
                 (IHloop L op1 info1 ds1 r Sq' Min H2 Hf1 Hop1 Hmin)).
        intros res (r' & H1' & H2' & H3' & H4'). exists r'.
        repeat split; auto. rewrite H4'. now rewrite H4. }
      destruct (InfixData_eqb info1 info2 && isRightAssociative info1)
        eqn:Hc3.
      { apply (partial_bind _ _ _ _
                 (IHseq R _ (getPrecedence info1) Hp ltac:(discriminate))).
        intros [RHS' Sq'] (r & H1 & H2 & H3 & H4). cbn [fst snd] in *.
        subst RHS'.
        rewrite (Hmk r info1 ds1 Hop1 Hnc1), bind_Ok_nil.
        destruct (isEmpty Sq') eqn:Hemp.
        - destruct Sq'; [|discriminate]. unfold ret, partial. solve_order.
          rewrite inorder_foldedNode by assumption.
          rewrite <- H4. cbn [elements]. now rewrite <- !app_assoc.
        - apply (partial_weaken _ _ _
                   (IHseq (foldedNode op1 L r) Sq' Min H2
                      ltac:(intros ->; discriminate))).
          intros res (r' & H1' & H2' & H3' & H4'). exists r'.
          repeat split; auto. rewrite H4'.
          rewrite inorder_foldedNode by assumption.
          rewrite <- H4. now rewrite <- !app_assoc. }
      apply N.ltb_ge in Hc2.
      destruct (conflict_assertions _ _ Hc1
                  ltac:(apply N.ltb_ge; exact Hc2) Hc3) as [Ha1 Ha2].
      rewrite Ha1, Ha2, !assertM_true, !bind_ret.
      apply (partial_bind _ _ (fun _ => True) _).
      { destruct (isNonAssociative info1);
          [|destruct (isNonAssociative info2)]; exact I. }
      intros _ _.
      rewrite (Hmk R info1 ds1 Hop1 Hnc1), bind_Ok_nil.
      apply (partial_weaken _ _ _
               (IHseq (foldedNode op1 L R) _ Min Hp ltac:(discriminate))).
      intros res (r' & H1' & H2' & H3' & H4'). exists r'.
      repeat split; auto. rewrite H4'.
      rewrite inorder_foldedNode by assumption.
      now rewrite <- !app_assoc.
Qed.

(** X4: the fold neither drops nor duplicates nor reorders anything.  For
    a sequence of a leaf operand followed by fresh operators, none a cast,
    and leaf operands, the fold returns a tree whose operands and operators
    read from left to right are the elements of the sequence in their
    order. *)
Theorem foldSequence_preserves_order :
  forall (SF : SourceFile) (E0 : Expr) (Sq : list (option Expr)),
    Sq <> [] ->
    plainSequence SF Sq = true ->
    isOperandLeaf E0 = true ->
    exists r ds,
      TypeChecker.foldSequence SF (Some E0 :: Sq) = Ok (Some r) ds
      /\ inorder r = E0 :: elements Sq.
Proof.
  intros SF E0 Sq Hne Hp Hleaf.
  pose proof (plainSequence_castFree SF _ _ (le_n _) Hp) as Hcf.
  destruct (castFreeSequence_inv SF Sq Hcf)
    as [-> | (op & e & rest & info & ds & -> & Hnc & Hop & Hr)];
    [congruence|].
  rewrite TypeChecker_foldSequence_cons
    by exact (castFreeSequence_even SF _ _ (le_n _) Hr).
  destruct (proj1 (foldSequence_castFree SF (3 + List.length rest))
              E0 (Some op :: Some e :: rest) 0%N Hcf Hne
              ltac:(simpl; lia))
    as (r & Sq' & ds' & Hfold & (_ & _ & Hz) & _).
  pose proof (proj1 (foldSequence_keepsOrder SF (3 + List.length rest))
                E0 (Some op :: Some e :: rest) 0%N Hp Hne) as Hord.
  rewrite Hfold in Hord. destruct Hord as (r' & H1 & _ & _ & H4).
  cbn [fst snd] in *. injection H1 as <-.
  rewrite (Hz eq_refl) in *. exists r, (ds' ++ []). split.
  - exact (bind_Ok_Ok _ Hfold eq_refl).
  - rewrite app_nil_r in H4. rewrite H4.
    now rewrite (inorder_leaf E0 Hleaf).
Qed.

Lemma foldSequence_preserves_order_witness :
  exists r ds,
    TypeChecker.foldSequence Sample.SF
      (Some (Sample.operand 1) :: MoreSamples.mixed) = Ok (Some r) ds
    /\ inorder r = Sample.operand 1 :: elements MoreSamples.mixed.
Proof.
  refine (foldSequence_preserves_order Sample.SF (Sample.operand 1)
            MoreSamples.mixed _ eq_refl eq_refl).
  discriminate.
Defined.

(** X5: a fold with a floor stops only below the floor.  For a slice of
    fresh operators, none a cast, and leaf operands, the fold from a
    left-hand side [L] with any floor returns a tree and a rest of the
    slice such that the rest is empty or starts with an operator of a
    precedence below the floor, and the tree read from left to right,
    followed by the rest, is [L] read from left to right followed by the
    slice. *)
Theorem foldSequence_stops_below_floor :
  forall (SF : SourceFile) (fuel : nat) (L : Expr)
         (Sq : list (option Expr)) (MinPrecedence : N),
    Sq <> [] ->
    plainSequence SF Sq = true ->
    List.length Sq < fuel ->
    exists r Sq' ds,
      foldSequence fuel SF (Some L) Sq MinPrecedence = Ok (Some r, Sq') ds
      /\ belowFloor SF MinPrecedence Sq'
      /\ inorder r ++ elements Sq' = inorder L ++ elements Sq.
Proof.
  intros SF fuel L Sq Min Hne Hp Hfuel.
  pose proof (plainSequence_castFree SF _ _ (le_n _) Hp) as Hcf.
  destruct (proj1 (foldSequence_castFree SF fuel) L Sq Min Hcf Hne Hfuel)
    as (r & Sq' & ds' & Hfold & _).
  pose proof (proj1 (foldSequence_keepsOrder SF fuel) L Sq Min Hp Hne)
    as Hord.
  rewrite Hfold in Hord. destruct Hord as (r' & H1 & _ & H3 & H4).
  cbn [fst snd] in *. injection H1 as <-.
  exists r, Sq', ds'. auto.
Qed.

Lemma foldSequence_stops_below_floor_witness :
  exists r Sq' ds,
    foldSequence 9 Sample.SF (Some (Sample.operand 1)) MoreSamples.mixed 135
    = Ok (Some r, Sq') ds
    /\ belowFloor Sample.SF 135 Sq'
    /\ inorder r ++ elements Sq'
       = inorder (Sample.operand 1) ++ elements MoreSamples.mixed.
Proof.
  refine (foldSequence_stops_below_floor Sample.SF 9 (Sample.operand 1)
            MoreSamples.mixed 135 _ eq_refl _).
  - discriminate.
  - simpl. lia.
Defined.

(** * Further properties of the capture analysis *)

Lemma existsb_ValueDecl_eqb (D : Captures.ValueDecl)
  (l : list Captures.ValueDecl) :
  existsb (Captures.ValueDecl_eqb D) l = true <-> In D l.
Proof.
  rewrite existsb_exists. split.
  - intros [y [Hy He]]. apply ValueDecl_eqb_eq in He. now subst.
  - intros H. exists D. split; [assumption | now apply ValueDecl_eqb_eq].
Qed.

Lemma insert_extends (D : Captures.ValueDecl)
  (l : list Captures.ValueDecl) :
  NoDup l ->
  NoDup (Captures.insert D l) /\ exists added, Captures.insert D l = l ++ added.
Proof.
  intros Hnd. unfold Captures.insert.
  destruct (existsb (Captures.ValueDecl_eqb D) l) eqn:E.
  - split; [assumption|]. exists []. now rewrite app_nil_r.
  - split; [|now exists [D]].
    apply NoDup_app; [assumption | repeat constructor; intros [] |].
    intros x Hx [<- | []].
    apply existsb_ValueDecl_eqb in Hx. congruence.
Qed.

Lemma propagate_extends (Cur : DeclContext)
  (sub acc : list Captures.ValueDecl) :
  NoDup acc ->
  NoDup (Captures.propagate Cur sub acc)
  /\ exists added, Captures.propagate Cur sub acc = acc ++ added.
Proof.
  unfold Captures.propagate. revert acc.
  induction sub as [|D sub IH]; intros acc Hnd; simpl.
  - split; [assumption|]. exists []. now rewrite app_nil_r.
  - destruct (negb (DeclContext_eqb (Captures.getDeclContext D) Cur)).
    + destruct (insert_extends D acc Hnd) as [Hnd' [a1 Ha1]].
      destruct (IH _ Hnd') as [Hnd'' [a2 Ha2]].
      split; [assumption|]. exists (a1 ++ a2).
      now rewrite Ha2, Ha1, app_assoc.
    + now apply IH.
Qed.

Lemma walk_extends (Cur : DeclContext) (E : Captures.Node) :
  forall acc : list Captures.ValueDecl,
    NoDup acc ->
    NoDup (Captures.walk Cur E acc)
    /\ exists added, Captures.walk Cur E acc = acc ++ added.
Proof.
  induction E as [D | DC caps body IH | children IH] using Node_nested_ind;
    intros acc Hnd.
  - simpl. unfold Captures.walkToDeclRefExpr.
    destruct (negb (isChildContextOf Cur (Captures.getDeclContext D)));
      [|destruct (_ && _)];
      try (split; [assumption | exists []; now rewrite app_nil_r]).
    now apply insert_extends.
  - simpl. now apply propagate_extends.
  - simpl. revert acc Hnd.
    induction IH as [|c children Hc _ IHch]; intros acc Hnd; simpl.
    + split; [assumption|]. exists []. now rewrite app_nil_r.
    + destruct (Hc acc Hnd) as [Hnd' [a1 Ha1]].
      destruct (IHch _ Hnd') as [Hnd'' [a2 Ha2]].
      split; [assumption|]. exists (a1 ++ a2).
      now rewrite Ha2, Ha1, app_assoc.
Qed.

(** X6: the capture list is a set kept in the order of first discovery.
    The list computed for any body has no declaration twice, and at any
    point of the walk the captures found so far stay where they are: a
    node only appends to them. *)
Theorem computeCaptures_set_in_discovery_order :
  forall (Cur : DeclContext) (Body E : Captures.Node)
         (acc : list Captures.ValueDecl),
    NoDup (Captures.computeCaptures Cur Body)
    /\ (NoDup acc ->
        NoDup (Captures.walk Cur E acc)
        /\ exists added, Captures.walk Cur E acc = acc ++ added).
Proof.
  intros Cur Body E acc. split.
  - exact (proj1 (walk_extends Cur Body [] (NoDup_nil _))).
  - apply walk_extends.
Qed.

Lemma computeCaptures_set_in_discovery_order_witness :
  NoDup (Captures.walk SampleCaptures.outerDC SampleCaptures.outerBody
           [SampleCaptures.g])
  /\ exists added,
       Captures.walk SampleCaptures.outerDC SampleCaptures.outerBody
         [SampleCaptures.g]
       = [SampleCaptures.g] ++ added.
Proof.
  refine (proj2 (computeCaptures_set_in_discovery_order
                   SampleCaptures.outerDC SampleCaptures.outerBody
                   SampleCaptures.outerBody [SampleCaptures.g]) _).
  constructor; [intros [] | constructor].
Defined.

Lemma walkToDeclRefExpr_capturable (Cur : DeclContext)
  (X : Captures.ValueDecl) (acc : list Captures.ValueDecl) :
  Captures.walkToDeclRefExpr Cur X acc
  = if capturable Cur X then Captures.insert X acc else acc.
Proof.
  unfold Captures.walkToDeclRefExpr, capturable.
  destruct (isChildContextOf Cur (Captures.getDeclContext X)),
           (Captures.isVarDecl X),
           (isLocalContext (Captures.getDeclContext X)); reflexivity.
Qed.

Lemma In_walk (Cur : DeclContext) (E : Captures.Node) :
  forall (acc : list Captures.ValueDecl) (D : Captures.ValueDecl),
    In D (Captures.walk Cur E acc)
    <-> In D acc
        \/ (In D (directReferences E) /\ capturable Cur D = true)
        \/ (In D (nestedCaptures E) /\ Captures.getDeclContext D <> Cur).
Proof.
  induction E as [X | DC caps body IH | children IH] using Node_nested_ind;
    intros acc D.
  - cbn [Captures.walk directReferences nestedCaptures].
    rewrite walkToDeclRefExpr_capturable.
    destruct (capturable Cur X) eqn:Hc; rewrite ?In_insert; simpl;
      split; intros H; intuition (subst; congruence).
  - cbn [Captures.walk directReferences nestedCaptures].
    rewrite In_propagate. simpl. tauto.
  - cbn [Captures.walk directReferences nestedCaptures]. revert acc.
    induction IH as [|c children Hc _ IHch]; intros acc; simpl.
    + tauto.
    + rewrite IHch, Hc, !in_app_iff. tauto.
Qed.

(** X7: what is captured, exactly.  A declaration is in the capture list
    computed for a closure if and only if a name reference of the body
    outside its nested closures refers to it and it passes the two tests
    (its scope encloses the closure; it is a variable or its scope is
    local), or it is in the stored capture list of a nested closure and its
    scope is not the closure itself. *)
Theorem computeCaptures_exactly :
  forall (Cur : DeclContext) (Body : Captures.Node)
         (D : Captures.ValueDecl),
    In D (Captures.computeCaptures Cur Body)
    <-> (In D (directReferences Body) /\ capturable Cur D = true)
        \/ (In D (nestedCaptures Body)
            /\ Captures.getDeclContext D <> Cur).
Proof.
  intros Cur Body D. unfold Captures.computeCaptures.
  rewrite In_walk. simpl. tauto.
Qed.

Lemma computeCaptures_exactly_witness :
  In SampleCaptures.x
    (Captures.computeCaptures SampleCaptures.innerDC
       SampleCaptures.innerBody).
Proof.
  apply (proj2 (computeCaptures_exactly SampleCaptures.innerDC
                  SampleCaptures.innerBody SampleCaptures.x)).
  left. split; [|reflexivity]. simpl. right. left. reflexivity.
Defined.

Lemma In_walk_acc (Cur : DeclContext) (E : Captures.Node)
  (acc : list Captures.ValueDecl) (D : Captures.ValueDecl) :
  In D acc -> In D (Captures.walk Cur E acc).
Proof. intros H. apply In_walk. now left. Qed.

Lemma capturable_inner (Cur DC : DeclContext) (D : Captures.ValueDecl) :
  inContextChain DC Cur = true ->
  capturable Cur D = true -> capturable DC D = true.
Proof.
  intros Hin Hcap. unfold capturable in *. apply andb_true_iff in Hcap.
  destruct Hcap as [Hch Hv]. rewrite Hv, andb_true_r.
  pose proof (isChildContextOf_depth _ _ Hch) as Hd.
  unfold isChildContextOf in *. apply andb_true_iff in Hch.
  destruct Hch as [_ Hc]. apply andb_true_iff. split.
  - apply negb_true_iff.
    destruct (DeclContext_eqb DC (Captures.getDeclContext D)) eqn:E;
      [|reflexivity].
    apply DeclContext_eqb_eq in E. rewrite E in Hin.
    destruct (inContextChain_depth _ _ Hin) as [He | Hlt]; [|lia].
    rewrite He in Hd. lia.
  - clear Hd Hv. induction DC as [i | i l P IH]; cbn [inContextChain] in *.
    + rewrite orb_false_r in Hin. apply DeclContext_eqb_eq in Hin.
      subst Cur. exact Hc.
    + apply orb_true_iff in Hin. destruct Hin as [Hin | Hin].
      * apply DeclContext_eqb_eq in Hin. subst Cur. exact Hc.
      * rewrite (IH Hin). apply orb_true_r.
Qed.

Lemma walk_allReferences (D : Captures.ValueDecl) (E : Captures.Node) :
  forall (Cur : DeclContext) (acc : list Captures.ValueDecl),
    Captures.nestedCapturesComputed E = true ->
    closuresNestedIn Cur E = true ->
    In D (allReferences E) ->
    capturable Cur D = true ->
    In D (Captures.walk Cur E acc).
Proof.
  induction E as [X | DC caps body IH | children IH] using Node_nested_ind;
    intros Cur acc Hc Hn Hin Hcap.
  - destruct Hin as [-> | []]. cbn [Captures.walk].
    rewrite walkToDeclRefExpr_capturable, Hcap. apply In_insert. now right.
  - simpl in Hc, Hn. apply andb_true_iff in Hc. destruct Hc as [Hcaps Hbody].
    apply andb_true_iff in Hn. destruct Hn as [Hchain Hnb].
    apply captures_eqb_eq in Hcaps. cbn [Captures.walk].
    apply In_propagate. right. split.
    + rewrite Hcaps.
      exact (IH DC [] Hbody Hnb Hin (capturable_inner Cur DC D Hchain Hcap)).
    + intros He. unfold capturable in Hcap. apply andb_true_iff in Hcap.
      destruct Hcap as [Hch _]. apply isChildContextOf_depth in Hch.
      rewrite He in Hch. lia.
  - cbn [Captures.walk]. cbn [allReferences] in Hin. simpl in Hc, Hn.
    revert acc Hc Hn Hin.
    induction IH as [|c children Hc' _ IHch]; intros acc Hc Hn Hin;
      [destruct Hin|].
    simpl in Hc, Hn. apply andb_true_iff in Hc. destruct Hc as [Hc1 Hc2].
    apply andb_true_iff in Hn. destruct Hn as [Hn1 Hn2].
    cbn [flat_map] in Hin. apply in_app_or in Hin. cbn [fold_left].
    destruct Hin as [Hin | Hin].
    + assert (H : In D (Captures.walk Cur c acc))
        by (apply Hc'; assumption).
      clear - H. revert H. generalize (Captures.walk Cur c acc).
      induction children as [|c' children IHc]; intros l H; [exact H|].
      cbn [fold_left]. apply IHc. now apply In_walk_acc.
    + now apply IHch.
Qed.

(** X8: captures pass outwards through nested closures.  If the closures
    nested in a body, at any depth, carry the capture lists computed for
    them and have contexts inside that of the closure they are written in,
    then a declaration that is referred to anywhere in the body, be it in
    a closure nested in it at any depth, whose scope encloses the outer
    closure and which is a variable or of a local scope, is captured by the
    outer closure; and a body that refers only to declarations of the
    closure's own scope, in itself and in its nested closures' captures, has
    no captures. *)
Theorem computeCaptures_transitive :
  forall (Cur : DeclContext) (Body : Captures.Node)
         (D : Captures.ValueDecl),
    Captures.nestedCapturesComputed Body = true ->
    closuresNestedIn Cur Body = true ->
    In D (allReferences Body) ->
    capturable Cur D = true ->
    In D (Captures.computeCaptures Cur Body)
    /\ forall Body',
         (forall X, In X (directReferences Body') ->
                    Captures.getDeclContext X = Cur) ->
         (forall X, In X (nestedCaptures Body') ->
                    Captures.getDeclContext X = Cur) ->
         Captures.computeCaptures Cur Body' = [].
Proof.
  intros Cur Body D Hc Hn Hin Hcap. split.
  - exact (walk_allReferences D Body Cur [] Hc Hn Hin Hcap).
  - intros Body' H1 H2.
    destruct (Captures.computeCaptures Cur Body') as [|X l] eqn:E;
      [reflexivity|].
    assert (HX : In X (Captures.computeCaptures Cur Body'))
      by (rewrite E; now left).
    unfold Captures.computeCaptures in HX. apply In_walk in HX.
    destruct HX as [[] | [[HX Hcx] | [HX Hne]]].
    + unfold capturable in Hcx. apply andb_true_iff in Hcx.
      destruct Hcx as [Hch _]. apply isChildContextOf_depth in Hch.
      rewrite (H1 X HX) in Hch. lia.
    + now specialize (H2 X HX).
Qed.

Lemma computeCaptures_transitive_witness :
  In SampleCaptures.x
    (Captures.computeCaptures SampleCaptures.outerDC
       SampleCaptures.outerBody).
Proof.
  refine (proj1 (computeCaptures_transitive SampleCaptures.outerDC
                   SampleCaptures.outerBody SampleCaptures.x
                   eq_refl eq_refl _ eq_refl)).
  simpl. right. right. left. reflexivity.
Defined.

(** * Properties of the cached lookups *)

Lemma readSlot_writeSlot (st : LiteralTypes) (slot : LiteralSlot)
  (T : option Ty) : readSlot (writeSlot st slot T) slot = T.
Proof. destruct slot; reflexivity. Qed.

Lemma readSlot_writeSlot_other (st : LiteralTypes) (slot slot' : LiteralSlot)
  (T : option Ty) :
  slot <> slot' -> readSlot (writeSlot st slot T) slot' = readSlot st slot'.
Proof. destruct slot, slot'; intros H; try reflexivity; congruence. Qed.

Lemma writeSlot_same (st : LiteralTypes) (slot : LiteralSlot) :
  writeSlot st slot (readSlot st slot) = st.
Proof. destruct st, slot; reflexivity. Qed.

Lemma LiteralSlot_eq_dec (a b : LiteralSlot) : {a = b} + {a <> b}.
Proof. decide equality. Qed.

Lemma literalSlot_ext (Lk Lk' : Lookup) (protocol : ProtocolDeclPtr) :
  (forall k, getProtocol Lk' k = getProtocol Lk k) ->
  literalSlot Lk' protocol = literalSlot Lk protocol.
Proof. intros H. unfold literalSlot. now rewrite !H. Qed.

(** X9: a default literal type, once found, is fixed.  If [getDefaultType]
    returns a type for a protocol, then any later call for that protocol
    returns the same type and leaves the cached fields as they are, from
    whatever context it is made and whatever the lookups would find by
    then. *)
Theorem getDefaultType_memoized :
  forall (Lk Lk' : Lookup) (protocol : ProtocolDeclPtr)
         (dc dc' : DeclContext) (st st' : LiteralTypes) (T : Ty),
    (forall k, getProtocol Lk' k = getProtocol Lk k) ->
    getDefaultType Lk protocol dc st = (Some T, st') ->
    getDefaultType Lk' protocol dc' st' = (Some T, st').
Proof.
  intros Lk Lk' protocol dc dc' st st' T Hp H.
  unfold getDefaultType in *. rewrite (literalSlot_ext Lk Lk' protocol Hp).
  destruct (literalSlot Lk protocol) as [[slot name]|]; [|discriminate].
  destruct (readSlot st slot) as [T0|] eqn:Hr.
  - injection H as <- <-. now rewrite Hr.
  - injection H as H1 H2. subst st'. now rewrite readSlot_writeSlot, H1.
Qed.

Lemma getDefaultType_memoized_witness :
  getDefaultType SampleLookup.LkNothing (Some 2%N) SampleLookup.userDC
    (snd (getDefaultType SampleLookup.Lk (Some 2%N) SampleLookup.userDC
            SampleLookup.noLiteralTypes))
  = (Some (NominalType "String"%string),
     snd (getDefaultType SampleLookup.Lk (Some 2%N) SampleLookup.userDC
            SampleLookup.noLiteralTypes)).
Proof.
  refine (getDefaultType_memoized SampleLookup.Lk SampleLookup.LkNothing
            (Some 2%N) SampleLookup.userDC SampleLookup.userDC
            SampleLookup.noLiteralTypes _ (NominalType "String"%string) _ _).
  - intros k. reflexivity.
  - reflexivity.
Defined.

(** X10: [getDefaultType] never replaces a cached type and caches no
    failure.  A field that holds a type before a call holds the same type
    after it; a call changes no field but that of its protocol; and a call
    that returns null (no literal protocol, or no type found in the context
    or in the standard library) leaves every field as it was, so that the
    lookup is made again by the next call. *)
Theorem getDefaultType_cache_frame :
  forall (Lk : Lookup) (protocol : ProtocolDeclPtr) (dc : DeclContext)
         (st : LiteralTypes),
    let r := fst (getDefaultType Lk protocol dc st) in
    let st' := snd (getDefaultType Lk protocol dc st) in
    (forall slot T, readSlot st slot = Some T -> readSlot st' slot = Some T)
    /\ (forall slot name slot',
          literalSlot Lk protocol = Some (slot, name) -> slot' <> slot ->
          readSlot st' slot' = readSlot st slot')
    /\ (r = None -> st' = st)
    /\ (forall T, r = Some T ->
          exists slot name,
            literalSlot Lk protocol = Some (slot, name)
            /\ readSlot st' slot = Some T).
Proof.
  intros Lk protocol dc st. unfold getDefaultType.
  destruct (literalSlot Lk protocol) as [[slot name]|]; cbn [fst snd].
  2: { repeat split; auto; try discriminate. }
  destruct (readSlot st slot) as [T0|] eqn:Hr; cbn [fst snd].
  { repeat split; auto; try discriminate.
    intros T [= <-]. eauto. }
  set (stripped := option_map stripTypeAlias _).
  repeat split.
  - intros slot' T H.
    destruct (LiteralSlot_eq_dec slot slot') as [<- | Hne];
      [congruence|].
    now rewrite readSlot_writeSlot_other.
  - intros slot0 name0 slot' [= <- <-] Hne.
    apply readSlot_writeSlot_other. congruence.
  - intros ->. rewrite <- Hr. apply writeSlot_same.
  - intros T ->. exists slot, name. split; [reflexivity|].
    apply readSlot_writeSlot.
Qed.

Lemma getDefaultType_cache_frame_witness :
  snd (getDefaultType SampleLookup.LkNothing (Some 2%N) SampleLookup.userDC
         SampleLookup.noLiteralTypes)
  = SampleLookup.noLiteralTypes.
Proof.
  exact (proj1 (proj2 (proj2 (getDefaultType_cache_frame
                  SampleLookup.LkNothing (Some 2%N) SampleLookup.userDC
                  SampleLookup.noLiteralTypes))) eq_refl).
Defined.

(** X11: string literals and string interpolations share one default
    type.  If the two protocols are declarations other than that of
    character literals, the type returned for one of them is returned for
    the other by any later call, without a lookup. *)
Theorem getDefaultType_string_shared :
  forall (Lk Lk' : Lookup) (p q : ProtocolDeclPtr) (dc dc' : DeclContext)
         (st st' : LiteralTypes) (T : Ty),
    (forall k, getProtocol Lk' k = getProtocol Lk k) ->
    let isString (x : ProtocolDeclPtr) :=
      x = getProtocol Lk KnownProtocolKind.StringLiteralConvertible
      \/ x = getProtocol Lk KnownProtocolKind.StringInterpolationConvertible
    in
    isString p -> isString q ->
    p <> getProtocol Lk KnownProtocolKind.CharacterLiteralConvertible ->
    q <> getProtocol Lk KnownProtocolKind.CharacterLiteralConvertible ->
    getDefaultType Lk p dc st = (Some T, st') ->
    getDefaultType Lk' q dc' st' = (Some T, st').
Proof.
  intros Lk Lk' p q dc dc' st st' T Hext isString Hp Hq Hpc Hqc H.
  assert (Heqb : forall a b, ProtocolDeclPtr_eqb a b = true <-> a = b).
  { intros [a|] [b|]; simpl; rewrite ?N.eqb_eq;
      split; intros E; try discriminate; try congruence. }
  assert (Hslot : forall x,
             isString x ->
             x <> getProtocol Lk
                    KnownProtocolKind.CharacterLiteralConvertible ->
             literalSlot Lk x
             = Some (StringSlot, "StringLiteralType"%string)).
  { intros x Hx Hxc. unfold literalSlot.
    destruct (ProtocolDeclPtr_eqb x
                (getProtocol Lk
                   KnownProtocolKind.CharacterLiteralConvertible)) eqn:E.
    - apply Heqb in E. contradiction.
    - destruct Hx as [-> | ->].
      + now rewrite (proj2 (Heqb _ _) eq_refl).
      + rewrite (proj2 (Heqb (getProtocol Lk
                   KnownProtocolKind.StringInterpolationConvertible) _)
                   eq_refl).
        now rewrite orb_true_r. }
  unfold getDefaultType in *.
  rewrite (literalSlot_ext Lk Lk' q Hext), (Hslot q Hq Hqc).
  rewrite (Hslot p Hp Hpc) in H. cbv beta iota in H |- *.
  destruct (readSlot st StringSlot) as [T0|] eqn:Hr.
  - injection H as <- <-. now rewrite Hr.
  - injection H as H1 H2. subst st'. cbn [readSlot StringLiteralType].
    now rewrite H1.
Qed.

Lemma getDefaultType_string_shared_witness :
  getDefaultType SampleLookup.LkNothing (Some 3%N) SampleLookup.userDC
    (snd (getDefaultType SampleLookup.Lk (Some 2%N) SampleLookup.userDC
            SampleLookup.noLiteralTypes))
  = (Some (NominalType "String"%string),
     snd (getDefaultType SampleLookup.Lk (Some 2%N) SampleLookup.userDC
            SampleLookup.noLiteralTypes)).
Proof.
  refine (getDefaultType_string_shared SampleLookup.Lk
            SampleLookup.LkNothing (Some 2%N) (Some 3%N)
            SampleLookup.userDC SampleLookup.userDC
            SampleLookup.noLiteralTypes _ (NominalType "String"%string)
            _ _ _ _ _ _).
  - intros k. reflexivity.
  - left. reflexivity.
  - right. reflexivity.
  - discriminate.
  - discriminate.
  - reflexivity.
Defined.

Lemma cache_memoized {A} (cacheSlot : option A) (compute : Outcome A)
  (v : A) (slot' : option A) (ds : list Diagnostic) :
  cache cacheSlot compute = Ok (v, slot') ds ->
  slot' = Some v /\ forall compute', cache slot' compute' = Ok (v, slot') [].
Proof.
  unfold cache. destruct cacheSlot as [v0|].
  - intros [= <- <- <-]. auto.
  - destruct compute as [a ds0 | f |]; try discriminate.
    simpl. intros [= <- <- _]. auto.
Qed.

(** X12: a well-known pointer declaration is looked up once, whatever the
    lookup finds.  Once one of the three getters has returned (a
    declaration, or null where the standard library has none), every later
    call of it returns the same without a lookup, whatever the standard
    library holds by then; and a getter leaves the fields of the other two
    as they are. *)
Theorem pointer_decl_looked_up_once :
  forall (Lk Lk' : Lookup) (lookup lookup' : StdlibLookup)
         (DC DC' : DeclContext) (st st' : PointerDecls)
         (D : option TypeDecl) (ds : list Diagnostic),
    (getUnsafePointerDecl Lk lookup DC st = Ok (D, st') ds ->
     getUnsafePointerDecl Lk' lookup' DC' st' = Ok (D, st') []
     /\ CConstPointerDecl st' = CConstPointerDecl st
     /\ CMutablePointerDecl st' = CMutablePointerDecl st)
    /\ (getCConstPointerDecl Lk lookup DC st = Ok (D, st') ds ->
        getCConstPointerDecl Lk' lookup' DC' st' = Ok (D, st') []
        /\ UnsafePointerDecl st' = UnsafePointerDecl st
        /\ CMutablePointerDecl st' = CMutablePointerDecl st)
    /\ (getCMutablePointerDecl Lk lookup DC st = Ok (D, st') ds ->
        getCMutablePointerDecl Lk' lookup' DC' st' = Ok (D, st') []
        /\ UnsafePointerDecl st' = UnsafePointerDecl st
        /\ CConstPointerDecl st' = CConstPointerDecl st).
Proof.
  intros Lk Lk' lookup lookup' DC DC' st st' D ds.
  unfold getUnsafePointerDecl, getCConstPointerDecl, getCMutablePointerDecl,
    getKnownPointerDecl.
  repeat split;
    match goal with
    | H : bind ?m _ = _ |- _ =>
        destruct m as [[v slot'] ds0 | f |] eqn:Hc; try discriminate;
        simpl in H; injection H as <- <- _;
        destruct (cache_memoized _ _ _ _ _ Hc) as [-> Hm]
    end;
    cbn [UnsafePointerDecl CConstPointerDecl CMutablePointerDecl];
    try reflexivity;
    rewrite Hm; reflexivity.
Qed.

Lemma pointer_decl_looked_up_once_witness :
  getUnsafePointerDecl SampleLookup.Lk SampleLookup.lookupUnsafePointer
    SampleLookup.userDC (mkPointerDecls (Some None) None None)
  = Ok (None, mkPointerDecls (Some None) None None) [].
Proof.
  refine (proj1 (proj1 (pointer_decl_looked_up_once SampleLookup.Lk
                   SampleLookup.Lk SampleLookup.lookupNothing
                   SampleLookup.lookupUnsafePointer SampleLookup.userDC
                   SampleLookup.userDC SampleLookup.noPointerDecls
                   (mkPointerDecls (Some None) None None) None []) _)).
  reflexivity.
Defined.

(** * Properties of the sugar propagation *)

Lemma Sugar_Ty_nested_ind (P : Sugar.Ty -> Prop) :
  (forall n, P (Sugar.NominalType n)) ->
  (forall n U, P U -> P (Sugar.NameAliasType n U)) ->
  (forall Fields, Forall P Fields -> P (Sugar.TupleType Fields)) ->
  (forall Inp Res, P Inp -> P Res -> P (Sugar.FunctionType Inp Res)) ->
  P Sugar.ErrorType ->
  forall T, P T.
Proof.
  intros Hn Ha Ht Hf He. fix IH 1. intros [n | n U | Fields | Inp Res |].
  - apply Hn.
  - apply Ha, IH.
  - apply Ht. induction Fields as [|f Fields IHf]; constructor;
      [apply IH | exact IHf].
  - apply Hf; apply IH.
  - exact He.
Qed.

Lemma Sugar_Ty_eqb_eq : forall a b : Sugar.Ty, Sugar.Ty_eqb a b = true -> a = b.
Proof.
  induction a as [n | n U IH | Fields IH | Inp Res IHi IHr |]
    using Sugar_Ty_nested_ind;
    intros [m | m V | Gs | J S |]; cbn [Sugar.Ty_eqb]; try discriminate;
    try reflexivity.
  - intros H. apply String.eqb_eq in H. now subst.
  - intros H. apply andb_true_iff in H. destruct H as [H1 H2].
    apply String.eqb_eq in H1. apply IH in H2. now subst.
  - intros H. f_equal. revert Gs H.
    induction IH as [|f Fields Hf _ IHfs]; intros [|g Gs] H;
      try discriminate; [reflexivity|].
    apply andb_true_iff in H. destruct H as [H1 H2].
    f_equal; [now apply Hf | now apply IHfs].
  - intros H. apply andb_true_iff in H. destruct H as [H1 H2].
    apply IHi in H1. apply IHr in H2. now subst.
Qed.

Lemma substituteLeaves_failed isSpelledLike resultTy (l : list Sugar.Ty)
  (st : Sugar.SugarState) :
  snd st = false -> substituteLeaves isSpelledLike resultTy l st = st.
Proof.
  unfold substituteLeaves. revert st.
  induction l as [|t l IH]; intros st H; simpl; [reflexivity|].
  rewrite H. now apply IH.
Qed.

Lemma substituteLeaves_app isSpelledLike resultTy (l1 l2 : list Sugar.Ty)
  (st : Sugar.SugarState) :
  substituteLeaves isSpelledLike resultTy (l1 ++ l2) st
  = substituteLeaves isSpelledLike resultTy l2
      (substituteLeaves isSpelledLike resultTy l1 st).
Proof. unfold substituteLeaves. apply fold_left_app. Qed.

(** The walk over an argument type is the walk over its leaves. *)
Lemma substituteArgument_leaves isSpelledLike resultTy :
  forall (argTy asWritten : Sugar.Ty) (st : Sugar.SugarState),
    snd st = true ->
    Sugar.substituteArgument isSpelledLike argTy asWritten resultTy st
    = substituteLeaves isSpelledLike resultTy (Sugar.leaves argTy asWritten)
        st.
Proof.
  induction argTy as [n | n U IH | Fields IH | Inp Res _ _ |]
    using Sugar_Ty_nested_ind; intros asWritten st Hst;
    cbn [Sugar.substituteArgument Sugar.leaves];
    try (unfold substituteLeaves; simpl; now rewrite Hst).
  - now apply IH.
  - clear Hst. revert st.
    induction IH as [|f Fields Hf _ IHfs]; intros st; simpl;
      [reflexivity|].
    rewrite substituteLeaves_app, IHfs. f_equal.
    destruct (snd st) eqn:Hs.
    + now apply Hf.
    + now rewrite substituteLeaves_failed.
Qed.

Lemma substituteLeaves_found isSpelledLike resultTy :
  forall (l : list Sugar.Ty) (t : Sugar.Ty) (u : bool),
    substituteLeaves isSpelledLike resultTy l (Some t, u)
    = (Some t,
       u && forallb (fun x => isSpelledLike x t)
              (filter (fun x => Sugar.Ty_eqb (Sugar.getCanonicalType x)
                                  resultTy) l)).
Proof.
  induction l as [|x l IH]; intros t u; unfold substituteLeaves in *;
    simpl.
  - now rewrite andb_true_r.
  - destruct u; simpl.
    + unfold Sugar.substituteLeaf. cbn [fst snd].
      destruct (Sugar.Ty_eqb (Sugar.getCanonicalType x) resultTy); simpl.
      * destruct (isSpelledLike x t); rewrite IH; reflexivity.
      * now rewrite IH.
    + now rewrite IH.
Qed.

Lemma substituteLeaves_fresh isSpelledLike resultTy :
  forall l : list Sugar.Ty,
    substituteLeaves isSpelledLike resultTy l (None, true)
    = match filter (fun x => Sugar.Ty_eqb (Sugar.getCanonicalType x)
                               resultTy) l with
      | [] => (None, true)
      | t :: rest => (Some t, forallb (fun x => isSpelledLike x t) rest)
      end.
Proof.
  induction l as [|x l IH]; [reflexivity|].
  unfold substituteLeaves in *. simpl. unfold Sugar.substituteLeaf at 2.
  cbn [fst snd].
  destruct (Sugar.Ty_eqb (Sugar.getCanonicalType x) resultTy); [|exact IH].
  exact (substituteLeaves_found isSpelledLike resultTy l x true).
Qed.

(** X13: which sugar a call gets.  For a call with a type that is no error
    type, a callee of function type and an argument type, the call's type
    becomes the first argument type (tuples taken apart, as written) whose
    canonical type is the canonical result type of the callee, provided
    every later such argument type is spelled like it; otherwise the call
    keeps its type.  The callee and argument types are not touched. *)
Theorem substituteInputSugarTypeForResult_agreed :
  forall (isSpelledLike : Sugar.Ty -> Sugar.Ty -> bool)
         (E : Sugar.ApplyExpr) (T fnTy argTy Inp Res : Sugar.Ty),
    Sugar.getType E = Some T ->
    Sugar.is_ErrorType T = false ->
    Sugar.getFnType E = Some fnTy ->
    Sugar.getDesugaredType fnTy = Sugar.FunctionType Inp Res ->
    Sugar.getArgType E = Some argTy ->
    Sugar.substituteInputSugarTypeForResult isSpelledLike E
    = Ok (Sugar.mkApplyExpr
            (match agreedSugar isSpelledLike
                     (sugarCandidates (Sugar.getCanonicalType Res) argTy)
             with
             | Some sugar => Some sugar
             | None => Some T
             end)
            (Some fnTy) (Some argTy)) [].
Proof.
  intros isSpelledLike [ty fn arg] T fnTy argTy Inp Res HT He Hfn Hd Harg.
  cbn [Sugar.getType Sugar.getFnType Sugar.getArgType] in *. subst.
  unfold Sugar.substituteInputSugarTypeForResult.
  cbn [Sugar.getType Sugar.getFnType Sugar.getArgType].
  rewrite He, deref_Some, bind_ret.
  unfold Sugar.castTo_FunctionType_getResult. rewrite Hd.
  rewrite bind_ret, deref_Some, bind_ret.
  unfold Sugar.substituteInputSugarArgumentType. cbn [snd negb].
  rewrite substituteArgument_leaves by reflexivity.
  rewrite substituteLeaves_fresh. unfold agreedSugar, sugarCandidates.
  destruct (filter _ _) as [|t rest]; [reflexivity|].
  destruct (forallb _ rest); reflexivity.
Qed.

Lemma substituteInputSugarTypeForResult_agreed_witness :
  Sugar.substituteInputSugarTypeForResult SampleSugar.isSpelledLike
    SampleSugar.agreeing
  = Ok (Sugar.mkApplyExpr (Some SampleSugar.Word)
          (Sugar.getFnType SampleSugar.agreeing)
          (Sugar.getArgType SampleSugar.agreeing)) []
  /\ Sugar.substituteInputSugarTypeForResult SampleSugar.isSpelledLike
       SampleSugar.disagreeing
     = Ok SampleSugar.disagreeing [].
Proof.
  split.
  - exact (substituteInputSugarTypeForResult_agreed
             SampleSugar.isSpelledLike SampleSugar.agreeing SampleSugar.Int
             _ _ _ _ eq_refl eq_refl eq_refl eq_refl eq_refl).
  - exact (substituteInputSugarTypeForResult_agreed
             SampleSugar.isSpelledLike SampleSugar.disagreeing
             SampleSugar.Int _ _ _ _ eq_refl eq_refl eq_refl eq_refl
             eq_refl).
Defined.

(** X14: the propagation is cosmetic.  Whatever it returns for a call, the
    callee and argument types are those of the call, and the type is
    either the call's own or a type whose canonical type is the canonical
    result type of the callee; a call without a type or with an error type
    is returned as it is. *)
Theorem substituteInputSugarTypeForResult_cosmetic :
  forall (isSpelledLike : Sugar.Ty -> Sugar.Ty -> bool)
         (E E' : Sugar.ApplyExpr) (ds : list Diagnostic),
    Sugar.substituteInputSugarTypeForResult isSpelledLike E = Ok E' ds ->
    ds = []
    /\ Sugar.getFnType E' = Sugar.getFnType E
    /\ Sugar.getArgType E' = Sugar.getArgType E
    /\ (Sugar.getType E' = Sugar.getType E
        \/ exists T fnTy Inp Res,
             Sugar.getType E' = Some T
             /\ Sugar.getFnType E = Some fnTy
             /\ Sugar.getDesugaredType fnTy = Sugar.FunctionType Inp Res
             /\ Sugar.getCanonicalType T = Sugar.getCanonicalType Res)
    /\ ((Sugar.getType E = None
         \/ exists T, Sugar.getType E = Some T
                      /\ Sugar.is_ErrorType T = true) -> E' = E).
Proof.
  intros isSpelledLike [ty fn arg] E' ds H.
  unfold Sugar.substituteInputSugarTypeForResult in H.
  cbn [Sugar.getType Sugar.getFnType Sugar.getArgType] in *.
  destruct ty as [T|]; [|injection H as <- <-; repeat split; auto].
  destruct (Sugar.is_ErrorType T) eqn:He;
    [injection H as <- <-; repeat split; auto|].
  destruct fn as [fnTy|]; [|discriminate].
  rewrite deref_Some, bind_ret in H.
  unfold Sugar.castTo_FunctionType_getResult in H.
  destruct (Sugar.getDesugaredType fnTy) as [| | | Inp Res |] eqn:Hd;
    try discriminate.
  rewrite bind_ret in H.
  destruct arg as [argTy|]; [|discriminate].
  rewrite deref_Some, bind_ret in H.
  unfold Sugar.substituteInputSugarArgumentType in H. cbn [snd negb] in H.
  rewrite substituteArgument_leaves, substituteLeaves_fresh in H
    by reflexivity.
  destruct (filter _ _) as [|t rest] eqn:Hf.
  { injection H as <- <-. repeat split; auto. }
  assert (Hc : Sugar.getCanonicalType t = Sugar.getCanonicalType Res).
  { assert (Hin : In t (filter
               (fun x => Sugar.Ty_eqb (Sugar.getCanonicalType x)
                           (Sugar.getCanonicalType Res))
               (Sugar.leaves argTy argTy))) by (rewrite Hf; now left).
    apply filter_In in Hin. destruct Hin as [_ Hin].
    now apply Sugar_Ty_eqb_eq in Hin. }
  destruct (forallb _ rest); injection H as <- <-;
    cbn [Sugar.getType Sugar.getFnType Sugar.getArgType];
    repeat split; auto;
    try (intros [Hn | [T0 [[= <-] Ht]]]; congruence).
  right. exists t, fnTy, Inp, Res. auto.
Qed.

Lemma substituteInputSugarTypeForResult_cosmetic_witness :
  Sugar.getType (Sugar.mkApplyExpr (Some SampleSugar.Word)
                   (Sugar.getFnType SampleSugar.agreeing)
                   (Sugar.getArgType SampleSugar.agreeing))
  = Sugar.getType SampleSugar.agreeing
  \/ exists T fnTy Inp Res,
       Sugar.getType (Sugar.mkApplyExpr (Some SampleSugar.Word)
                        (Sugar.getFnType SampleSugar.agreeing)
                        (Sugar.getArgType SampleSugar.agreeing)) = Some T
       /\ Sugar.getFnType SampleSugar.agreeing = Some fnTy
       /\ Sugar.getDesugaredType fnTy = Sugar.FunctionType Inp Res
       /\ Sugar.getCanonicalType T = Sugar.getCanonicalType Res.
Proof.
  exact (proj1 (proj2 (proj2 (proj2
           (substituteInputSugarTypeForResult_cosmetic
              SampleSugar.isSpelledLike SampleSugar.agreeing _ [] eq_refl))))).
Defined.

(** * Further properties of the rvalue type *)

Lemma getCanonicalType_idempotent (T : Ty) :
  getCanonicalType (getCanonicalType T) = getCanonicalType T.
Proof. induction T; simpl; congruence. Qed.

Lemma canonical_weak_desugared (T R : Ty) :
  getCanonicalType T = WeakStorageType R ->
  exists R', getDesugaredType T = WeakStorageType R'.
Proof. induction T; simpl; try discriminate; eauto. Qed.

Lemma canonical_unowned_desugared (T R : Ty) :
  getCanonicalType T = UnownedStorageType R ->
  exists R', getDesugaredType T = UnownedStorageType R'
             /\ getCanonicalType R' = R.
Proof.
  induction T; simpl; try discriminate; eauto.
  intros [= <-]. eauto.
Qed.

(** X15: [getTypeOfRValue] goes wrong only where [getOptionalType] does.
    The cast of the declared type to a reference storage type, made on the
    evidence of the canonical type, never fails: if [getOptionalType]
    returns for the location of the declaration, so does
    [getTypeOfRValue], and the diagnostics are those of [getOptionalType]
    followed by at most the one for missing intrinsics. *)
Theorem getTypeOfRValue_returns :
  forall (Env : Environment) (value : ValueDecl.t)
         (wantInterfaceType : bool),
    (forall T, exists optTy ds,
        getOptionalType Env (ValueDecl.getLoc value) T = Ok optTy ds) ->
    exists T ds,
      getTypeOfRValue Env value wantInterfaceType = Ok T ds
      /\ (ds = []
          \/ exists R optTy ds',
               getOptionalType Env (ValueDecl.getLoc value) R = Ok optTy ds'
               /\ (ds = ds'
                   \/ ds = ds' ++ [(ValueDecl.getLoc value,
                                    diag.optional_intrinsics_not_found)])).
Proof.
  intros Env value want Hopt. unfold getTypeOfRValue.
  set (type := if want then ValueDecl.getInterfaceType value
               else ValueDecl.getType value).
  destruct (getCanonicalType type) as [| | | | R | | | |] eqn:Hc;
    try (eexists _, []; split; [reflexivity | now left]).
  destruct (canonical_weak_desugared type R Hc) as [R' Hd].
  unfold castTo_ReferenceStorageType_getReferentType. rewrite Hd, bind_ret.
  destruct (Hopt R') as (optTy & ds & Ho). rewrite (bind_Ok _ Ho).
  destruct optTy as [optTy|].
  - unfold requireOptionalIntrinsics.
    destruct (hasOptionalIntrinsics Env); simpl.
    + eexists _, _. split; [reflexivity|]. right.
      exists R', (Some optTy), ds. rewrite app_nil_r. auto.
    + eexists _, _. split; [reflexivity|]. right.
      exists R', (Some optTy), ds. auto.
  - simpl. eexists _, _. split; [reflexivity|]. right.
    exists R', None, ds. rewrite app_nil_r. auto.
Qed.

Lemma getTypeOfRValue_returns_witness :
  exists T ds,
    getTypeOfRValue Sample.noIntrinsics Sample.weakDecl false = Ok T ds
    /\ (ds = []
        \/ exists R optTy ds',
             getOptionalType Sample.noIntrinsics
               (ValueDecl.getLoc Sample.weakDecl) R = Ok optTy ds'
             /\ (ds = ds'
                 \/ ds = ds' ++ [(ValueDecl.getLoc Sample.weakDecl,
                                  diag.optional_intrinsics_not_found)])).
Proof.
  refine (getTypeOfRValue_returns Sample.noIntrinsics Sample.weakDecl
            false _).
  intros T. eexists _, _. reflexivity.
Defined.

(** X16: without weak storage the rvalue type does not depend on sugar.
    For a declaration whose canonical type is no weak storage type,
    [getTypeOfRValue] returns without a diagnostic a type whose canonical
    type is the canonical declared type without its inout, lvalue or
    unowned qualifier at the top; for no qualifier it is the declared type
    as written, and for an unowned one the referent as written. *)
Theorem getTypeOfRValue_strips_storage :
  forall (Env : Environment) (value : ValueDecl.t)
         (wantInterfaceType : bool),
    let type := if wantInterfaceType then ValueDecl.getInterfaceType value
                else ValueDecl.getType value in
    (forall R, getCanonicalType type <> WeakStorageType R) ->
    exists T,
      getTypeOfRValue Env value wantInterfaceType = Ok T []
      /\ getCanonicalType T = stripStorage (getCanonicalType type)
      /\ (stripStorage (getCanonicalType type) = getCanonicalType type ->
          T = type)
      /\ (forall R, getDesugaredType type = UnownedStorageType R -> T = R).
Proof.
  intros Env value want type Hnw. unfold getTypeOfRValue. fold type.
  pose proof (getCanonicalType_idempotent type) as Hid.
  assert (Hsize : forall Obj, Obj <> InOutType Obj /\ Obj <> LValueType Obj
                              /\ Obj <> UnownedStorageType Obj).
  { induction Obj; repeat split; try discriminate;
      intros [= H]; now apply IHObj in H. }
  destruct (getCanonicalType type) as [n | | Obj | Obj | R | R | B | I R |]
    eqn:Hc; cbn [stripStorage];
    try (exists type; repeat split; auto;
         intros R0 Hd; rewrite <- getCanonicalType_desugared, Hd in Hc;
         discriminate).
  - exists Obj. simpl in Hid. injection Hid as Hid.
    repeat split; auto.
    + intros H. now apply Hsize in H.
    + intros R0 Hd. rewrite <- getCanonicalType_desugared, Hd in Hc.
      discriminate.
  - exists Obj. simpl in Hid. injection Hid as Hid.
    repeat split; auto.
    + intros H. now apply Hsize in H.
    + intros R0 Hd. rewrite <- getCanonicalType_desugared, Hd in Hc.
      discriminate.
  - now specialize (Hnw R).
  - destruct (canonical_unowned_desugared type R Hc) as [R' [Hd Hr]].
    exists R'. unfold getReferenceStorageReferent. rewrite Hd.
    repeat split; auto.
    + intros H. now apply Hsize in H.
    + intros R0 [= <-]. reflexivity.
Qed.

Lemma getTypeOfRValue_strips_storage_witness :
  exists T,
    getTypeOfRValue SampleRValue.complete SampleRValue.unownedDecl false
    = Ok T []
    /\ getCanonicalType T = Sample.classTy.
Proof.
  destruct (getTypeOfRValue_strips_storage SampleRValue.complete
              SampleRValue.unownedDecl false)
    as (T & H1 & H2 & _).
  - intros R. discriminate.
  - exists T. split; [exact H1 | exact H2].
Defined.

(** * Null operands in the sequence folder *)

Lemma returnsFold_Ok_bind {A} (m : Outcome A)
  (k : A -> Outcome (option Expr * list (option Expr))) a ds P :
  m = Ok a ds -> returnsFold (k a) P -> returnsFold (bind m k) P.
Proof.
  intros Hm (r & Sq' & ds' & Hk & HP).
  exists r, Sq', (ds ++ ds'). split; [|assumption].
  exact (bind_Ok_Ok k Hm Hk).
Qed.

Lemma returnsFold_bind (m : Outcome (option Expr * list (option Expr)))
  (k : option Expr * list (option Expr)
       -> Outcome (option Expr * list (option Expr))) P Q :
  returnsFold m P ->
  (forall r Sq', P r Sq' -> returnsFold (k (r, Sq')) Q) ->
  returnsFold (bind m k) Q.
Proof.
  intros (r & Sq' & ds & Hm & HP) Hk.
  exact (returnsFold_Ok_bind m k (r, Sq') ds Q Hm (Hk r Sq' HP)).
Qed.

Lemma returnsFold_weaken m (P Q : option Expr -> list (option Expr) -> Prop) :
  returnsFold m P -> (forall r Sq', P r Sq' -> Q r Sq') -> returnsFold m Q.
Proof. intros (r & Sq' & ds & Hm & HP) H. exists r, Sq', ds. auto. Qed.

Lemma returnsFold_ret r Sq'
  (P : option Expr -> list (option Expr) -> Prop) :
  P r Sq' -> returnsFold (ret (r, Sq')) P.
Proof. intros H. exists r, Sq', []. auto. Qed.

Lemma operatorSequence_inv (SF : SourceFile) (Sq : list (option Expr)) :
  operatorSequence SF Sq = true ->
  Sq = []
  \/ exists op e rest info ds,
       Sq = Some op :: e :: rest
       /\ isa_ExplicitCastExpr op = false
       /\ getInfixData SF op = Ok info ds
       /\ operatorSequence SF rest = true.
Proof.
  destruct Sq as [|[op|] [|e rest]]; simpl; try discriminate; auto.
  intros H. right. apply andb_true_iff in H. destruct H as [H Hr].
  apply andb_true_iff in H. destruct H as [Hc Hi].
  destruct (getInfixData SF op) as [info ds | |] eqn:E; try discriminate.
  exists op, e, rest, info, ds. apply negb_true_iff in Hc. auto.
Qed.

Lemma operatorSequence_even (SF : SourceFile) :
  forall (n : nat) (Sq : list (option Expr)),
    List.length Sq <= n ->
    operatorSequence SF Sq = true -> sizeIsEven Sq = true.
Proof.
  induction n as [|n IH]; intros Sq Hn H;
    destruct (operatorSequence_inv SF Sq H)
      as [-> | (op & e & rest & info & ds & -> & _ & _ & Hr)];
    try reflexivity; simpl in Hn; [lia|].
  rewrite sizeIsEven_cons2. apply IH; [lia | assumption].
Qed.

(** [makeBinOp] over an operator returns null exactly if an operand is
    null. *)
Lemma makeBinOp_null (SF : SourceFile) (op : Expr) (l r : option Expr)
  (info : InfixData) (ds : list Diagnostic) :
  getInfixData SF op = Ok info ds -> isa_ExplicitCastExpr op = false ->
  exists x,
    makeBinOp (Some op) l r = Ok x []
    /\ negb (isPresent x) = negb (isPresent l) || negb (isPresent r).
Proof.
  intros Hop Hnc. destruct l as [L|], r as [R|];
    try (exists None; split; reflexivity).
  exists (Some (foldedNode op L R)). split; [|reflexivity].
  exact (makeBinOp_operator SF op L R info ds Hop Hnc).
Qed.

Ltac solve_nulls :=
  unfold nullRest in *; cbn [List.length anyNullOperand isPresent negb] in *;
  repeat split; intros; subst; auto; try lia;
  try (repeat match goal with
              | H : context [orb _ _] |- _ => revert H
              end;
       repeat match goal with
              | |- context [isPresent ?x] =>
                  generalize (isPresent x); intro
              | |- context [anyNullOperand ?x] =>
                  generalize (anyNullOperand x); intro
              end;
       repeat match goal with b : bool |- _ => destruct b end;
       cbn [negb orb]; congruence).

Lemma foldSequence_nulls (SF : SourceFile) :
  forall fuel : nat,
    (forall (L : option Expr) (Sq : list (option Expr))
            (MinPrecedence : N),
        operatorSequence SF Sq = true -> Sq <> [] ->
        List.length Sq < fuel ->
        returnsFold (foldSequence fuel SF L Sq MinPrecedence)
          (fun r Sq' =>
             nullRest SF Sq MinPrecedence
               (negb (isPresent L) || anyNullOperand Sq) r Sq'
             /\ forall op info ds0 tl,
                  Sq = Some op :: tl ->
                  getInfixData SF op = Ok info ds0 ->
                  (MinPrecedence <= getPrecedence info)%N ->
                  List.length Sq' + 2 <= List.length Sq))
    /\ (forall (L : option Expr) (op1 : Expr) (info1 : InfixData)
               (ds1 : list Diagnostic) (R : option Expr)
               (Sq : list (option Expr)) (MinPrecedence : N),
          operatorSequence SF Sq = true ->
          isa_ExplicitCastExpr op1 = false ->
          getInfixData SF op1 = Ok info1 ds1 ->
          (MinPrecedence <= getPrecedence info1)%N ->
          List.length Sq + 1 < fuel ->
          returnsFold (foldLoop fuel SF L (Some (op1, info1)) R Sq
                         MinPrecedence)
            (nullRest SF Sq MinPrecedence
               (negb (isPresent L) || negb (isPresent R)
                || anyNullOperand Sq))).
Proof.
  induction fuel as [|fuel [IHseq IHloop]].
  { split; intros; lia. }
  split.
  - intros L Sq Min Hcf Hne Hfuel.
    destruct (operatorSequence_inv SF Sq Hcf)
      as [-> | (op & e & rest & info & ds & -> & Hnc & Hop & Hr)];
      [congruence|].
    rewrite foldSequence_S. cbn [isEmpty negb].
    rewrite (operatorSequence_even SF _ _ (le_n _) Hcf).
    rewrite !assertM_true, !bind_ret.
    apply (returnsFold_Ok_bind _ _ _ _ _
             (getNextOperator_cons _ _ _ _ _ _ Hop)).
    destruct (N.ltb (getPrecedence info) Min) eqn:Hlt.
    + apply N.ltb_lt in Hlt. apply returnsFold_ret. split.
      * solve_nulls.
      * intros op' info' ds' tl [= <- <-] Hop' Hle.
        rewrite Hop in Hop'. injection Hop' as <- <-. lia.
    + apply N.ltb_ge in Hlt. unfold at_. cbn [nth_error slice skipn].
      rewrite bind_ret. simpl in Hfuel.
      apply (returnsFold_weaken _ _ _
               (IHloop L op info ds e rest Min Hr Hnc Hop Hlt
                  ltac:(lia))).
      intros r Sq' (Hcf' & Hlen & Hz & Hn). split.
      * solve_nulls.
      * intros. simpl. lia.
  - intros L op1 info1 ds1 R Sq Min Hcf Hnc1 Hop1 Hmin Hfuel.
    destruct (makeBinOp_null SF op1 L R info1 ds1 Hop1 Hnc1)
      as (x & Hmk & Hx).
    destruct (operatorSequence_inv SF Sq Hcf)
      as [-> | (op2 & e2 & rest & info2 & ds2 & -> & Hnc2 & Hop2 & Hr)].
    + rewrite foldLoop_S_empty. cbn [Op_op].
      rewrite Hmk, bind_Ok_nil. apply returnsFold_ret. solve_nulls.
    + rewrite foldLoop_S_operator;
        [| exact (operatorSequence_even SF _ _ (le_n _) Hcf)
         | assumption | assumption].
      apply (returnsFold_Ok_bind _ _ _ _ _ Hop2).
      simpl in Hfuel.
      destruct (N.ltb (getPrecedence info2) Min) eqn:Hlt2.
      { apply N.ltb_lt in Hlt2. rewrite Hmk, bind_Ok_nil.
        apply returnsFold_ret. solve_nulls. }
      apply N.ltb_ge in Hlt2.
      assert (Hnext : getNextOperator SF (Some op2 :: e2 :: rest) Min
                      = Ok (Some (op2, info2)) ds2).
      { rewrite (getNextOperator_cons _ _ _ _ _ _ Hop2).
        replace (getPrecedence info2 <? Min)%N with false
          by (symmetry; apply N.ltb_ge; lia).
        reflexivity. }
      destruct ((getPrecedence info2 <? getPrecedence info1)%N
                || (InfixData_eqb info1 info2 && isLeftAssociative info1))
        eqn:Hc1.
      { rewrite Hmk, bind_Ok_nil.
        apply (returnsFold_Ok_bind _ _ _ _ _ Hnext).
        cbn [isPresent]. rewrite assertM_true, bind_ret.
        unfold at_. cbn [nth_error slice skipn]. rewrite bind_ret.
        apply (returnsFold_weaken _ _ _
                 (IHloop x op2 info2 ds2 e2 rest Min
                    Hr Hnc2 Hop2 Hlt2 ltac:(lia))).
        intros r Sq' (Hcf' & Hlen & Hz & Hn). solve_nulls. }
      destruct (N.ltb (getPrecedence info1) (getPrecedence info2)) eqn:Hc2.
      { apply N.ltb_lt in Hc2.
        refine (returnsFold_bind _ _ _ _
                  (IHseq R _ (getPrecedence info1 + 1)%N Hcf
                     ltac:(discriminate) ltac:(simpl; lia)) _).
        intros r Sq' ((Hcf' & Hlen & _ & Hn) & Hcons).
        specialize (Hcons op2 info2 ds2 _ eq_refl Hop2 ltac:(lia)).
        simpl in Hcons, Hlen.
        apply (returnsFold_weaken _ _ _
                 (IHloop L op1 info1 ds1 r Sq' Min Hcf' Hnc1 Hop1 Hmin
                    ltac:(lia))).
        intros r' Sq'' (Hcf'' & Hlen'' & Hz & Hn'). solve_nulls. }
      destruct (InfixData_eqb info1 info2 && isRightAssociative info1)
        eqn:Hc3.
      { apply N.ltb_ge in Hc2.
        assert (Hpe : getPrecedence info1 = getPrecedence info2).
        { apply andb_true_iff in Hc3. destruct Hc3 as [Hc3 _].
          unfold InfixData_eqb in Hc3. apply andb_true_iff in Hc3.
          destruct Hc3 as [Hc3 _]. now apply N.eqb_eq in Hc3. }
        refine (returnsFold_bind _ _ _ _
                  (IHseq R _ (getPrecedence info1) Hcf
                     ltac:(discriminate) ltac:(simpl; lia)) _).
        intros r Sq' ((Hcf' & Hlen & _ & Hn) & Hcons).
        specialize (Hcons op2 info2 ds2 _ eq_refl Hop2 ltac:(lia)).
        simpl in Hcons, Hlen.
        destruct (makeBinOp_null SF op1 L r info1 ds1 Hop1 Hnc1)
          as (x' & Hmk' & Hx').
        rewrite Hmk', bind_Ok_nil.
        destruct (isEmpty Sq') eqn:Hemp.
        - apply returnsFold_ret. destruct Sq'; [|discriminate].
          solve_nulls.
        - apply (returnsFold_weaken _ _ _
                   (IHseq x' Sq' Min Hcf'
                      ltac:(intros ->; discriminate) ltac:(lia))).
          intros r' Sq'' ((Hcf'' & Hlen'' & Hz & Hn') & _). solve_nulls. }
      apply N.ltb_ge in Hc2.
      destruct (conflict_assertions _ _ Hc1
                  ltac:(apply N.ltb_ge; exact Hc2) Hc3) as [Ha1 Ha2].
      rewrite Ha1, Ha2, !assertM_true, !bind_ret.
      assert (Hd : exists d,
                 (if isNonAssociative info1
                  then diagnose (getLoc op1) diag.non_assoc_adjacent
                  else if isNonAssociative info2
                       then diagnose (getLoc op2) diag.non_assoc_adjacent
                       else diagnose (getLoc op1) diag.incompatible_assoc)
                 = Ok tt [d]).
      { destruct (isNonAssociative info1);
          [|destruct (isNonAssociative info2)]; eexists; reflexivity. }
      destruct Hd as [d Hd].
      apply (returnsFold_Ok_bind _ _ _ _ _ Hd).
      rewrite Hmk, bind_Ok_nil.
      apply (returnsFold_weaken _ _ _
               (IHseq x _ Min Hcf ltac:(discriminate) ltac:(simpl; lia))).
      intros r' Sq'' ((Hcf'' & Hlen'' & Hz & Hn') & _). solve_nulls.
Qed.

(** X17: a null operand makes the whole fold null and nothing else does.
    A sequence whose operators are present, are no casts and have infix
    attributes is folded to the end whatever operands are null: the fold
    returns, and it returns null exactly if the first operand or a later
    operand is null. *)
Theorem foldSequence_null_iff_null_operand :
  forall (SF : SourceFile) (E0 : option Expr) (Sq : list (option Expr)),
    operatorSequence SF Sq = true -> Sq <> [] ->
    exists (r : option Expr) (ds : list Diagnostic),
      TypeChecker.foldSequence SF (E0 :: Sq) = Ok r ds
      /\ (isPresent r = false
          <-> isPresent E0 = false \/ anyNullOperand Sq = true).
Proof.
  intros SF E0 Sq Hcf Hne.
  destruct (operatorSequence_inv SF Sq Hcf)
    as [-> | (op & e & rest & info & ds & -> & Hnc & Hop & Hr)];
    [congruence|].
  rewrite TypeChecker_foldSequence_cons
    by exact (operatorSequence_even SF _ _ (le_n _) Hr).
  destruct (proj1 (foldSequence_nulls SF (3 + List.length rest))
              E0 (Some op :: e :: rest) 0%N Hcf Hne ltac:(simpl; lia))
    as (r & Sq' & ds' & Hfold & (_ & _ & Hz & Hn) & _).
  rewrite (Hz eq_refl) in *. exists r, (ds' ++ []). split.
  - rewrite (bind_Ok (B := option Expr) _ Hfold). reflexivity.
  - cbn [anyNullOperand] in Hn. rewrite orb_false_r in Hn.
    rewrite <- (negb_true_iff (isPresent r)), Hn, orb_true_iff,
      negb_true_iff.
    reflexivity.
Qed.

Lemma foldSequence_null_iff_null_operand_witness :
  exists (r : option Expr) (ds : list Diagnostic),
    TypeChecker.foldSequence Sample.SF
      (Some (Sample.operand 1) :: nullOperandSample) = Ok r ds
    /\ (isPresent r = false
        <-> isPresent (Some (Sample.operand 1)) = false
            \/ anyNullOperand nullOperandSample = true).
Proof.
  apply (foldSequence_null_iff_null_operand Sample.SF
           (Some (Sample.operand 1)) nullOperandSample).
  - reflexivity.
  - discriminate.
Defined.

(** * Casts in the folded tree *)

Lemma reading_foldedNode (op L R : Expr) :
  asParsed op = true ->
  reading (foldedNode op L R) = reading L ++ readingPair op R.
Proof.
  unfold readingPair.
  destruct op; try reflexivity; cbn [asParsed isa_ExplicitCastExpr].
  - destruct Cond, Else; try discriminate. reflexivity.
  - destruct Dest, Src; try discriminate. reflexivity.
  - destruct Sub; [discriminate|]. intros _. cbn [foldedNode].
    destruct ForceLoc; reflexivity.
Qed.

Lemma parsedSequence_inv (SF : SourceFile) (Sq : list (option Expr)) :
  parsedSequence SF Sq = true ->
  Sq = []
  \/ exists op e rest info ds,
       Sq = Some op :: Some e :: rest
       /\ asParsed op = true
       /\ getInfixData SF op = Ok info ds
       /\ castOperandOk op e = true
       /\ parsedSequence SF rest = true.
Proof.
  destruct Sq as [|[op|] [|[e|] rest]]; simpl; try discriminate; auto.
  intros H. right. repeat (apply andb_true_iff in H; destruct H as [H ?]).
  destruct (getInfixData SF op) as [info ds | |] eqn:E; try discriminate.
  exists op, e, rest, info, ds. auto.
Qed.

Lemma parsedSequence_foldable (SF : SourceFile) :
  forall (n : nat) (Sq : list (option Expr)),
    List.length Sq <= n ->
    parsedSequence SF Sq = true -> foldableSequence SF Sq = true.
Proof.
  induction n as [|n IH]; intros Sq Hn H;
    destruct (parsedSequence_inv SF Sq H)
      as [-> | (op & e & rest & info & ds & -> & _ & Hop & Hco & Hr)];
    try reflexivity; simpl in Hn; [lia|].
  cbn [foldableSequence]. rewrite Hop, Hco, (IH rest); auto. lia.
Qed.

(** A loop that goes on with the null operator returns nothing. *)
Lemma foldLoop_null_operator (SF : SourceFile) (fuel : nat) (L R : Expr)
  (Sq : list (option Expr)) (MinPrecedence : N)
  (P : option Expr * list (option Expr) -> Prop) :
  partial (foldLoop fuel SF (Some L) None (Some R) Sq MinPrecedence) P.
Proof.
  destruct fuel as [|fuel]; [exact I|]. cbn [foldLoop].
  destruct Sq as [|x Sq]; cbn [isEmpty]; [exact I|].
  destruct (sizeIsEven (x :: Sq)); exact I.
Qed.

Lemma foldSequence_reads (SF : SourceFile) :
  forall fuel : nat,
    (forall (L : Expr) (Sq : list (option Expr)) (MinPrecedence : N),
        parsedSequence SF Sq = true -> Sq <> [] ->
        partial (foldSequence fuel SF (Some L) Sq MinPrecedence)
          (readsAs SF (reading L ++ readingOf Sq)))
    /\ (forall (L op1 R : Expr) (info1 : InfixData) (ds1 : list Diagnostic)
               (Sq : list (option Expr)) (MinPrecedence : N),
          parsedSequence SF Sq = true ->
          asParsed op1 = true ->
          getInfixData SF op1 = Ok info1 ds1 ->
          castOperandOk op1 R = true ->
          (MinPrecedence <= getPrecedence info1)%N ->
          partial (foldLoop fuel SF (Some L) (Some (op1, info1)) (Some R)
                     Sq MinPrecedence)
            (readsAs SF (reading L ++ readingPair op1 R ++ readingOf Sq))).
Proof.
  induction fuel as [|fuel [IHseq IHloop]].
  { split; intros; exact I. }
  split.
  - intros L Sq Min Hp Hne.
    destruct (parsedSequence_inv SF Sq Hp)
      as [-> | (op & e & rest & info & ds & -> & Hf & Hop & Hco & Hr)];
      [congruence|].
    rewrite foldSequence_S. cbn [isEmpty negb].
    rewrite (foldableSequence_even SF _ _ (le_n _)
               (parsedSequence_foldable SF _ _ (le_n _) Hp)).
    rewrite !assertM_true, !bind_ret.
    apply (partial_Ok_bind _ _ _ _ _
             (getNextOperator_cons _ _ _ _ _ _ Hop)).
    destruct (N.ltb (getPrecedence info) Min) eqn:Hlt.
    + unfold ret. cbn [partial].
      exists L, (Some op :: Some e :: rest). auto.
    + apply N.ltb_ge in Hlt. unfold at_. cbn [nth_error slice skipn].
      rewrite bind_ret. cbn [readingOf].
      exact (IHloop L op e info ds rest Min Hr Hf Hop Hco Hlt).
  - intros L op1 R info1 ds1 Sq Min Hp Hf1 Hop1 Hco1 Hmin.
    assert (Hmk : forall X R', castOperandOk op1 R' = true ->
                    makeBinOp (Some op1) (Some X) (Some R')
                    = Ok (Some (foldedNode op1 X R')) []).
    { intros X R' H. apply makeBinOp_foldedNode; [|assumption].
      exact (getInfixData_unfolded _ _ _ _ Hop1). }
    destruct (parsedSequence_inv SF Sq Hp)
      as [-> | (op2 & e2 & rest & info2 & ds2 & -> & Hf2 & Hop2 & Hco2
                & Hr)].
    + rewrite foldLoop_S_empty. cbn [Op_op].
      rewrite (Hmk L R Hco1), bind_Ok_nil. unfold ret. cbn [partial].
      exists (foldedNode op1 L R), []. repeat split.
      cbn [readingOf]. now rewrite (reading_foldedNode _ _ _ Hf1), !app_nil_r.
    + pose proof (foldableSequence_even SF _ _ (le_n _)
                    (parsedSequence_foldable SF _ _ (le_n _) Hp)) as Hev.
      assert (Hstep : forall X,
                 reading (foldedNode op1 L R)
                 ++ readingPair op2 X ++ readingOf rest
                 = (reading L ++ readingPair op1 R)
                   ++ readingPair op2 X ++ readingOf rest)
        by (intros; now rewrite (reading_foldedNode _ _ _ Hf1)).
      destruct (isa_ExplicitCastExpr op1) eqn:Hc1.
      * rewrite foldLoop_S_cast;
          [| reflexivity | assumption | assumption | assumption].
        rewrite (Hmk L R Hco1), bind_Ok_nil.
        apply (partial_Ok_bind _ _ _ _ _
                 (getNextOperator_cons _ _ _ _ _ _ Hop2)).
        unfold at_. cbn [nth_error slice skipn]. rewrite bind_ret.
        destruct (N.ltb (getPrecedence info2) Min) eqn:Hlt2;
          [apply foldLoop_null_operator|].
        apply N.ltb_ge in Hlt2. cbn [readingOf].
        rewrite app_assoc, <- Hstep.
        exact (IHloop (foldedNode op1 L R) op2 e2 info2 ds2 rest Min
                 Hr Hf2 Hop2 Hco2 Hlt2).
      * assert (Hco1' : forall r', castOperandOk op1 r' = true).
        { intros r'. unfold castOperandOk. now rewrite Hc1. }
        assert (Hpair : forall r', readingPair op1 r' = op1 :: reading r').
        { intros r'. unfold readingPair. now rewrite Hc1. }
        rewrite foldLoop_S_operator; [| assumption | assumption | assumption].
        apply (partial_Ok_bind _ _ _ _ _ Hop2).
        destruct (N.ltb (getPrecedence info2) Min) eqn:Hlt2.
        { rewrite (Hmk L R Hco1), bind_Ok_nil. unfold ret. cbn [partial].
          exists (foldedNode op1 L R), (Some op2 :: Some e2 :: rest).
          repeat split; [assumption|].
          rewrite (reading_foldedNode _ _ _ Hf1). now rewrite <- app_assoc. }
        apply N.ltb_ge in Hlt2.
        assert (Hnext2 : getNextOperator SF (Some op2 :: Some e2 :: rest) Min
                         = Ok (Some (op2, info2)) ds2).
        { rewrite (getNextOperator_cons _ _ _ _ _ _ Hop2).
          replace (getPrecedence info2 <? Min)%N with false
            by (symmetry; apply N.ltb_ge; lia).
          reflexivity. }
        destruct ((getPrecedence info2 <? getPrecedence info1)%N
                  || (InfixData_eqb info1 info2
                      && isLeftAssociative info1)) eqn:Hfi.
        { rewrite (Hmk L R Hco1), bind_Ok_nil.
          apply (partial_Ok_bind _ _ _ _ _ Hnext2).
          cbn [isPresent]. rewrite assertM_true, bind_ret.
          unfold at_. cbn [nth_error slice skipn]. rewrite bind_ret.
          cbn [readingOf]. rewrite app_assoc, <- Hstep.
          exact (IHloop (foldedNode op1 L R) op2 e2 info2 ds2 rest Min
                   Hr Hf2 Hop2 Hco2 Hlt2). }
        destruct (N.ltb (getPrecedence info1) (getPrecedence info2)) eqn:Hc2.
        { eapply partial_bind.
          - exact (IHseq R (Some op2 :: Some e2 :: rest)
                     (getPrecedence info1 + 1)%N Hp ltac:(discriminate)).
          - intros [r' Sq'] (r'' & Sq'' & [= -> ->] & Hp' & He').
            cbv beta iota.
            apply (partial_weaken _ _ _
                     (IHloop L op1 r'' info1 ds1 Sq'' Min Hp' Hf1 Hop1
                        (Hco1' r'') Hmin)).
            intros res (r3 & Sq3 & -> & Hp3 & He3).
            exists r3, Sq3. repeat split; [assumption|].
            rewrite He3, !Hpair. cbn [app]. now rewrite He'. }
        destruct (InfixData_eqb info1 info2 && isRightAssociative info1)
          eqn:Hc3.
        { eapply partial_bind.
          - exact (IHseq R (Some op2 :: Some e2 :: rest)
                     (getPrecedence info1) Hp ltac:(discriminate)).
          - intros [r' Sq'] (r'' & Sq'' & [= -> ->] & Hp' & He').
            cbv beta iota.
            rewrite (Hmk L r'' (Hco1' r'')), bind_Ok_nil.
            assert (Hwhole : reading (foldedNode op1 L r'') ++ readingOf Sq''
                             = reading L ++ readingPair op1 R
                               ++ readingOf (Some op2 :: Some e2 :: rest)).
            { rewrite (reading_foldedNode _ _ _ Hf1), !Hpair.
              rewrite <- app_assoc. cbn [app]. now rewrite He'. }
            destruct (isEmpty Sq'') eqn:Hemp.
            + unfold ret. cbn [partial].
              exists (foldedNode op1 L r''), Sq''. auto.
            + apply (partial_weaken _ _ _
                       (IHseq (foldedNode op1 L r'') Sq'' Min Hp'
                          ltac:(intros ->; discriminate))).
              intros res (r3 & Sq3 & -> & Hp3 & He3).
              exists r3, Sq3. repeat split; [assumption|].
              now rewrite He3. }
        destruct (conflict_assertions _ _ Hfi Hc2 Hc3) as [Ha1 Ha2].
        rewrite Ha1, Ha2, !assertM_true, !bind_ret.
        assert (Hd : exists d,
                   (if isNonAssociative info1
                    then diagnose (getLoc op1) diag.non_assoc_adjacent
                    else if isNonAssociative info2
                         then diagnose (getLoc op2) diag.non_assoc_adjacent
                         else diagnose (getLoc op1) diag.incompatible_assoc)
                   = Ok tt [d]).
        { destruct (isNonAssociative info1);
            [|destruct (isNonAssociative info2)]; eexists; reflexivity. }
        destruct Hd as [d Hd].
        apply (partial_Ok_bind _ _ _ _ _ Hd).
        rewrite (Hmk L R Hco1), bind_Ok_nil.
        apply (partial_weaken _ _ _
                 (IHseq (foldedNode op1 L R) (Some op2 :: Some e2 :: rest)
                    Min Hp ltac:(discriminate))).
        intros res (r3 & Sq3 & -> & Hp3 & He3).
        exists r3, Sq3. repeat split; [assumption|].
        rewrite He3, (reading_foldedNode _ _ _ Hf1).
        now rewrite <- app_assoc.
Qed.

(** X18: where the fold returns, a cast holds only what is to its left.
    Take a sequence of non-null operands and of operators as the parser
    leaves them, each with infix attributes, in which every operator that
    follows a cast binds tighter than the last operator before that cast
    that is no cast and of a precedence of at most 95.  Its fold returns a
    tree that reads from left to right as the sequence does, where a cast
    node reads as its subject followed by the cast: no operator or operand
    that follows the type of a cast in the sequence is inside the cast, and
    a forced cast is under a force-unwrap with its marker cleared. *)
Theorem foldSequence_cast_holds_left_only :
  forall (SF : SourceFile) (E0 : Expr) (Sq : list (option Expr)),
    Sq <> [] ->
    parsedSequence SF Sq = true ->
    castsAboveFloor SF 0 Sq = true ->
    exists r ds,
      TypeChecker.foldSequence SF (Some E0 :: Sq) = Ok (Some r) ds
      /\ reading r = reading E0 ++ readingOf Sq.
Proof.
  intros SF E0 Sq Hne Hp Hca.
  pose proof (parsedSequence_foldable SF _ _ (le_n _) Hp) as Hfo.
  destruct (TypeChecker_foldSequence_accounts SF E0 Sq Hne Hfo Hca)
    as (r & ds & Hfold & _).
  exists r, ds. split; [assumption|].
  destruct (foldableSequence_inv SF Sq Hfo)
    as [-> | (f & e & rest & info & dsf & -> & Hop & Hco & Hfr)];
    [congruence|].
  rewrite TypeChecker_foldSequence_cons in Hfold
    by exact (foldableSequence_even SF _ _ (le_n _) Hfr).
  pose proof (proj1 (foldSequence_reads SF (3 + List.length rest))
                E0 (Some f :: Some e :: rest) 0%N Hp Hne) as Hread.
  destruct (foldSequence (3 + List.length rest) SF (Some E0)
              (Some f :: Some e :: rest) 0) as [[r' Sq'] ds' | |];
    try discriminate.
  simpl in Hread. destruct Hread as (r'' & Sq'' & [= -> ->] & _ & He).
  cbn [bind] in Hfold.
  destruct Sq'' as [|x Sq'']; [|discriminate].
  cbn in Hfold. injection Hfold as <- _.
  cbn [readingOf] in *. rewrite <- He. now rewrite app_nil_r.
Qed.

Lemma foldSequence_cast_holds_left_only_witness :
  exists r ds,
    TypeChecker.foldSequence Sample.SF
      (Some (Sample.operand 1) :: forcedCastSample) = Ok (Some r) ds
    /\ reading r
       = reading (Sample.operand 1) ++ readingOf forcedCastSample.
Proof.
  apply (foldSequence_cast_holds_left_only Sample.SF (Sample.operand 1)
           forcedCastSample).
  - discriminate.
  - reflexivity.
  - reflexivity.
Defined.

